(** * insight-kopdes: the question-to-SQL pipeline of [chains/query_chain.py]
    and [db/connection.py], embedded as executable Rocq definitions.

    Text is modelled as [string] over code points 0..255 (ASCII and Latin-1);
    the character classes below are the ones Python's [re] and [str] methods
    use on that range.  External services (the completion service, the
    relational engine, the metadata file, the summarizer) are explicit
    arguments of the functions that call them, and a call that can raise
    returns a [result]. *)

From Stdlib Require Import String Ascii List ZArith Bool Arith Lia.
From Stdlib Require Import Numbers.DecimalString.
Import ListNotations.

Open Scope string_scope.

(** ** Outcomes of calls that can raise *)

Inductive exn : Type :=
| ValueError (msg : string)
| TypeError (msg : string)
| AttributeError (msg : string)
| KeyError (msg : string)
| OtherError (msg : string).

Inductive result (A : Type) : Type :=
| Ok (a : A)
| Raise (e : exn).
Arguments Ok {A} a.
Arguments Raise {A} e.

Definition rbind {A B} (r : result A) (k : A -> result B) : result B :=
  match r with
  | Ok a => k a
  | Raise e => Raise e
  end.

Definition exn_msg (e : exn) : string :=
  match e with
  | ValueError m | TypeError m | AttributeError m | KeyError m | OtherError m => m
  end.

(** ** Characters *)

Definition code (c : ascii) : nat := nat_of_ascii c.

Definition between (lo hi : nat) (c : ascii) : bool :=
  Nat.leb lo (code c) && Nat.leb (code c) hi.

(** [\s] of [re] on [str], and the characters [str.strip] removes. *)
Definition is_space (c : ascii) : bool :=
  between 9 13 c || between 28 32 c || Nat.eqb (code c) 133 || Nat.eqb (code c) 160.

Definition is_digit (c : ascii) : bool := between 48 57 c.
Definition is_upper_ascii (c : ascii) : bool := between 65 90 c.
Definition is_lower_ascii (c : ascii) : bool := between 97 122 c.

(** [[a-zA-Z_]] and [[a-zA-Z0-9_]]. *)
Definition is_ident_start (c : ascii) : bool :=
  is_upper_ascii c || is_lower_ascii c || Nat.eqb (code c) 95.
Definition is_ident_char (c : ascii) : bool :=
  is_ident_start c || is_digit c.

(** [\w] of [re] on [str]: alphanumeric code points and the underscore. *)
Definition is_word (c : ascii) : bool :=
  is_ident_char c
  || Nat.eqb (code c) 170 || Nat.eqb (code c) 178 || Nat.eqb (code c) 179 || Nat.eqb (code c) 181
  || between 185 186 c || between 188 190 c
  || between 192 214 c || between 216 246 c || between 248 255 c.

(** [str.isupper] on one character, and [str.lower]. *)
Definition is_upper (c : ascii) : bool :=
  is_upper_ascii c || between 192 214 c || between 216 222 c.

Definition lower_char (c : ascii) : ascii :=
  if is_upper c then ascii_of_nat (code c + 32) else c.

Fixpoint lower (s : string) : string :=
  match s with
  | EmptyString => EmptyString
  | String c r => String (lower_char c) (lower r)
  end.

(** ** A few [str] methods *)

Fixpoint lstrip (s : string) : string :=
  match s with
  | String c r => if is_space c then lstrip r else s
  | EmptyString => EmptyString
  end.

Fixpoint rev_string (s acc : string) : string :=
  match s with
  | EmptyString => acc
  | String c r => rev_string r (String c acc)
  end.

Definition rstrip (s : string) : string :=
  rev_string (lstrip (rev_string s "")) "".

Definition strip (s : string) : string := rstrip (lstrip s).

(** [s.endswith(";")] followed by [s[:-1]]. *)
Fixpoint drop_last_semicolon (s : string) : string :=
  match s with
  | EmptyString => EmptyString
  | String c EmptyString => if Ascii.eqb c ";" then EmptyString else s
  | String c r => String c (drop_last_semicolon r)
  end.

Fixpoint starts_with (p s : string) : bool :=
  match p, s with
  | EmptyString, _ => true
  | String a p', String b s' => Ascii.eqb a b && starts_with p' s'
  | String _ _, EmptyString => false
  end.

(** [needle in haystack] on strings. *)
Fixpoint contains (needle hay : string) : bool :=
  starts_with needle hay ||
  match hay with
  | EmptyString => false
  | String _ r => contains needle r
  end.

(** [s.split(sep)[0]] for a one-character separator. *)
Fixpoint split_first (sep : ascii) (s : string) : string :=
  match s with
  | EmptyString => EmptyString
  | String c r => if Ascii.eqb c sep then EmptyString else String c (split_first sep r)
  end.

Definition str_mem (x : string) (l : list string) : bool :=
  existsb (String.eqb x) l.

(** ** Regular expressions

    Each pattern of the source is written as a matcher: a function from a
    cursor (the character before the position, and the text from the position
    on) to the captured value and the cursor after the match.  The greedy
    repetitions of these patterns never give a character back: what follows a
    repetition never starts with a character of the repeated class (and inside
    a run of identifier characters no position is a word boundary), so the
    first, longest attempt is the only one that can succeed. *)

Definition cursor : Type := option ascii * string.
Definition matcher (A : Type) : Type := cursor -> option (A * cursor).

Definition mret {A} (a : A) : matcher A := fun cur => Some (a, cur).

Definition mbind {A B} (m : matcher A) (k : A -> matcher B) : matcher B :=
  fun cur =>
    match m cur with
    | Some (a, cur') => k a cur'
    | None => None
    end.

Declare Scope re_scope.
Delimit Scope re_scope with re.
Notation "x <- m ;; k" := (mbind m (fun x => k))
  (at level 61, m at next level, right associativity) : re_scope.
Notation "m ;;; k" := (mbind m (fun _ => k))
  (at level 61, right associativity) : re_scope.

(** One character of a class. *)
Definition chr (p : ascii -> bool) : matcher ascii :=
  fun cur =>
    match snd cur with
    | String c r => if p c then Some (c, (Some c, r)) else None
    | EmptyString => None
    end.

(** [[class]*], greedy. *)
Fixpoint many_from (p : ascii -> bool) (prev : option ascii) (s : string)
  : string * cursor :=
  match s with
  | String c r =>
      if p c then
        let '(w, cur) := many_from p (Some c) r in (String c w, cur)
      else (EmptyString, (prev, s))
  | EmptyString => (EmptyString, (prev, s))
  end.

Definition many (p : ascii -> bool) : matcher string :=
  fun cur => Some (many_from p (fst cur) (snd cur)).

(** [[class]+], greedy. *)
Definition many1 (p : ascii -> bool) : matcher string :=
  (c <- chr p ;; w <- many p ;; mret (String c w))%re.

(** A literal, exact or under [re.IGNORECASE]. *)
Definition ci_char (x c : ascii) : bool := Ascii.eqb (lower_char c) (lower_char x).

Fixpoint lit_with (eq : ascii -> ascii -> bool) (w : string) : matcher unit :=
  match w with
  | EmptyString => mret tt
  | String x w' => (chr (eq x) ;;; lit_with eq w')%re
  end.

Definition lit : string -> matcher unit := lit_with Ascii.eqb.
Definition lit_ci : string -> matcher unit := lit_with ci_char.

(** [\b]. *)
Definition word_opt (c : option ascii) : bool :=
  match c with
  | Some c => is_word c
  | None => false
  end.

Definition head_char (s : string) : option ascii :=
  match s with
  | String c _ => Some c
  | EmptyString => None
  end.

Definition bnd : matcher unit :=
  fun cur =>
    if xorb (word_opt (fst cur)) (word_opt (head_char (snd cur)))
    then Some (tt, cur) else None.

(** [a|b|...]: the first alternative that matches at the position. *)
Fixpoint alt {A} (ms : list (matcher A)) : matcher A :=
  fun cur =>
    match ms with
    | [] => None
    | m :: ms' =>
        match m cur with
        | Some r => Some r
        | None => alt ms' cur
        end
    end.

Definition advance (cur : cursor) : option cursor :=
  match snd cur with
  | String c r => Some (Some c, r)
  | EmptyString => None
  end.

(** [pattern.search(s) is not None]. *)
Fixpoint search_from {A} (m : matcher A) (prev : option ascii) (s : string) : bool :=
  match m (prev, s) with
  | Some _ => true
  | None =>
      match s with
      | String c r => search_from m (Some c) r
      | EmptyString => false
      end
  end.

Definition search {A} (m : matcher A) (s : string) : bool := search_from m None s.

(** [re.findall]: matches from left to right, each scan resuming where the
    previous match ended.  Every pattern here consumes at least one character,
    so [S (length s)] steps reach the end of [s]. *)
Fixpoint findall_from {A} (m : matcher A) (fuel : nat) (cur : cursor) : list A :=
  match fuel with
  | O => []
  | S fuel' =>
      match m cur with
      | Some (a, cur') => a :: findall_from m fuel' cur'
      | None =>
          match advance cur with
          | Some cur' => findall_from m fuel' cur'
          | None => []
          end
      end
  end.

Definition findall {A} (m : matcher A) (s : string) : list A :=
  findall_from m (S (String.length s)) (None, s).

(** [re.sub(pattern, '', s)]. *)
Fixpoint sub_empty_from {A} (m : matcher A) (fuel : nat) (cur : cursor) : string :=
  match fuel with
  | O => EmptyString
  | S fuel' =>
      match m cur with
      | Some (_, cur') => sub_empty_from m fuel' cur'
      | None =>
          match snd cur with
          | String c r => String c (sub_empty_from m fuel' (Some c, r))
          | EmptyString => EmptyString
          end
      end
  end.

Definition sub_empty {A} (m : matcher A) (s : string) : string :=
  sub_empty_from m (S (String.length s)) (None, s).

(** ** Validation: [validate_sql] *)

(** [^\s*SELECT\s], [re.IGNORECASE]; the [^] is the start of the text. *)
Definition _SELECT_ONLY_RE : matcher unit :=
  (many is_space ;;; lit_ci "SELECT" ;;; chr is_space ;;; mret tt)%re.

Definition word_ci (w : string) : matcher unit :=
  (bnd ;;; lit_ci w ;;; bnd)%re.

Definition forbidden_keywords : list string :=
  ["INSERT"; "UPDATE"; "DELETE"; "DROP"; "ALTER"; "TRUNCATE"; "CREATE"].

(** [;|--|\bINSERT\b|...|\bCREATE\b], [re.IGNORECASE]. *)
Definition _FORBIDDEN_RE : matcher unit :=
  alt (lit ";" :: lit "--" :: map word_ci forbidden_keywords).

Definition validate_sql (sql : string) : bool :=
  if negb (match _SELECT_ONLY_RE (None, sql) with Some _ => true | None => false end)
  then false
  else if search _FORBIDDEN_RE sql then false
  else true.

(** ** Values and rows

    A value is modelled by what the serializer can observe of it: a
    [datetime] or [date] by its [isoformat()], a [Decimal] by its [float()],
    a float by its [repr], any other object by its [str()]. *)

Inductive pyval : Type :=
| PyNone
| PyBool (b : bool)
| PyInt (n : Z)
| PyFloat (repr : string)
| PyStr (s : string)
| PyDatetime (isoformat : string)
| PyDate (isoformat : string)
| PyDecimal (as_float : string)
| PyObject (str : string).

Definition str_of_Z (n : Z) : string := NilEmpty.string_of_int (Z.to_int n).

Definition py_str (v : pyval) : string :=
  match v with
  | PyNone => "None"
  | PyBool true => "True"
  | PyBool false => "False"
  | PyInt n => str_of_Z n
  | PyFloat r => r
  | PyStr s => s
  | PyDatetime iso => iso
  | PyDate iso => iso
  | PyDecimal f => f
  | PyObject s => s
  end.

Definition safe_serialize (obj : pyval) : pyval :=
  match obj with
  | PyDatetime iso | PyDate iso => PyStr iso
  | PyDecimal f => PyFloat f
  | _ => PyStr (py_str obj)
  end.

(** A [dict] with string keys, in insertion order. *)
Definition dict (V : Type) : Type := list (string * V).

Fixpoint dict_get {V} (k : string) (d : dict V) : option V :=
  match d with
  | [] => None
  | (k', v) :: r => if String.eqb k k' then Some v else dict_get k r
  end.

Definition dict_has {V} (k : string) (d : dict V) : bool :=
  match dict_get k d with
  | Some _ => true
  | None => false
  end.

(** [d[k] = v]: an existing key keeps its place. *)
Fixpoint dict_set {V} (k : string) (v : V) (d : dict V) : dict V :=
  match d with
  | [] => [(k, v)]
  | (k', v') :: r =>
      if String.eqb k k' then (k, v) :: r else (k', v') :: dict_set k v r
  end.

(** [dict(pairs)]. *)
Definition dict_of_pairs {V} (ps : list (string * V)) : dict V :=
  fold_left (fun d kv => dict_set (fst kv) (snd kv) d) ps [].

Definition dict_keys {V} (d : dict V) : list string := map fst d.
Definition dict_values {V} (d : dict V) : list V := map snd d.

Definition row : Type := dict pyval.

(** [seq[:n]]. *)
Definition slice_to {A} (n : Z) (l : list A) : list A :=
  if (0 <=? n)%Z then firstn (Z.to_nat n) l
  else firstn (Z.to_nat (Z.of_nat (List.length l) + n)) l.

(** ** Schema context *)

Record table_info : Type := {
  table : string;
  description : option string;
  columns : list string;
  sample_rows : list row
}.

Definition schema_summary : Type := list table_info.

Definition dquote : ascii := ascii_of_nat 34.
Definition squote : ascii := ascii_of_nat 39.
Definition dq : string := String dquote EmptyString.

(** [col.split(" ")[0].split("(")[0]]. *)
Definition col_name (col : string) : string :=
  split_first "(" (split_first " " col).

Definition valid_tables (schema : schema_summary) : list string :=
  map (fun t => lower (table t)) schema.

Definition valid_columns (schema : schema_summary) : list string :=
  flat_map (fun t => map (fun col => lower (col_name col)) (columns t)) schema.

Definition sql_keywords : list string :=
  ["select"; "from"; "where"; "join"; "on"; "as"; "and"; "or"; "not"; "in"; "is"; "null";
   "count"; "sum"; "avg"; "max"; "min"; "distinct"; "group"; "by"; "order"; "having";
   "left"; "right"; "inner"; "outer"; "union"; "all"; "exists"; "like"; "between";
   "case"; "when"; "then"; "else"; "end"; "limit"; "offset"; "desc"; "asc";
   "true"; "false"; "cast"; "extract"; "year"; "month"; "day"; "date"; "timestamp";
   "varchar"; "text"; "integer"; "bigint"; "boolean"; "numeric"; "decimal"; "with"].

Definition sql_functions : list string :=
  ["now"; "current_date"; "current_timestamp"; "coalesce"; "concat"; "upper"; "lower"].

(** [[a-zA-Z_][a-zA-Z0-9_]*]. *)
Definition ident : matcher string :=
  (c <- chr is_ident_start ;; w <- many is_ident_char ;; mret (String c w))%re.

(** [\bFROM\s+(ident)\s+(ident)] and the same with [JOIN], [re.IGNORECASE]. *)
Definition alias_pattern (kw : string) : matcher (string * string) :=
  (bnd ;;; lit_ci kw ;;; many1 is_space ;;;
   t <- ident ;; many1 is_space ;;; a <- ident ;; mret (t, a))%re.

Definition from_pattern : matcher (string * string) := alias_pattern "FROM".
Definition join_pattern : matcher (string * string) := alias_pattern "JOIN".

(** [\b(?:FROM|JOIN)\s+(ident)\s+AS\s+(ident)], [re.IGNORECASE]. *)
Definition as_pattern : matcher (string * string) :=
  (bnd ;;; alt [lit_ci "FROM"; lit_ci "JOIN"] ;;; many1 is_space ;;;
   t <- ident ;; many1 is_space ;;; lit_ci "AS" ;;; many1 is_space ;;;
   a <- ident ;; mret (t, a))%re.

Definition aliases_of (valid_tables : list string) (matches : list (string * string))
  : list string :=
  map (fun m => lower (snd m))
      (filter (fun m => str_mem (lower (fst m)) valid_tables) matches).

Definition extract_table_aliases (sql : string) (valid_tables : list string) : list string :=
  aliases_of valid_tables (findall from_pattern sql)
  ++ aliases_of valid_tables (findall join_pattern sql)
  ++ aliases_of valid_tables (findall as_pattern sql).

(** A span between two double quotes with no double quote inside (one capture
    group), the same between single quotes, and the bare identifier pattern
    [\b[a-zA-Z_][a-zA-Z0-9_]*\b]. *)
Definition not_char (x c : ascii) : bool := negb (Ascii.eqb x c).

Definition delimited (q : ascii) : matcher string :=
  (chr (Ascii.eqb q) ;;; w <- many (not_char q) ;; chr (Ascii.eqb q) ;;; mret w)%re.

Definition quoted_re : matcher string := delimited dquote.
Definition literal_re : matcher string := delimited squote.

Definition bare_re : matcher string :=
  (bnd ;;; w <- ident ;; bnd ;;; mret w)%re.

(** [\bFROM\s+(ident)] and [\bJOIN\s+(ident)], [re.IGNORECASE]. *)
Definition table_pattern (kw : string) : matcher string :=
  (bnd ;;; lit_ci kw ;;; many1 is_space ;;; ident)%re.

Definition quoted_identifiers (sql : string) : list string := findall quoted_re sql.

Definition potential_identifiers (sql : string) : list string :=
  let sql_for_checking := sub_empty literal_re sql in
  let sql_without_quoted := sub_empty quoted_re sql_for_checking in
  findall bare_re sql_without_quoted.

(** The two nested loops over the context with their [break]s. *)
Definition is_valid_column (schema : schema_summary) (identifier : string) : bool :=
  existsb (fun t => existsb (fun col => String.eqb (col_name col) identifier) (columns t))
          schema.

Fixpoint check_quoted (schema : schema_summary) (ids : list string) : option string :=
  match ids with
  | [] => None
  | identifier :: rest =>
      if is_valid_column schema identifier then check_quoted schema rest
      else Some ("quoted_column:" ++ dq ++ identifier ++ dq)
  end.

Definition bare_ok (table_aliases vt vc : list string) (identifier : string) : bool :=
  let identifier_lower := lower identifier in
  if str_mem identifier_lower sql_keywords then true
  else if str_mem identifier_lower sql_functions then true
  else if str_mem identifier_lower table_aliases then true
  else str_mem identifier_lower vt || str_mem identifier_lower vc.

Fixpoint check_bare (table_aliases vt vc : list string) (ids : list string) : option string :=
  match ids with
  | [] => None
  | identifier :: rest =>
      if bare_ok table_aliases vt vc identifier
      then check_bare table_aliases vt vc rest
      else Some identifier
  end.

Fixpoint check_tables (vt : list string) (tables : list string) : option string :=
  match tables with
  | [] => None
  | t :: rest =>
      if str_mem (lower t) vt then check_tables vt rest
      else Some ("table:" ++ t)
  end.

Definition enforce_schema_strictly (sql : string) (schema : schema_summary)
  : bool * option string :=
  let vt := valid_tables schema in
  let vc := valid_columns schema in
  let table_aliases := extract_table_aliases sql vt in
  match check_quoted schema (quoted_identifiers sql) with
  | Some bad => (false, Some bad)
  | None =>
      match check_bare table_aliases vt vc (potential_identifiers sql) with
      | Some bad => (false, Some bad)
      | None =>
          let from_tables := findall (table_pattern "FROM") sql in
          let join_tables := findall (table_pattern "JOIN") sql in
          match check_tables vt (from_tables ++ join_tables) with
          | Some bad => (false, Some bad)
          | None => (true, None)
          end
      end
  end.

(** ** JSON values and the decoder behind [json.loads]

    [json.loads] is a library function: the functions below take the decoder
    as an argument.  A call of it returns a value, raises
    [json.JSONDecodeError], or raises something else (a [ValueError] for an
    integer literal longer than the interpreter's digit limit, a
    [RecursionError] for containers nested deeper than the recursion guard
    allows): the three outcomes of [loads_result].
    [json_loads_ref] is a decoder for the JSON grammar as the library reads
    it, left to right, used to run the model on concrete completions; a [\u]
    escape above code point 255 is outside the character model and is
    refused. *)

#[warnings="-register-all"]
Inductive json : Type :=
| JNull
| JBool (b : bool)
| JNum (lexeme : string)
| JStr (s : string)
| JArr (items : list json)
| JObj (members : dict json).

(** What one call of [json.loads] gives. *)
Inductive loads_result : Type :=
| Loaded (obj : json)
| JSONDecodeError
| LoadsRaise (e : exn).

(** What the scanner makes of a prefix of the text. *)
Inductive scanned : Type :=
| Scanned (v : json) (rest : string)
| Invalid
| Raised (e : exn).

Definition is_json_ws (c : ascii) : bool :=
  Nat.eqb (code c) 32 || Nat.eqb (code c) 9 || Nat.eqb (code c) 10 || Nat.eqb (code c) 13.

Fixpoint skip_ws (s : string) : string :=
  match s with
  | String c r => if is_json_ws c then skip_ws r else s
  | EmptyString => EmptyString
  end.

Definition hex_val (c : ascii) : option nat :=
  if is_digit c then Some (code c - 48)
  else if between 97 102 c then Some (code c - 87)
  else if between 65 70 c then Some (code c - 55)
  else None.

Definition hex4 (a b c d : ascii) : option nat :=
  match hex_val a, hex_val b, hex_val c, hex_val d with
  | Some x, Some y, Some z, Some w => Some (((x * 16 + y) * 16 + z) * 16 + w)
  | _, _, _, _ => None
  end.

Definition simple_escape (e : ascii) : option ascii :=
  if Ascii.eqb e dquote then Some dquote
  else if Ascii.eqb e "\" then Some "\"%char
  else if Ascii.eqb e "/" then Some "/"%char
  else if Ascii.eqb e "b" then Some (ascii_of_nat 8)
  else if Ascii.eqb e "f" then Some (ascii_of_nat 12)
  else if Ascii.eqb e "n" then Some (ascii_of_nat 10)
  else if Ascii.eqb e "r" then Some (ascii_of_nat 13)
  else if Ascii.eqb e "t" then Some (ascii_of_nat 9)
  else None.

Definition cons_result (c : ascii) (r : option (string * string)) : option (string * string) :=
  match r with
  | Some (w, rest) => Some (String c w, rest)
  | None => None
  end.

(** The text after an opening quote, up to the closing one. *)
Fixpoint scan_string (s : string) : option (string * string) :=
  match s with
  | EmptyString => None
  | String c r =>
      if Ascii.eqb c dquote then Some (EmptyString, r)
      else if Ascii.eqb c "\" then
        match r with
        | String "u" (String h1 (String h2 (String h3 (String h4 r')))) =>
            match hex4 h1 h2 h3 h4 with
            | Some n =>
                if Nat.ltb n 256 then cons_result (ascii_of_nat n) (scan_string r')
                else None
            | None => None
            end
        | String e r' =>
            match simple_escape e with
            | Some x => cons_result x (scan_string r')
            | None => None
            end
        | EmptyString => None
        end
      else if Nat.ltb (code c) 32 then None
      else cons_result c (scan_string r)
  end.

Fixpoint span_digits (s : string) : string * string :=
  match s with
  | String c r =>
      if is_digit c then let '(d, rest) := span_digits r in (String c d, rest)
      else (EmptyString, s)
  | EmptyString => (EmptyString, s)
  end.

(** A number: an optional minus sign, then [0] or a digit run not starting
    with [0], then an optional fraction and an optional exponent, each taken
    only when at least one digit follows. *)
Definition scan_int_part (s : string) : option (string * string) :=
  match s with
  | String c r =>
      if Ascii.eqb c "0" then Some ("0", r)
      else if is_digit c then let '(d, rest) := span_digits r in Some (String c d, rest)
      else None
  | EmptyString => None
  end.

Definition scan_frac (s : string) : string * string :=
  match s with
  | String "." r =>
      match span_digits r with
      | (EmptyString, _) => (EmptyString, s)
      | (d, rest) => (String "." d, rest)
      end
  | _ => (EmptyString, s)
  end.

Definition scan_exp (s : string) : string * string :=
  match s with
  | String e r =>
      if Ascii.eqb e "e" || Ascii.eqb e "E" then
        let '(sign, r1) :=
          match r with
          | String g r' =>
              if Ascii.eqb g "-" || Ascii.eqb g "+"
              then (String g EmptyString, r') else (EmptyString, r)
          | EmptyString => (EmptyString, r)
          end in
        match span_digits r1 with
        | (EmptyString, _) => (EmptyString, s)
        | (d, rest) => (String e (sign ++ d), rest)
        end
      else (EmptyString, s)
  | EmptyString => (EmptyString, s)
  end.

Definition scan_number (s : string) : option (string * string * string * string) :=
  let '(sign, r0) :=
    match s with
    | String "-" r => ("-", r)
    | _ => (EmptyString, s)
    end in
  match scan_int_part r0 with
  | Some (i, r1) =>
      let '(f, r2) := scan_frac r1 in
      let '(e, r3) := scan_exp r2 in
      Some (sign, i, f ++ e, r3)
  | None => None
  end.

Fixpoint drop (n : nat) (s : string) : string :=
  match n, s with
  | S n', String _ r => drop n' r
  | _, _ => s
  end.

(** [sys.get_int_max_str_digits()], by default. *)
Definition int_max_str_digits : Z := 4300.

(** The [ValueError] of [int] for a literal of [n] digits. *)
Definition digit_limit_error (n : nat) : exn :=
  ValueError ("Exceeds the limit (4300 digits) for integer string conversion: value has "
              ++ NilEmpty.string_of_uint (Nat.to_uint n)
              ++ " digits; use sys.set_int_max_str_digits() to increase the limit").

(** A number without fraction and exponent goes through [int], which refuses
    more digits than the limit; any other number goes through [float]. *)
Definition scan_constant (s : string) : scanned :=
  if starts_with "null" s then Scanned JNull (drop 4 s)
  else if starts_with "true" s then Scanned (JBool true) (drop 4 s)
  else if starts_with "false" s then Scanned (JBool false) (drop 5 s)
  else
    match scan_number s with
    | Some (sign, i, fe, rest) =>
        match fe with
        | EmptyString =>
            if (int_max_str_digits <? Z.of_nat (String.length i))%Z
            then Raised (digit_limit_error (String.length i))
            else Scanned (JNum (sign ++ i)) rest
        | _ => Scanned (JNum (sign ++ i ++ fe)) rest
        end
    | None =>
        if starts_with "NaN" s then Scanned (JNum "NaN") (drop 3 s)
        else if starts_with "Infinity" s then Scanned (JNum "Infinity") (drop 8 s)
        else if starts_with "-Infinity" s then Scanned (JNum "-Infinity") (drop 9 s)
        else Invalid
    end.

(** The members of an object, from the first key on; [dict(pairs)] keeps the
    last value of a repeated key.  [fuel] bounds the number of members. *)
Fixpoint scan_members (value : string -> scanned) (fuel : nat)
  (s : string) (acc : dict json) : scanned :=
  match fuel with
  | O => Invalid
  | S fuel' =>
      match s with
      | String q r =>
          if Ascii.eqb q dquote then
            match scan_string r with
            | Some (key, r1) =>
                match skip_ws r1 with
                | String ":" r2 =>
                    match value (skip_ws r2) with
                    | Scanned v r3 =>
                        let acc' := dict_set key v acc in
                        match skip_ws r3 with
                        | String "}" r4 => Scanned (JObj acc') r4
                        | String "," r4 => scan_members value fuel' (skip_ws r4) acc'
                        | _ => Invalid
                        end
                    | Invalid => Invalid
                    | Raised e => Raised e
                    end
                | _ => Invalid
                end
            | None => Invalid
            end
          else Invalid
      | EmptyString => Invalid
      end
  end.

Fixpoint scan_items (value : string -> scanned) (fuel : nat)
  (s : string) (acc : list json) : scanned :=
  match fuel with
  | O => Invalid
  | S fuel' =>
      match value s with
      | Scanned v r1 =>
          match skip_ws r1 with
          | String "]" r2 => Scanned (JArr (acc ++ [v])) r2
          | String "," r2 => scan_items value fuel' (skip_ws r2) (acc ++ [v])
          | _ => Invalid
          end
      | Invalid => Invalid
      | Raised e => Raised e
      end
  end.

Definition recursion_error (what : string) : exn :=
  OtherError ("RecursionError: maximum recursion depth exceeded while decoding a JSON "
              ++ what ++ " from a unicode string").

(** One value.  [depth] is the number of nested containers the interpreter's
    recursion guard still lets the scanner enter: an opening brace or bracket
    met with none left raises, whatever follows it. *)
Fixpoint scan_value (depth : nat) (s : string) : scanned :=
  match s with
  | String c r =>
      if Ascii.eqb c dquote then
        match scan_string r with
        | Some (w, rest) => Scanned (JStr w) rest
        | None => Invalid
        end
      else if Ascii.eqb c "{" then
        match depth with
        | O => Raised (recursion_error "object")
        | S depth' =>
            match skip_ws r with
            | String "}" rest => Scanned (JObj []) rest
            | r' => scan_members (scan_value depth') (S (String.length r')) r' []
            end
        end
      else if Ascii.eqb c "[" then
        match depth with
        | O => Raised (recursion_error "array")
        | S depth' =>
            match skip_ws r with
            | String "]" rest => Scanned (JArr []) rest
            | r' => scan_items (scan_value depth') (S (String.length r')) r' []
            end
        end
      else scan_constant s
  | EmptyString => Invalid
  end.

(** [json.loads] of an interpreter whose recursion guard lets the scanner
    enter [depth] nested containers. *)
Definition json_loads_within (depth : nat) (s : string) : loads_result :=
  match scan_value depth (skip_ws s) with
  | Scanned v rest =>
      match skip_ws rest with
      | EmptyString => Loaded v
      | _ => JSONDecodeError
      end
  | Invalid => JSONDecodeError
  | Raised e => LoadsRaise e
  end.

(** The nesting the guard allows depends on the interpreter's recursion limit
    and on the call stack at the time of the call: with the default limit of
    1000 frames it is a little under 1000.  The sample deployment allows this
    much. *)
Definition sample_depth : nat := 990.

Definition json_loads_ref (s : string) : loads_result := json_loads_within sample_depth s.

(** ** Completion response extractor: the tail of [ask_llm_for_sql] *)

(** [re.search(r"\{.*\}", text, re.DOTALL)]: here the greedy [.*] does give
    back, down to the last closing brace. *)
Fixpoint upto_last (c : ascii) (s : string) : option string :=
  match s with
  | EmptyString => None
  | String x r =>
      match upto_last c r with
      | Some w => Some (String x w)
      | None => if Ascii.eqb x c then Some (String x EmptyString) else None
      end
  end.

Fixpoint brace_span (s : string) : option string :=
  match s with
  | EmptyString => None
  | String x r =>
      if Ascii.eqb x "{" then
        match upto_last "}" r with
        | Some w => Some (String x w)
        | None => brace_span r
        end
      else brace_span r
  end.

Definition json_is_str (v : json) (s : string) : bool :=
  match v with
  | JStr w => String.eqb w s
  | _ => false
  end.

(** ["sql" in obj] for whatever the decoder returned. *)
Definition py_in_sql (obj : json) : result bool :=
  match obj with
  | JObj d => Ok (dict_has "sql" d)
  | JArr l => Ok (existsb (fun v => json_is_str v "sql") l)
  | JStr s => Ok (contains "sql" s)
  | JNum _ => Raise (TypeError "argument of type 'int' is not iterable")
  | JBool _ => Raise (TypeError "argument of type 'bool' is not iterable")
  | JNull => Raise (TypeError "argument of type 'NoneType' is not iterable")
  end.

(** [obj["sql"]]. *)
Definition py_getitem_sql (obj : json) : result json :=
  match obj with
  | JObj d =>
      match dict_get "sql" d with
      | Some v => Ok v
      | None => Raise (KeyError "'sql'")
      end
  | JArr _ => Raise (TypeError "list indices must be integers or slices, not str")
  | JStr _ => Raise (TypeError "string indices must be integers")
  | _ => Raise (TypeError "object is not subscriptable")
  end.

Inductive parse_outcome : Type :=
| SqlFound (v : json)
| NoSqlKey
| DecodeError
| OtherFailure (e : exn).

(** The body of one [try]: [obj = json.loads(t)], then the [if "sql" in obj].
    Only [json.JSONDecodeError] is caught by the [except] that follows. *)
Definition parse_sql (json_loads : string -> loads_result) (t : string) : parse_outcome :=
  match json_loads t with
  | JSONDecodeError => DecodeError
  | LoadsRaise e => OtherFailure e
  | Loaded obj =>
      match py_in_sql obj with
      | Raise e => OtherFailure e
      | Ok false => NoSqlKey
      | Ok true =>
          match py_getitem_sql obj with
          | Ok v => SqlFound v
          | Raise e => OtherFailure e
          end
      end
  end.

Definition newline : string := String (ascii_of_nat 10) EmptyString.

(** From [text = response.content.strip()] to the [return] or the [raise];
    the returned dict has the one key [sql], so its value stands for it. *)
Definition extract_sql (json_loads : string -> loads_result) (error_prefix : string)
  (text : string) : result json :=
  let invalid := Raise (ValueError (error_prefix ++ newline ++ text)) in
  match parse_sql json_loads text with
  | SqlFound v => Ok v
  | OtherFailure e => Raise e
  | NoSqlKey => invalid
  | DecodeError =>
      match brace_span text with
      | Some json_sub =>
          match parse_sql json_loads json_sub with
          | SqlFound v => Ok v
          | OtherFailure e => Raise e
          | NoSqlKey | DecodeError => invalid
          end
      | None => invalid
      end
  end.

(** ** External services *)

(** One column and one table of [kdmp-tables.json]; a field the document may
    lack is an [option]. *)
Record column_meta : Type := {
  c_name : option string;
  c_type : option string;
  c_description : option string
}.

Record table_meta : Type := {
  t_description : option string;
  t_columns : list column_meta
}.

(** What [os.path.exists], [open] and [json.load] give for the metadata file:
    it is absent, reading it raises, or it holds the [tables] mapping. *)
Inductive metadata_file : Type :=
| FileMissing
| FileUnreadable
| FileLoaded (tables : dict table_meta).

Inductive llm_request : Type :=
| PlainPrompt (question : string) (schema : schema_summary)
| FeedbackPrompt (question : string) (error_feedback : option string)
    (schema : schema_summary).

Record services : Type := {
  MAX_ROWS : Z;
  SAMPLE_ROWS : Z;
  search_relevant_tables : string -> list string;
  kdmp_tables : metadata_file;
  (* the relational engine *)
  db_list_tables : result (list string);
  db_reconnect : result unit;
  db_list_columns : string -> result (list (string * string));
  fetch_sample_rows : string -> Z -> result (list string * list (list pyval));
  db_execute : string -> result (list string * list (list pyval));
  (* the completion service: the number of the call, then the prompt *)
  llm_invoke : nat -> llm_request -> result string;
  json_loads : string -> loads_result;
  summarize_for_minister : string -> list row -> result string
}.

(** ** Execution: [db/connection.py] *)

Record query_result : Type := {
  qr_columns : list string;
  qr_rows : list row
}.

(** [dict(zip(columns, r))]. *)
Definition row_of (columns : list string) (r : list pyval) : row :=
  dict_of_pairs (combine columns r).

Definition execute_read_query (W : services) (sql : string) (max_rows : Z)
  : result query_result :=
  match db_execute W sql with
  | Raise e => Raise e
  | Ok (columns, fetched) =>
      Ok {| qr_columns := columns;
            qr_rows := map (row_of columns) (slice_to max_rows fetched) |}
  end.

(** ** Schema context builder *)

Definition or_empty (o : option string) : string :=
  match o with
  | Some s => s
  | None => EmptyString
  end.

(** [f"{c['name']} ({c['type']}): {c.get('description', '')}"]. *)
Definition describe_column (c : column_meta) : result string :=
  match c_name c, c_type c with
  | Some n, Some t => Ok (n ++ " (" ++ t ++ "): " ++ or_empty (c_description c))
  | None, _ => Raise (KeyError "'name'")
  | _, None => Raise (KeyError "'type'")
  end.

Fixpoint describe_columns (cols : list column_meta) : result (list string) :=
  match cols with
  | [] => Ok []
  | c :: rest =>
      rbind (describe_column c) (fun d =>
      rbind (describe_columns rest) (fun ds => Ok (d :: ds)))
  end.

Definition serialize_row (r : row) : row :=
  map (fun kv => (fst kv, safe_serialize (snd kv))) r.

(** [fetch_sample_rows] of [db/connection.py] zips the rows it fetched; the
    caller keeps [samples[:SAMPLE_ROWS]], serialized. *)
Definition safe_samples_of (W : services) (fetched : list string * list (list pyval))
  : list row :=
  map serialize_row
      (slice_to (SAMPLE_ROWS W) (map (row_of (fst fetched)) (snd fetched))).

Definition fetch_samples (W : services) (table_name : string) : result (list row) :=
  match fetch_sample_rows W table_name (SAMPLE_ROWS W) with
  | Ok (cols, rows) => Ok (safe_samples_of W (cols, rows))
  | Raise e => Raise e
  end.

(** The [for table_name in tables_to_process] loop of the JSON path. *)
Fixpoint summarize_tables (W : services) (tables : dict table_meta)
  (tables_to_process : list string) : result schema_summary :=
  match tables_to_process with
  | [] => Ok []
  | table_name :: rest =>
      match dict_get table_name tables with
      | None => summarize_tables W tables rest
      | Some meta =>
          rbind (describe_columns (t_columns meta)) (fun col_desc =>
          let safe_samples :=
            match fetch_samples W table_name with
            | Ok rows => rows
            | Raise _ => []
            end in
          rbind (summarize_tables W tables rest) (fun summary =>
          Ok ({| table := table_name;
                 description := Some (or_empty (t_description meta));
                 columns := col_desc;
                 sample_rows := safe_samples |} :: summary)))
      end
  end.

(** [relevant_tables if relevant_tables else all_names]. *)
Definition tables_to_process_of (relevant_tables : option (list string))
  (all_names : list string) : list string :=
  match relevant_tables with
  | Some (t :: ts) => t :: ts
  | Some [] | None => all_names
  end.

Definition describe_db_table (W : services) (t : string) : result table_info :=
  rbind (db_list_columns W t) (fun cols =>
  rbind (fetch_samples W t) (fun safe_samples =>
  Ok {| table := t;
        description := None;
        columns := map (fun c => fst c ++ " (" ++ snd c ++ ")") cols;
        sample_rows := safe_samples |})).

Fixpoint describe_db_tables (W : services) (ts : list string) : schema_summary :=
  match ts with
  | [] => []
  | t :: rest =>
      match describe_db_table W t with
      | Ok info => info :: describe_db_tables W rest
      | Raise _ => describe_db_tables W rest
      end
  end.

Definition _build_schema_from_db (W : services) (relevant_tables : option (list string))
  : result schema_summary :=
  rbind (db_list_tables W) (fun all_tables =>
  let tables_to_process :=
    filter (fun t => str_mem t all_tables)
           (tables_to_process_of relevant_tables all_tables) in
  rbind (db_reconnect W) (fun _ =>
  Ok (describe_db_tables W tables_to_process))).

Definition build_schema_summary (W : services) (relevant_tables : option (list string))
  : result schema_summary :=
  match kdmp_tables W with
  | FileLoaded tables =>
      match summarize_tables W tables
              (tables_to_process_of relevant_tables (dict_keys tables)) with
      | Ok summary => Ok summary
      | Raise _ => _build_schema_from_db W relevant_tables
      end
  | FileUnreadable | FileMissing => _build_schema_from_db W relevant_tables
  end.

(** ** Generation *)

Definition invalid_json_prefix : string := "Invalid JSON response from LLM:".
Definition invalid_json_retry_prefix : string := "Invalid JSON response from LLM on retry:".

(** [ask_llm_for_sql]: the value under [sql] of the returned dict. *)
Definition ask_llm_for_sql (W : services) (call : nat) (question : string) : result json :=
  let relevant_tables := search_relevant_tables W question in
  rbind (build_schema_summary W (Some relevant_tables)) (fun schema =>
  rbind (llm_invoke W call (PlainPrompt question schema)) (fun content =>
  extract_sql (json_loads W) invalid_json_prefix (strip content))).

Definition ask_llm_for_sql_with_feedback (W : services) (call : nat) (question : string)
  (error_feedback : option string) (schema : schema_summary) : result json :=
  rbind (llm_invoke W call (FeedbackPrompt question error_feedback schema)) (fun content =>
  extract_sql (json_loads W) invalid_json_retry_prefix (strip content)).

(** [result["sql"].strip()], then the trailing semicolon is dropped. *)
Definition candidate_of (v : json) : result string :=
  match v with
  | JStr s => Ok (drop_last_semicolon (strip s))
  | _ => Raise (AttributeError "object has no attribute 'strip'")
  end.

Definition fallback_sql : string := "SELECT 'Gagal generate SQL yang valid'::text as error".

Definition safety_feedback : string :=
  "SQL harus dimulai dengan SELECT dan tidak boleh mengandung operasi modifikasi data".

Definition schema_feedback (invalid_name : option string) : string :=
  "Nama tabel/kolom '" ++ match invalid_name with Some n => n | None => "None" end
  ++ "' tidak ditemukan dalam schema. Gunakan hanya nama yang ada di kdmp-tables.json".

(** What one pass of the loop body ends in. *)
Inductive attempt_outcome : Type :=
| Accepted (sql : string)
| Retry (last_error : string).

(** The generation step of one pass, down to [sql = sql[:-1]]. *)
Definition generate (W : services) (question : string) (schema : schema_summary)
  (attempt : nat) (last_error : option string) : result string :=
  rbind (if Nat.eqb attempt 0 then ask_llm_for_sql W attempt question
         else ask_llm_for_sql_with_feedback W attempt question last_error schema)
        candidate_of.

Definition attempt_once (W : services) (question : string) (schema : schema_summary)
  (attempt : nat) (last_error : option string) : attempt_outcome :=
  match generate W question schema attempt last_error with
  | Raise e => Retry ("Error dalam generate SQL: " ++ exn_msg e)
  | Ok sql =>
      if negb (validate_sql sql) then Retry safety_feedback
      else
        match enforce_schema_strictly sql schema with
        | (false, invalid_name) => Retry (schema_feedback invalid_name)
        | (true, _) => Accepted sql
        end
  end.

(** [for attempt in range(max_retries + 1)], with the statement returned and
    the number of generation calls made. *)
Fixpoint retry_loop (W : services) (question : string) (schema : schema_summary)
  (remaining attempt : nat) (last_error : option string) : string * nat :=
  match remaining with
  | O => (fallback_sql, attempt)
  | S remaining' =>
      match attempt_once W question schema attempt last_error with
      | Accepted sql => (sql, S attempt)
      | Retry e => retry_loop W question schema remaining' (S attempt) (Some e)
      end
  end.

Definition ask_llm_for_sql_with_retry (W : services) (question : string) (max_retries : Z)
  : result (string * nat) :=
  rbind (build_schema_summary W None) (fun schema =>
  Ok (retry_loop W question schema (Z.to_nat (max_retries + 1)) 0 None)).

(** ** Main query pipeline *)

Inductive response : Type :=
| ErrorResponse (error : string) (generated_sql : string)
    (suggestion details : option string)
| SuccessResponse (text : string) (payload_columns : list string)
    (payload_rows : list (list pyval)) (row_count : nat) (generated_sql : string).

Definition run_query_pipeline (W : services) (question : string) : result response :=
  let relevant_tables := search_relevant_tables W question in
  rbind (ask_llm_for_sql W 0 question) (fun llm_resp =>
  rbind (candidate_of llm_resp) (fun raw_sql =>
  if contains "Gagal generate SQL yang valid" raw_sql
     || contains "Data tidak tersedia" raw_sql
  then Ok (ErrorResponse "Tidak dapat membuat query yang valid untuk pertanyaan ini"
             raw_sql
             (Some "Coba perbaiki pertanyaan atau pastikan data yang dicari tersedia dalam sistem")
             None)
  else
  rbind (build_schema_summary W (Some relevant_tables)) (fun schema =>
  if negb (validate_sql raw_sql)
  then Ok (ErrorResponse "Generated SQL failed final validation." raw_sql None None)
  else
    match enforce_schema_strictly raw_sql schema with
    | (false, invalid_name) =>
        Ok (ErrorResponse
              ("Query uses invalid column or table: "
               ++ match invalid_name with Some n => n | None => "None" end)
              raw_sql None None)
    | (true, _) =>
        match execute_read_query W raw_sql (MAX_ROWS W) with
        | Raise e =>
            Ok (ErrorResponse "Query execution failed" raw_sql None (Some (exn_msg e)))
        | Ok result =>
            let rows := map serialize_row (qr_rows result) in
            rbind (summarize_for_minister W question (slice_to 5 rows)) (fun summary =>
            Ok (SuccessResponse summary (qr_columns result)
                  (map (@dict_values pyval) rows) (List.length rows) raw_sql))
        end
    end))).

(** ** Specification-side notions used in the statements below *)

Definition chars (s : string) : list ascii := list_ascii_of_string s.

Definition all_space (s : string) : Prop :=
  forall c, In c (chars s) -> is_space c = true.

Definition no_char (x : ascii) (s : string) : Prop := ~ In x (chars s).

Fixpoint last_char (s : string) : option ascii :=
  match s with
  | EmptyString => None
  | String c EmptyString => Some c
  | String _ r => last_char r
  end.

(** The statement, after leading whitespace, begins with SELECT in any case. *)
Definition begins_with_select (sql : string) : Prop :=
  exists ws w rest, sql = ws ++ w ++ rest /\ all_space ws /\ lower w = "select".

(** The same, with a whitespace character right after the keyword. *)
Definition begins_with_select_space (sql : string) : Prop :=
  exists ws w c rest,
    sql = ws ++ w ++ String c rest /\ all_space ws /\ lower w = "select"
    /\ is_space c = true.

Definition occurs (needle sql : string) : Prop :=
  exists pre post, sql = pre ++ needle ++ post.

(** [kw] occurs in any letter case, with no word character on either side. *)
Definition occurs_as_word_ci (kw sql : string) : Prop :=
  exists pre w post,
    sql = pre ++ w ++ post /\ lower w = lower kw
    /\ word_opt (last_char pre) = false /\ word_opt (head_char post) = false.

Definition no_forbidden_construct (sql : string) : Prop :=
  ~ occurs ";" sql /\ ~ occurs "--" sql
  /\ forall kw, In kw forbidden_keywords -> ~ occurs_as_word_ci kw sql.

(** Some column of some table of the context has exactly this name. *)
Definition exact_column (schema : schema_summary) (q : string) : Prop :=
  exists t col, In t schema /\ In col (columns t) /\ col_name col = q.

Definition quoted_report (q : string) : option string :=
  Some ("quoted_column:" ++ dq ++ q ++ dq).


(** The reported names agree up to letter case. *)
Definition same_report (r r' : option string) : Prop :=
  match r, r' with
  | None, None => True
  | Some a, Some b => lower a = lower b
  | _, _ => False
  end.

(** The table names of the metadata source that answers the request. *)
Definition db_names (W : services) : list string :=
  match db_list_tables W with
  | Ok all_tables => all_tables
  | Raise _ => []
  end.

Definition metadata_names (W : services) (relevant_tables : option (list string))
  : list string :=
  match kdmp_tables W with
  | FileLoaded tables =>
      match summarize_tables W tables
              (tables_to_process_of relevant_tables (dict_keys tables)) with
      | Ok _ => dict_keys tables
      | Raise _ => db_names W
      end
  | FileUnreadable | FileMissing => db_names W
  end.

Definition well_formed_column (c : column_meta) : Prop :=
  c_name c <> None /\ c_type c <> None.

Definition well_formed_tables (tables : dict table_meta) : Prop :=
  forall n meta c, In (n, meta) tables -> In c (t_columns meta) -> well_formed_column c.







(** ** Sample inputs *)

Definition column (n t : string) : column_meta :=
  {| c_name := Some n; c_type := Some t; c_description := None |}.

Definition cooperatives_meta : table_meta :=
  {| t_description := Some "Data koperasi";
     t_columns := [column "id" "bigint"; column "name" "varchar";
                   column "villageId" "bigint"] |}.

Definition provinces_meta : table_meta :=
  {| t_description := None;
     t_columns := [column "province_id" "bigint"; column "name" "varchar"] |}.

(** A deployment whose completion service always answers [completion]. *)
Definition sample_services (completion : string) : services :=
  {| MAX_ROWS := 5000;
     SAMPLE_ROWS := 2;
     search_relevant_tables := fun _ => ["cooperatives"; "users"];
     kdmp_tables := FileLoaded [("cooperatives", cooperatives_meta);
                                ("provinces", provinces_meta)];
     db_list_tables := Ok ["cooperatives"; "provinces"];
     db_reconnect := Ok tt;
     db_list_columns := fun _ => Ok [("id", "bigint")];
     fetch_sample_rows := fun _ _ => Ok (["id"; "name"], [[PyInt 1; PyStr "Maju"]]);
     db_execute := fun _ => Ok (["id"; "name"],
                                [[PyInt 1; PyStr "Maju"]; [PyInt 2; PyStr "Jaya"];
                                 [PyInt 3; PyStr "Makmur"]]);
     llm_invoke := fun _ _ => Ok completion;
     json_loads := json_loads_ref;
     summarize_for_minister := fun _ _ => Ok "Terdapat tiga koperasi." |}.

Definition sample_schema : schema_summary :=
  [ {| table := "cooperatives"; description := None;
       columns := ["id (bigint): "; "name (varchar): "; "villageId (bigint): "];
       sample_rows := [] |} ].

(** The completion [{"sql": <value>}] for a quoted string, or for a bare token. *)
Definition sql_completion (sql : string) : string :=
  "{" ++ dq ++ "sql" ++ dq ++ ": " ++ dq ++ sql ++ dq ++ "}".

Definition sql_completion_raw (token : string) : string :=
  "{" ++ dq ++ "sql" ++ dq ++ ": " ++ token ++ "}".

Definition quoted (name : string) : string := dq ++ name ++ dq.

(** ** Three properties as the specification states them *)

Definition claimed_quoted_rejection (schema : schema_summary) (sql q : string) : Prop :=
  In q (quoted_identifiers sql) -> ~ exact_column schema q ->
  enforce_schema_strictly sql schema = (false, quoted_report q).

Definition claimed_safety_gate (sql : string) : Prop :=
  validate_sql sql = true <-> (begins_with_select sql /\ no_forbidden_construct sql).


Definition two_bad_quoted : string :=
  "SELECT " ++ quoted "Name" ++ ", " ++ quoted "Foo" ++ " FROM cooperatives".

(** ** Letter case and the patterns *)

Definition all_ascii : list ascii := map ascii_of_nat (seq 0 256).

(** A character class that cannot tell two case variants apart. *)
Definition case_blind (p : ascii -> bool) : Prop :=
  forall c c', lower_char c = lower_char c' -> p c = p c'.

Definition case_blindb (p : ascii -> bool) : bool :=
  forallb (fun c =>
    forallb (fun c' =>
      implb (Ascii.eqb (lower_char c) (lower_char c')) (Bool.eqb (p c) (p c')))
      all_ascii) all_ascii.

Definition ci_opt (p p' : option ascii) : Prop :=
  match p, p' with
  | Some c, Some c' => lower_char c = lower_char c'
  | None, None => True
  | _, _ => False
  end.

Definition ci_cursor (cur cur' : cursor) : Prop :=
  ci_opt (fst cur) (fst cur') /\ lower (snd cur) = lower (snd cur').

Definition ci_char_eq (c c' : ascii) : Prop := lower_char c = lower_char c'.
Definition ci_str (s s' : string) : Prop := lower s = lower s'.

(** Two matchers that, on cursors equal up to letter case, match together and
    give related captures. *)
Definition related {A} (R : A -> A -> Prop) (m m' : matcher A) : Prop :=
  forall cur cur', ci_cursor cur cur' ->
    match m cur, m' cur' with
    | Some (a, c), Some (a', c') => R a a' /\ ci_cursor c c'
    | None, None => True
    | _, _ => False
    end.

(** The character before the position reached after reading [w]. *)
Definition prev_after (pv : option ascii) (w : string) : option ascii :=
  match last_char w with
  | Some c => Some c
  | None => pv
  end.

(** [w'] is [w] read through the character comparison [eq]. *)
Fixpoint reads (eq : ascii -> ascii -> bool) (w w' : string) : Prop :=
  match w, w' with
  | EmptyString, EmptyString => True
  | String x r, String c r' => eq x c = true /\ reads eq r r'
  | _, _ => False
  end.

Definition matches {A} (m : matcher A) (cur : cursor) : Prop := m cur <> None.

(** A matcher that never lengthens the rest of the text, and one that always
    shortens it. *)
Definition keeps {A} (m : matcher A) : Prop :=
  forall cur a cur', m cur = Some (a, cur') ->
    String.length (snd cur') <= String.length (snd cur).

Definition consumes {A} (m : matcher A) : Prop :=
  forall cur a cur', m cur = Some (a, cur') ->
    String.length (snd cur') < String.length (snd cur).

(** A completion with prose around the JSON object. *)
Fixpoint digits_of_ones (n : nat) : string :=
  match n with
  | O => EmptyString
  | S n' => String "1" (digits_of_ones n')
  end.



(** A non-empty run of word characters. *)
Definition word_string (kw : string) : Prop :=
  kw <> EmptyString /\ forall c, In c (chars kw) -> is_word c = true.

(** ** Table selection: [extract_table_names], [get_fallback_tables],
    [search_relevant_tables] *)

Definition common_tables : list string :=
  ["cooperatives"; "provinces"; "districts"; "subdistricts"; "villages"; "users";
   "cooperative_types"; "klus"; "npaks"; "institutions"; "news"; "village_potentials"].

Definition geographical_tables : list string :=
  ["provinces"; "districts"; "subdistricts"; "villages"; "village_potentials"].

(** [for geo_table in extra: if geo_table not in found: found.append(geo_table)]. *)
Fixpoint append_missing (extra found : list string) : list string :=
  match extra with
  | [] => found
  | geo_table :: rest =>
      append_missing rest
        (if str_mem geo_table found then found else found ++ [geo_table])
  end.

Definition extract_table_names (response_content : string) : list string :=
  let response_lower := lower response_content in
  let found_tables := filter (fun t => contains t response_lower) common_tables in
  if existsb (fun geo_table => str_mem geo_table found_tables)
       ["villages"; "village_potentials"]
  then append_missing geographical_tables found_tables
  else found_tables.

(** [any(word in text for word in words)]. *)
Definition any_in (words : list string) (text : string) : bool :=
  existsb (fun word => contains word text) words.

Definition get_fallback_tables (question : string) : list string :=
  let question_lower := lower question in
  if any_in ["koperasi"; "cooperative"; "berapa koperasi"; "jumlah koperasi"] question_lower
  then ["cooperatives"; "provinces"]
  else if any_in ["provinsi"; "daerah"; "wilayah"] question_lower
  then ["provinces"; "districts"; "cooperatives"]
  else if any_in ["user"; "pengguna"; "anggota"] question_lower
  then ["users"; "user_roles"]
  else if any_in ["berita"; "news"] question_lower
  then ["news"]
  else ["cooperatives"; "provinces"; "users"].

(** The assistant service behind [openai_client]: each call either returns or
    raises; [runs_retrieve n] is the status the [n]-th poll reads, and
    [first_message_text] is [messages.data[0].content[0].text.value]. *)
Record assistant_api : Type := {
  SCHEMA_ASSISTANT_ID : string;
  threads_create : result unit;
  messages_create : string -> result unit;
  runs_create : result string;
  runs_retrieve : nat -> result string;
  first_message_text : result string
}.

Definition is_pending (status : string) : bool :=
  String.eqb status "queued" || String.eqb status "in_progress".

(** [while run.status in ['queued', 'in_progress']]: at most [fuel] polls are
    followed; [None] when the run is still pending after them. *)
Fixpoint poll_run (A : assistant_api) (fuel n : nat) (status : string) {struct fuel}
  : option (result string) :=
  if is_pending status then
    match fuel with
    | O => None
    | S fuel' =>
        match runs_retrieve A n with
        | Ok status' => poll_run A fuel' (S n) status'
        | Raise e => Some (Raise e)
        end
    end
  else Some (Ok status).

(** The body of the [try] of [search_relevant_tables]. *)
Definition vector_store_lookup (A : assistant_api) (question : string) (max_tables : Z)
  (fuel : nat) : option (result (list string)) :=
  match threads_create A with
  | Raise e => Some (Raise e)
  | Ok _ =>
      match messages_create A question with
      | Raise e => Some (Raise e)
      | Ok _ =>
          if String.eqb (SCHEMA_ASSISTANT_ID A) EmptyString
          then Some (Raise (ValueError "SCHEMA_ASSISTANT_ID environment variable is required"))
          else
            match runs_create A with
            | Raise e => Some (Raise e)
            | Ok status0 =>
                match poll_run A fuel 0 status0 with
                | None => None
                | Some (Raise e) => Some (Raise e)
                | Some (Ok status) =>
                    if String.eqb status "completed" then
                      match first_message_text A with
                      | Raise e => Some (Raise e)
                      | Ok response_content =>
                          Some (Ok (slice_to max_tables
                                      (extract_table_names response_content)))
                      end
                    else Some (Ok (get_fallback_tables question))
                end
            end
      end
  end.

(** [search_relevant_tables], as a function of the assistant service. *)
Definition search_relevant_tables_via (A : assistant_api) (question : string)
  (max_tables : Z) (fuel : nat) : option (list string) :=
  match vector_store_lookup A question max_tables fuel with
  | None => None
  | Some (Ok tables) => Some tables
  | Some (Raise _) => Some (get_fallback_tables question)
  end.

(** ** Notions used in the further properties *)

(** The status the run shows after [polls] polls: [run.status] as
    [runs.create] returned it, then what each [runs.retrieve] reads. *)
Definition status_after (A : assistant_api) (polls : nat) : result string :=
  match polls with
  | O => runs_create A
  | S n => runs_retrieve A n
  end.

(** The run is queued or in progress through [polls] readings of its status,
    and the next reading is [r]: an exception, or a status that ends the
    wait. *)
Definition settles (A : assistant_api) (polls : nat) (r : result string) : Prop :=
  (forall i, i < polls -> exists s, status_after A i = Ok s /\ is_pending s = true)
  /\ status_after A polls = r
  /\ (forall s, r = Ok s -> is_pending s = false).

(** The ways the assistant service can fail a lookup: no assistant id, a
    raising thread or message creation, a run creation or a poll that raises,
    a run that ends in a status other than completed, a completed run whose
    messages cannot be read. *)
Definition assistant_fails (A : assistant_api) (question : string) (polls : nat) : Prop :=
  SCHEMA_ASSISTANT_ID A = EmptyString
  \/ (exists e, threads_create A = Raise e)
  \/ (exists e, messages_create A question = Raise e)
  \/ (exists e, settles A polls (Raise e))
  \/ (exists status, settles A polls (Ok status)
                     /\ String.eqb status "completed" = false)
  \/ (settles A polls (Ok "completed") /\ exists e, first_message_text A = Raise e).

(** An assistant whose run is queued, still in progress at the first poll and
    failed at the second. *)
Definition failing_assistant : assistant_api :=
  {| SCHEMA_ASSISTANT_ID := "asst_schema";
     threads_create := Ok tt;
     messages_create := fun _ => Ok tt;
     runs_create := Ok "queued";
     runs_retrieve := fun n => Ok (if Nat.leb 1 n then "failed" else "in_progress");
     first_message_text := Ok "cooperatives" |}.

(** The answer mentions one of the two village tables. *)
Definition geo_triggered (response_content : string) : Prop :=
  contains "villages" (lower response_content) = true
  \/ contains "village_potentials" (lower response_content) = true.

(** No name occurs twice. *)
Fixpoint distinctb (l : list string) : bool :=
  match l with
  | [] => true
  | x :: r => negb (str_mem x r) && distinctb r
  end.


(** Every table descriptor of the first context is in the second. *)
Definition schema_incl (schema schema' : schema_summary) : Prop :=
  forall t, In t schema -> In t schema'.

(** What the unquoted-identifier loop lets through. *)
Definition bare_allowed (schema : schema_summary) (sql identifier : string) : Prop :=
  let l := lower identifier in
  In l sql_keywords \/ In l sql_functions
  \/ In l (extract_table_aliases sql (valid_tables schema))
  \/ In l (valid_tables schema) \/ In l (valid_columns schema).

Definition known_table (schema : schema_summary) (t : string) : Prop :=
  In (lower t) (valid_tables schema).

Definition table_operands (sql : string) : list string :=
  (findall (table_pattern "FROM") sql ++ findall (table_pattern "JOIN") sql)%list.

(** A value as the serializer leaves it. *)
Definition serialized (v : pyval) : Prop :=
  (exists s, v = PyStr s) \/ (exists r, v = PyFloat r).

Definition generated_sql_of (r : response) : string :=
  match r with
  | ErrorResponse _ sql _ _ => sql
  | SuccessResponse _ _ _ _ sql => sql
  end.

(** The responses given after the statement went to the engine. *)
Definition after_execution (r : response) : Prop :=
  match r with
  | SuccessResponse _ _ _ _ _ => True
  | ErrorResponse error _ _ _ => error = "Query execution failed"
  end.

(** A column name that its descriptor hands back unchanged. *)
Definition plain_name (n : string) : Prop :=
  no_char " " n /\ no_char "(" n.

Definition plain_tables (tables : dict table_meta) : Prop :=
  forall n meta c name,
    In (n, meta) tables -> In c (t_columns meta) -> c_name c = Some name -> plain_name name.

(** An assistant whose run completes after two polls with the given answer. *)
Definition sample_assistant (answer : string) : assistant_api :=
  {| SCHEMA_ASSISTANT_ID := "asst_schema";
     threads_create := Ok tt;
     messages_create := fun _ => Ok tt;
     runs_create := Ok "queued";
     runs_retrieve := fun n => Ok (if Nat.leb 1 n then "completed" else "in_progress");
     first_message_text := Ok answer |}.

(** The statement carries one of the two texts the pipeline takes for a
    failed generation. *)
Definition is_error_reply (raw_sql : string) : bool :=
  contains "Gagal generate SQL yang valid" raw_sql
  || contains "Data tidak tersedia" raw_sql.

(** The rows of a result as the pipeline shapes them. *)
Definition shaped_rows (columns : list string) (fetched : list (list pyval)) (cap : Z)
  : list row :=
  map serialize_row (map (row_of columns) (slice_to cap fetched)).

(** How far a run of the pipeline that returns got, and with what. *)
Inductive pipeline_stage (W : services) (question raw_sql : string) : response -> Prop :=
| stage_error_reply :
    is_error_reply raw_sql = true ->
    pipeline_stage W question raw_sql
      (ErrorResponse "Tidak dapat membuat query yang valid untuk pertanyaan ini" raw_sql
         (Some "Coba perbaiki pertanyaan atau pastikan data yang dicari tersedia dalam sistem")
         None)
| stage_unsafe schema :
    is_error_reply raw_sql = false ->
    build_schema_summary W (Some (search_relevant_tables W question)) = Ok schema ->
    validate_sql raw_sql = false ->
    pipeline_stage W question raw_sql
      (ErrorResponse "Generated SQL failed final validation." raw_sql None None)
| stage_unknown_name schema name :
    is_error_reply raw_sql = false ->
    build_schema_summary W (Some (search_relevant_tables W question)) = Ok schema ->
    validate_sql raw_sql = true ->
    enforce_schema_strictly raw_sql schema = (false, Some name) ->
    pipeline_stage W question raw_sql
      (ErrorResponse ("Query uses invalid column or table: " ++ name) raw_sql None None)
| stage_execution_failed schema e :
    is_error_reply raw_sql = false ->
    build_schema_summary W (Some (search_relevant_tables W question)) = Ok schema ->
    validate_sql raw_sql = true ->
    enforce_schema_strictly raw_sql schema = (true, None) ->
    db_execute W raw_sql = Raise e ->
    pipeline_stage W question raw_sql
      (ErrorResponse "Query execution failed" raw_sql None (Some (exn_msg e)))
| stage_success schema columns fetched text :
    is_error_reply raw_sql = false ->
    build_schema_summary W (Some (search_relevant_tables W question)) = Ok schema ->
    validate_sql raw_sql = true ->
    enforce_schema_strictly raw_sql schema = (true, None) ->
    db_execute W raw_sql = Ok (columns, fetched) ->
    summarize_for_minister W question
      (slice_to 5 (shaped_rows columns fetched (MAX_ROWS W))) = Ok text ->
    pipeline_stage W question raw_sql
      (SuccessResponse text columns
         (map (@dict_values pyval) (shaped_rows columns fetched (MAX_ROWS W)))
         (List.length (shaped_rows columns fetched (MAX_ROWS W))) raw_sql).

(** The descriptor the JSON path builds for one table of the file. *)
Definition json_descriptor (W : services) (table_name : string) (meta : table_meta)
  (col_desc : list string) : table_info :=
  {| table := table_name;
     description := Some (or_empty (t_description meta));
     columns := col_desc;
     sample_rows := match fetch_samples W table_name with
                    | Ok rows => rows
                    | Raise _ => []
                    end |}.

(** A requested table of the file has a column without a name or a type. *)
Definition malformed_request (tables : dict table_meta) (tables_to_process : list string)
  : Prop :=
  exists t meta c,
    In t tables_to_process /\ dict_get t tables = Some meta
    /\ In c (t_columns meta) /\ ~ well_formed_column c.

(** A deployment whose metadata file has a column without a name. *)
Definition malformed_services : services :=
  {| MAX_ROWS := 5000;
     SAMPLE_ROWS := 2;
     search_relevant_tables := fun _ => ["users"];
     kdmp_tables :=
       FileLoaded [("users", {| t_description := None;
                                t_columns := [{| c_name := None; c_type := Some "text";
                                                 c_description := None |}] |})];
     db_list_tables := Ok ["users"];
     db_reconnect := Ok tt;
     db_list_columns := fun _ => Ok [("email", "text")];
     fetch_sample_rows := fun _ _ => Raise (OtherError "connection refused");
     db_execute := fun _ => Raise (OtherError "connection refused");
     llm_invoke := fun _ _ => Raise (OtherError "timeout");
     json_loads := json_loads_ref;
     summarize_for_minister := fun _ _ => Ok EmptyString |}.

(** The column names a table of the file declares. *)
Definition declared_column (tables : dict table_meta) (t q : string) : Prop :=
  exists meta c,
    dict_get t tables = Some meta /\ In c (t_columns meta) /\ c_name c = Some q.

(** * Proofs *)

(** ** Serializer *)

Lemma safe_serialize_temporal iso :
  safe_serialize (PyDatetime iso) = PyStr iso /\ safe_serialize (PyDate iso) = PyStr iso.
Proof. split; reflexivity. Qed.

Lemma safe_serialize_decimal f : safe_serialize (PyDecimal f) = PyFloat f.
Proof. reflexivity. Qed.

Lemma safe_serialize_str s : safe_serialize (PyStr s) = PyStr s.
Proof. reflexivity. Qed.

(** C6.  The serializer does not leave JSON-native scalars alone: an integer,
    a float, a boolean and [None] all reach the final [str(obj)] and come back
    as strings, so a row [{total: 42}] is shaped into [{total: '42'}].  Only
    a string comes back unchanged (see [safe_serialize_str]); temporal and
    decimal values are converted as documented. *)
Theorem safe_serialize_stringifies_native :
  safe_serialize (PyInt 42) = PyStr "42"
  /\ safe_serialize PyNone = PyStr "None"
  /\ safe_serialize (PyBool true) = PyStr "True"
  /\ (forall r, safe_serialize (PyFloat r) = PyStr r)
  /\ serialize_row [("total", PyInt 42)] = [("total", PyStr "42")].
Proof. repeat split. Qed.

(** ** Execution *)

Lemma dict_set_fresh {V} k (v : V) d :
  ~ In k (dict_keys d) -> dict_set k v d = (d ++ [(k, v)])%list.
Proof.
  induction d as [|[k' v'] d IH]; simpl; intros Hk; [reflexivity|].
  destruct (String.eqb_spec k k') as [->|Hne].
  - exfalso. apply Hk. now left.
  - f_equal. apply IH. intros Hin. apply Hk. now right.
Qed.

Lemma dict_of_pairs_acc {V} (ps acc : list (string * V)) :
  NoDup (map fst (acc ++ ps)%list) ->
  fold_left (fun d kv => dict_set (fst kv) (snd kv) d) ps acc = (acc ++ ps)%list.
Proof.
  revert acc. induction ps as [|[k v] ps IH]; intros acc Hnd; simpl.
  - now rewrite app_nil_r.
  - rewrite dict_set_fresh.
    + rewrite IH; rewrite <- app_assoc; [reflexivity | exact Hnd].
    + rewrite map_app in Hnd. simpl in Hnd.
      apply NoDup_remove_2 in Hnd. intros Hin. apply Hnd.
      apply in_or_app. now left.
Qed.

Lemma row_of_aligned cols (r : list pyval) :
  NoDup cols -> List.length r = List.length cols ->
  dict_keys (row_of cols r) = cols /\ dict_values (row_of cols r) = r.
Proof.
  intros Hnd Hlen. unfold row_of, dict_of_pairs.
  assert (Hfst : map fst (combine cols r) = cols).
  { clear Hnd. revert r Hlen. induction cols as [|c cols IH]; intros [|x r] Hlen;
      simpl in *; try discriminate; [reflexivity|]. f_equal. apply IH. lia. }
  assert (Hsnd : map snd (combine cols r) = r).
  { clear Hnd Hfst. revert r Hlen. induction cols as [|c cols IH]; intros [|x r] Hlen;
      simpl in *; try discriminate; [reflexivity|]. f_equal. apply IH. lia. }
  rewrite (dict_of_pairs_acc (combine cols r) []).
  - simpl. unfold dict_keys, dict_values. now rewrite Hfst, Hsnd.
  - simpl. now rewrite Hfst.
Qed.

Lemma slice_to_nonneg {A} (n : Z) (l : list A) :
  (0 <= n)%Z -> slice_to n l = firstn (Z.to_nat n) l.
Proof. intros H. unfold slice_to. destruct (Z.leb_spec 0 n); [reflexivity | lia]. Qed.

(** A negative [max_rows] is not a cap: the slice then drops rows from the
    end. *)
Example slice_to_negative : slice_to (-1) [1; 2; 3] = [1; 2].
Proof. reflexivity. Qed.

(** C7.  For a row cap [N >= 0] and a statement the engine answers with
    [columns] and the rows [fetched], [execute_read_query] returns the
    engine's column sequence as it is and the first [N] fetched rows, each
    zipped with the columns: never more than [N] rows, and exactly 5000 when
    the cap is 5000 and the engine has 6000. *)
Theorem execute_read_query_row_cap (W : services) (sql : string) (N : Z)
  (columns : list string) (fetched : list (list pyval)) :
  (0 <= N)%Z ->
  db_execute W sql = Ok (columns, fetched) ->
  exists res,
    execute_read_query W sql N = Ok res
    /\ qr_columns res = columns
    /\ qr_rows res = map (row_of columns) (firstn (Z.to_nat N) fetched)
    /\ (Z.of_nat (List.length (qr_rows res)) <= N)%Z
    /\ List.length (qr_rows res) = Nat.min (Z.to_nat N) (List.length fetched)
    /\ (N = 5000%Z -> Z.of_nat (List.length fetched) = 6000%Z ->
        Z.of_nat (List.length (qr_rows res)) = 5000%Z).
Proof.
  intros HN Hdb. unfold execute_read_query. rewrite Hdb.
  eexists. split; [reflexivity|]. simpl.
  rewrite slice_to_nonneg by exact HN.
  rewrite length_map, length_firstn.
  repeat split; try reflexivity; try lia.
Qed.

Lemma execute_read_query_row_cap_witness :
  exists res,
    execute_read_query (sample_services "") "SELECT id, name FROM cooperatives" 2 = Ok res
    /\ List.length (qr_rows res) = 2.
Proof.
  destruct (execute_read_query_row_cap (sample_services "")
              "SELECT id, name FROM cooperatives" 2
              ["id"; "name"]
              [[PyInt 1; PyStr "Maju"]; [PyInt 2; PyStr "Jaya"]; [PyInt 3; PyStr "Makmur"]]
              ltac:(lia) eq_refl) as [res [H1 [_ [_ [_ [H5 _]]]]]].
  exists res. split; [exact H1 | exact H5].
Defined.

(** ** Schema context builder *)

Lemma tables_to_process_empty all_names :
  tables_to_process_of (Some []) all_names = tables_to_process_of None all_names.
Proof. reflexivity. Qed.

Lemma tables_to_process_nonempty req all_names :
  req <> [] -> tables_to_process_of (Some req) all_names = req.
Proof. destruct req; [congruence | reflexivity]. Qed.

Lemma dict_has_keys {V} k (d : dict V) : dict_has k d = true <-> In k (dict_keys d).
Proof.
  unfold dict_has. induction d as [|[k' v] d IH]; simpl.
  - split; [discriminate | tauto].
  - destruct (String.eqb_spec k k') as [->|Hne].
    + split; auto.
    + rewrite IH. split; [auto | intros [H | H]; [congruence | exact H]].
Qed.

Lemma describe_columns_ok cols :
  (forall c, In c cols -> well_formed_column c) -> exists ds, describe_columns cols = Ok ds.
Proof.
  induction cols as [|c cols IH]; intros Hwf; simpl.
  - now exists [].
  - destruct (Hwf c (or_introl eq_refl)) as [Hn Ht].
    destruct IH as [ds Hds]; [intros; apply Hwf; now right|].
    unfold describe_column.
    destruct (c_name c); [|congruence]. destruct (c_type c); [|congruence].
    simpl. rewrite Hds. simpl. eauto.
Qed.

(** The JSON path keeps, in order, the requested names the file knows. *)
Lemma summarize_tables_names W tables req summary :
  summarize_tables W tables req = Ok summary ->
  map table summary = filter (fun t => dict_has t tables) req.
Proof.
  revert summary. induction req as [|t req IH]; intros summary H; simpl in *.
  - now inversion H.
  - unfold dict_has. destruct (dict_get t tables) as [meta|]; [|now apply IH].
    destruct (describe_columns (t_columns meta)); simpl in H; [|discriminate].
    destruct (summarize_tables W tables req) as [rest|]; simpl in H; [|discriminate].
    inversion H; subst. simpl. f_equal. now apply IH.
Qed.

Lemma dict_get_in {V} k (d : dict V) v : dict_get k d = Some v -> In (k, v) d.
Proof.
  induction d as [|[k' v'] d IH]; simpl; [discriminate|].
  destruct (String.eqb_spec k k') as [->|Hne]; intros H.
  - inversion H. now left.
  - right. now apply IH.
Qed.

Lemma summarize_tables_total W tables req :
  well_formed_tables tables -> exists summary, summarize_tables W tables req = Ok summary.
Proof.
  intros Hwf. induction req as [|t req [rest IH]]; simpl.
  - now exists [].
  - destruct (dict_get t tables) as [meta|] eqn:Hget; [|eauto].
    destruct (describe_columns_ok (t_columns meta)) as [ds Hds].
    { intros c Hc. apply (Hwf t meta c); [now apply dict_get_in | exact Hc]. }
    rewrite Hds, IH. simpl. eauto.
Qed.

Lemma describe_db_table_name W t info : describe_db_table W t = Ok info -> table info = t.
Proof.
  unfold describe_db_table. destruct (db_list_columns W t); simpl; [|discriminate].
  destruct (fetch_samples W t); simpl; [|discriminate].
  intros H. inversion H. reflexivity.
Qed.

Lemma describe_db_tables_in W ts n :
  In n (map table (describe_db_tables W ts)) -> In n ts.
Proof.
  induction ts as [|t ts IH]; simpl; [tauto|].
  destruct (describe_db_table W t) eqn:Hd; simpl.
  - intros [H | H]; [left; now rewrite <- (describe_db_table_name _ _ _ Hd) | right; auto].
  - auto.
Qed.

Lemma describe_db_tables_nodup W ts :
  NoDup ts -> NoDup (map table (describe_db_tables W ts)).
Proof.
  induction 1 as [|t ts Hnin Hnd IH]; simpl; [constructor|].
  destruct (describe_db_table W t) eqn:Hd; simpl; [|exact IH].
  constructor; [|exact IH].
  rewrite (describe_db_table_name _ _ _ Hd). intros Hin. apply Hnin.
  now apply describe_db_tables_in in Hin.
Qed.

Lemma str_mem_in x l : str_mem x l = true <-> In x l.
Proof.
  unfold str_mem. rewrite existsb_exists. split.
  - intros [y [Hin Heq]]. apply String.eqb_eq in Heq. now subst.
  - intros Hin. exists x. split; [exact Hin | apply String.eqb_refl].
Qed.

Lemma build_from_db_names W req summary :
  req <> [] -> _build_schema_from_db W (Some req) = Ok summary ->
  (forall n, In n (map table summary) -> In n req /\ In n (db_names W))
  /\ (NoDup req -> NoDup (map table summary)).
Proof.
  intros Hne. unfold _build_schema_from_db, db_names, rbind.
  destruct (db_list_tables W) as [all_tables|]; [|discriminate].
  destruct (db_reconnect W); [|discriminate].
  rewrite tables_to_process_nonempty by exact Hne.
  intros H. inversion H; subst. split.
  - intros n Hin. apply describe_db_tables_in in Hin.
    apply filter_In in Hin. destruct Hin as [Hreq Hmem].
    split; [exact Hreq | now apply str_mem_in].
  - intros Hnd. apply describe_db_tables_nodup. now apply NoDup_filter.
Qed.

(** C8.  For a non-empty, duplicate-free list of requested names, the context
    [build_schema_summary] returns has no table twice, and every descriptor in
    it is for a requested name known to the metadata source that answered; a
    requested name the source does not know gets no descriptor. *)
Theorem build_schema_summary_only_requested (W : services) (req : list string)
  (summary : schema_summary) :
  req <> [] -> NoDup req ->
  build_schema_summary W (Some req) = Ok summary ->
  NoDup (map table summary)
  /\ (forall n, In n (map table summary) ->
                In n req /\ In n (metadata_names W (Some req)))
  /\ (forall n, In n req -> ~ In n (metadata_names W (Some req)) ->
                ~ In n (map table summary)).
Proof.
  intros Hne Hnd Hbuild.
  assert (Hmain : NoDup (map table summary)
                  /\ (forall n, In n (map table summary) ->
                                In n req /\ In n (metadata_names W (Some req)))).
  { unfold build_schema_summary in Hbuild. unfold metadata_names.
    destruct (kdmp_tables W) as [| |tables].
    - destruct (build_from_db_names W req summary Hne Hbuild) as [Hin Hdup]. auto.
    - destruct (build_from_db_names W req summary Hne Hbuild) as [Hin Hdup]. auto.
    - destruct (summarize_tables W tables
                  (tables_to_process_of (Some req) (dict_keys tables))) as [s|] eqn:Hs.
      + inversion Hbuild; subst s.
        rewrite tables_to_process_nonempty in Hs by exact Hne.
        apply summarize_tables_names in Hs. rewrite Hs. split.
        * now apply NoDup_filter.
        * intros n Hin. apply filter_In in Hin. destruct Hin as [Hreq Hhas].
          split; [exact Hreq | now apply dict_has_keys].
      + destruct (build_from_db_names W req summary Hne Hbuild) as [Hin Hdup]. auto. }
  destruct Hmain as [H1 H2]. repeat split; try exact H1; try (now apply H2).
  intros n _ Hnot Hin. apply Hnot. now apply H2.
Qed.

Lemma build_schema_summary_only_requested_witness :
  exists summary,
    build_schema_summary (sample_services "") (Some ["cooperatives"; "users"]) = Ok summary
    /\ map table summary = ["cooperatives"]
    /\ ~ In "users" (map table summary).
Proof.
  eexists. split; [reflexivity|]. split; [reflexivity|].
  refine (proj2 (proj2 (build_schema_summary_only_requested (sample_services "")
            ["cooperatives"; "users"] _ _ _ eq_refl)) "users" _ _).
  - discriminate.
  - repeat constructor; simpl; intuition discriminate.
  - simpl. auto.
  - simpl. intuition discriminate.
Defined.

Lemma describe_db_tables_all W ts :
  (forall t, In t ts -> exists info, describe_db_table W t = Ok info) ->
  map table (describe_db_tables W ts) = ts.
Proof.
  induction ts as [|t ts IH]; intros Hall; simpl; [reflexivity|].
  destruct (Hall t (or_introl eq_refl)) as [info Hi]. rewrite Hi. simpl.
  rewrite (describe_db_table_name _ _ _ Hi). f_equal.
  apply IH. intros u Hu. apply Hall. now right.
Qed.

(** On the database path an empty request lists every table the engine
    describes. *)
Lemma build_from_db_all_tables W all_tables :
  db_list_tables W = Ok all_tables -> db_reconnect W = Ok tt ->
  (forall t, In t all_tables -> exists info, describe_db_table W t = Ok info) ->
  exists summary,
    _build_schema_from_db W (Some []) = Ok summary /\ map table summary = all_tables.
Proof.
  intros Hl Hr Hall. unfold _build_schema_from_db, rbind. rewrite Hl, Hr.
  eexists. split; [reflexivity|]. simpl tables_to_process_of.
  assert (Hf : filter (fun t => str_mem t all_tables) all_tables = all_tables).
  { apply forallb_filter_id. apply forallb_forall. intros t Ht. now apply str_mem_in. }
  rewrite Hf. now apply describe_db_tables_all.
Qed.

(** C10.  The empty list is treated as no list at all: the two calls are the
    same computation, and when the metadata file is loaded with well-formed
    columns the context has one descriptor per table of the file, in the
    file's order. *)
Theorem build_schema_summary_empty_list (W : services) :
  build_schema_summary W (Some []) = build_schema_summary W None
  /\ (forall tables,
        kdmp_tables W = FileLoaded tables -> well_formed_tables tables ->
        exists summary,
          build_schema_summary W (Some []) = Ok summary
          /\ map table summary = dict_keys tables).
Proof.
  split; [reflexivity|].
  intros tables Hfile Hwf. unfold build_schema_summary. rewrite Hfile.
  destruct (summarize_tables_total W tables
              (tables_to_process_of (Some []) (dict_keys tables)) Hwf) as [summary Hs].
  rewrite Hs. exists summary. split; [reflexivity|].
  apply summarize_tables_names in Hs. rewrite Hs. simpl.
  apply forallb_filter_id. apply forallb_forall.
  intros k Hk. now apply dict_has_keys.
Qed.

Lemma build_schema_summary_empty_list_witness :
  exists summary,
    build_schema_summary (sample_services "") (Some []) = Ok summary
    /\ map table summary = ["cooperatives"; "provinces"].
Proof.
  apply (proj2 (build_schema_summary_empty_list (sample_services ""))
           [("cooperatives", cooperatives_meta); ("provinces", provinces_meta)] eq_refl).
  intros n meta c Hin Hc. unfold well_formed_column.
  simpl in Hin. destruct Hin as [Hin | [Hin | []]]; inversion Hin; subst meta;
    simpl in Hc; intuition (subst; simpl in *; discriminate).
Defined.

(** ** Retry controller *)





(** ** Pipeline *)

Lemma generation_failure_propagates W question e :
  ask_llm_for_sql W 0 question = Raise e -> run_query_pipeline W question = Raise e.
Proof. intros H. unfold run_query_pipeline. rewrite H. reflexivity. Qed.

(** C5.  [run_query_pipeline] does raise: with a completion that is not JSON
    and has no brace span, the [ValueError] of [ask_llm_for_sql] leaves the
    pipeline unhandled (see also [generation_failure_propagates]). *)
Theorem run_query_pipeline_raises_on_unparsable_completion :
  run_query_pipeline (sample_services "Maaf, saya tidak tahu.") "ada berapa koperasi"
  = Raise (ValueError (invalid_json_prefix ++ newline ++ "Maaf, saya tidak tahu.")).
Proof. vm_compute. reflexivity. Qed.

(** ** Completion response extractor *)

Lemma chars_app a b : chars (a ++ b) = (chars a ++ chars b)%list.
Proof. induction a as [|x a IH]; simpl; [reflexivity | now rewrite <- IH]. Qed.

Lemma last_char_in w c : last_char w = Some c -> In c (chars w).
Proof.
  induction w as [|x w IH]; simpl; [discriminate|].
  destruct w as [|y w'].
  - intros H. inversion H. now left.
  - intros H. right. now apply IH.
Qed.

Lemma last_char_cons x w c : last_char w = Some c -> last_char (String x w) = Some c.
Proof. destruct w; [discriminate | auto]. Qed.

Lemma upto_last_none c s : upto_last c s = None -> no_char c s.
Proof.
  unfold no_char. induction s as [|x r IH]; simpl; [tauto|].
  destruct (upto_last c r); [discriminate|].
  destruct (Ascii.eqb_spec x c) as [->|Hne]; [discriminate|].
  intros _ [Hx | Hin]; [congruence | now apply IH].
Qed.

Lemma upto_last_shape c s w :
  upto_last c s = Some w ->
  exists post, s = w ++ post /\ last_char w = Some c /\ no_char c post.
Proof.
  revert w. induction s as [|x r IH]; intros w; simpl; [discriminate|].
  destruct (upto_last c r) as [w'|] eqn:Hr.
  - intros H. inversion H; subst. destruct (IH w' eq_refl) as [post [-> [Hl Hn]]].
    exists post. split; [reflexivity|]. split; [now apply last_char_cons | exact Hn].
  - destruct (Ascii.eqb_spec x c) as [->|Hne]; [|discriminate].
    intros H. inversion H; subst. exists r.
    split; [reflexivity|]. split; [reflexivity | now apply upto_last_none].
Qed.

(** The span runs from the first opening brace to the last closing brace. *)
Lemma brace_span_shape text span :
  brace_span text = Some span ->
  exists pre post,
    text = pre ++ span ++ post
    /\ no_char "{" pre /\ head_char span = Some "{"%char
    /\ last_char span = Some "}"%char /\ no_char "}" post.
Proof.
  revert span. induction text as [|x r IH]; intros span; simpl; [discriminate|].
  destruct (Ascii.eqb_spec x "{") as [->|Hne].
  - destruct (upto_last "}" r) as [w|] eqn:Hw.
    + intros H. inversion H; subst.
      destruct (upto_last_shape _ _ _ Hw) as [post [-> [Hl Hn]]].
      exists EmptyString, post.
      split; [reflexivity|]. split; [unfold no_char; simpl; tauto|].
      split; [reflexivity|]. split; [now apply last_char_cons | exact Hn].
    + intros H. destruct (IH span H) as [pre [post [-> [_ [_ [Hl _]]]]]].
      exfalso. apply (upto_last_none _ _ Hw).
      rewrite !chars_app. apply in_or_app. right. apply in_or_app. left.
      now apply last_char_in.
  - intros H. destruct (IH span H) as [pre [post [-> [Hp [Hh [Hl Hn]]]]]].
    exists (String x pre), post.
    split; [reflexivity|]. split; [|auto].
    intros [Hx | Hin]; [congruence | now apply Hp].
Qed.









(** A completion whose [sql] member is an integer of 4301 digits: the
    decoder's [ValueError] is not a [json.JSONDecodeError], so it is what
    the extractor raises, not the invalid-response error. *)
Lemma extract_sql_digit_limit_propagates :
  extract_sql json_loads_ref invalid_json_prefix (sql_completion_raw (digits_of_ones 4301))
  = Raise (digit_limit_error 4301).
Proof. vm_compute. reflexivity. Qed.

(** ** Quoted identifiers *)

Lemma is_valid_column_spec schema q : is_valid_column schema q = true <-> exact_column schema q.
Proof.
  unfold is_valid_column, exact_column. rewrite existsb_exists. split.
  - intros [t [Ht Hc]]. apply existsb_exists in Hc. destruct Hc as [col [Hcol Heq]].
    apply String.eqb_eq in Heq. eauto.
  - intros [t [col [Ht [Hcol Heq]]]]. exists t. split; [exact Ht|].
    apply existsb_exists. exists col. split; [exact Hcol | now apply String.eqb_eq].
Qed.

Lemma check_quoted_first_failure schema ids q :
  In q ids -> ~ exact_column schema q ->
  exists before q0 after,
    ids = (before ++ q0 :: after)%list
    /\ (forall x, In x before -> exact_column schema x)
    /\ ~ exact_column schema q0
    /\ check_quoted schema ids = quoted_report q0.
Proof.
  induction ids as [|i ids IH]; intros Hin Hbad; [destruct Hin|]. simpl.
  destruct (is_valid_column schema i) eqn:Hv.
  - destruct Hin as [-> | Hin].
    + exfalso. apply Hbad. now apply is_valid_column_spec.
    + destruct (IH Hin Hbad) as [before [q0 [after [-> [Hb [Hq Hc]]]]]].
      exists (i :: before), q0, after. repeat split; auto.
      intros x [<- | Hx]; [now apply is_valid_column_spec | now apply Hb].
  - exists [], i, ids. repeat split; auto.
    + intros x [].
    + intros Hex. apply is_valid_column_spec in Hex. congruence.
Qed.

(** C1 (as amended).  When a statement has a quoted identifier with no
    exact-case match among the column names of the context,
    [enforce_schema_strictly] rejects the statement and reports the first
    quoted identifier, in order of occurrence, that has no exact-case match;
    letter case is never folded for a quoted identifier. *)
Theorem quoted_identifier_needs_exact_case (schema : schema_summary) (sql q : string) :
  In q (quoted_identifiers sql) -> ~ exact_column schema q ->
  fst (enforce_schema_strictly sql schema) = false
  /\ exists before q0 after,
       quoted_identifiers sql = (before ++ q0 :: after)%list
       /\ (forall x, In x before -> exact_column schema x)
       /\ ~ exact_column schema q0
       /\ enforce_schema_strictly sql schema = (false, quoted_report q0).
Proof.
  intros Hin Hbad.
  destruct (check_quoted_first_failure schema _ q Hin Hbad)
    as [before [q0 [after [Hsplit [Hb [Hq Hc]]]]]].
  assert (He : enforce_schema_strictly sql schema = (false, quoted_report q0)).
  { unfold enforce_schema_strictly. rewrite Hc. reflexivity. }
  split; [now rewrite He|]. exists before, q0, after. auto.
Qed.

Lemma quoted_identifier_needs_exact_case_witness :
  enforce_schema_strictly
    ("SELECT " ++ quoted "villageid" ++ " FROM cooperatives") sample_schema
  = (false, quoted_report "villageid").
Proof.
  destruct (quoted_identifier_needs_exact_case sample_schema
              ("SELECT " ++ quoted "villageid" ++ " FROM cooperatives") "villageid")
    as [_ [before [q0 [after [Hs [_ [_ He]]]]]]].
  - vm_compute. auto.
  - intros H. apply is_valid_column_spec in H. vm_compute in H. discriminate.
  - rewrite He. f_equal. f_equal.
    change (quoted_identifiers ("SELECT " ++ quoted "villageid" ++ " FROM cooperatives"))
      with ["villageid"] in Hs.
    destruct before as [|b before]; simpl in Hs.
    + now inversion Hs.
    + inversion Hs. destruct before; discriminate.
Defined.

(** With two quoted identifiers that match no column, the second one is not
    the one reported. *)
Lemma second_bad_quoted_not_reported :
  ~ claimed_quoted_rejection sample_schema two_bad_quoted "Foo".
Proof.
  unfold claimed_quoted_rejection. intros H.
  assert (Hin : In "Foo" (quoted_identifiers two_bad_quoted)) by (vm_compute; auto).
  assert (Hbad : ~ exact_column sample_schema "Foo").
  { intros Hex. apply is_valid_column_spec in Hex. vm_compute in Hex. discriminate. }
  specialize (H Hin Hbad). vm_compute in H. discriminate.
Qed.


(** ** Letter case *)

Lemma all_ascii_complete c : In c all_ascii.
Proof.
  unfold all_ascii. rewrite <- (ascii_nat_embedding c).
  apply in_map. apply in_seq. pose proof (nat_ascii_bounded c). lia.
Qed.

Lemma case_blindb_sound p : case_blindb p = true -> case_blind p.
Proof.
  unfold case_blindb, case_blind. intros H c c' Hl.
  rewrite forallb_forall in H. specialize (H c (all_ascii_complete c)).
  rewrite forallb_forall in H. specialize (H c' (all_ascii_complete c')).
  rewrite Hl, Ascii.eqb_refl in H. simpl in H. now apply Bool.eqb_prop.
Qed.

Lemma is_space_blind : case_blind is_space.
Proof. apply case_blindb_sound. vm_compute. reflexivity. Qed.
Lemma is_word_blind : case_blind is_word.
Proof. apply case_blindb_sound. vm_compute. reflexivity. Qed.
Lemma ci_char_blind x : case_blind (ci_char x).
Proof. intros c c' H. unfold ci_char. now rewrite H. Qed.




(** *** The combinators preserve the relation *)

Lemma related_ret {A} (R : A -> A -> Prop) a a' : R a a' -> related R (mret a) (mret a').
Proof. intros H cur cur' Hc. simpl. auto. Qed.

Lemma related_bind {A B} (R : A -> A -> Prop) (S : B -> B -> Prop) m m' k k' :
  related R m m' ->
  (forall a a', R a a' -> related S (k a) (k' a')) ->
  related S (mbind m k) (mbind m' k').
Proof.
  intros Hm Hk cur cur' Hc. unfold mbind. specialize (Hm cur cur' Hc).
  destruct (m cur) as [[a c]|], (m' cur') as [[a' c']|]; try tauto.
  destruct Hm as [Ha Hcc]. now apply Hk.
Qed.


Section CaseBlindClass.

Variable p : ascii -> bool.
Hypothesis Hp : case_blind p.

Lemma related_chr : related ci_char_eq (chr p) (chr p).
Proof.
  intros [pv s] [pv' s'] [_ Hs]. unfold chr. simpl in *.
  destruct s as [|c r], s' as [|c' r']; simpl in Hs; try discriminate; auto.
  inversion Hs as [[Hc Hr]]. rewrite (Hp c c' Hc).
  destruct (p c'); [|exact I]. repeat split; auto.
Qed.

Lemma related_many_from :
  forall s s' pv pv', ci_opt pv pv' -> lower s = lower s' ->
    ci_str (fst (many_from p pv s)) (fst (many_from p pv' s'))
    /\ ci_cursor (snd (many_from p pv s)) (snd (many_from p pv' s')).
Proof.
  induction s as [|c r IH]; intros [|c' r'] pv pv' Hpv Hs;
    simpl in Hs; try discriminate; simpl.
  - split; [reflexivity | split; simpl; auto].
  - inversion Hs as [[Hc Hr]]. rewrite (Hp c c' Hc). destruct (p c').
    + specialize (IH r' (Some c) (Some c') Hc Hr).
      destruct (many_from p (Some c) r) as [w cur], (many_from p (Some c') r') as [w' cur'].
      simpl in *. destruct IH as [Hw Hcur]. split; [|exact Hcur].
      unfold ci_str in *. simpl. now rewrite Hc, Hw.
    + simpl. split; [reflexivity|]. split; simpl; auto.
Qed.

Lemma related_many : related ci_str (many p) (many p).
Proof.
  intros [pv s] [pv' s'] [Hpv Hs]. unfold many. simpl in *.
  destruct (related_many_from s s' pv pv' Hpv Hs) as [H1 H2].
  destruct (many_from p pv s), (many_from p pv' s'). auto.
Qed.


End CaseBlindClass.

Lemma related_lit_with (eq : ascii -> ascii -> bool) w :
  (forall x, In x (chars w) -> case_blind (eq x)) ->
  related (fun _ _ => True) (lit_with eq w) (lit_with eq w).
Proof.
  induction w as [|x w IH]; intros Hb; simpl.
  - now apply related_ret.
  - eapply related_bind.
    + apply related_chr. apply Hb. now left.
    + intros _ _ _. apply IH. intros y Hy. apply Hb. now right.
Qed.

Lemma related_lit_ci w : related (fun _ _ => True) (lit_ci w) (lit_ci w).
Proof. apply related_lit_with. intros x _. apply ci_char_blind. Qed.

Lemma ci_opt_word pv pv' : ci_opt pv pv' -> word_opt pv = word_opt pv'.
Proof.
  destruct pv, pv'; simpl; try tauto. apply is_word_blind.
Qed.

Lemma ci_head s s' : lower s = lower s' -> ci_opt (head_char s) (head_char s').
Proof. destruct s, s'; simpl; try discriminate; auto. intros H. now inversion H. Qed.

Lemma related_bnd : related (fun _ _ => True) bnd bnd.
Proof.
  intros [pv s] [pv' s'] [Hpv Hs]. unfold bnd. simpl in *.
  rewrite (ci_opt_word _ _ Hpv), (ci_opt_word _ _ (ci_head _ _ Hs)).
  destruct (xorb _ _); [|exact I]. repeat split; auto.
Qed.

Lemma related_alt {A} (R : A -> A -> Prop) ms :
  Forall (fun m => related R m m) ms -> related R (alt ms) (alt ms).
Proof.
  induction 1 as [|m ms Hm _ IH]; intros cur cur' Hc; simpl; [exact I|].
  specialize (Hm cur cur' Hc).
  destruct (m cur) as [[a c]|], (m cur') as [[a' c']|]; try tauto.
  now apply IH.
Qed.





(** *** The patterns of the enforcer are blind to letter case *)














Lemma same_report_none r r' : same_report r r' -> r = None <-> r' = None.
Proof. destruct r, r'; simpl; intuition discriminate. Qed.

(** *** Quoted spans survive a change of case outside them *)



Lemma many_from_stop q w rest pv :
  no_char q w ->
  exists pv', many_from (not_char q) pv (w ++ String q rest) = (w, (pv', String q rest)).
Proof.
  unfold no_char. revert pv. induction w as [|c w IH]; intros pv Hn; simpl.
  - unfold not_char. rewrite Ascii.eqb_refl. simpl. eauto.
  - unfold not_char at 1. destruct (Ascii.eqb_spec q c) as [->|Hne].
    + exfalso. apply Hn. now left.
    + simpl. destruct (IH (Some c)) as [pv' ->]; [intros H; apply Hn; now right|]. eauto.
Qed.


Lemma delimited_other q pv c s : c <> q -> delimited q (pv, String c s) = None.
Proof.
  intros H. unfold delimited, mbind, chr. simpl.
  destruct (Ascii.eqb_spec q c); [congruence | reflexivity].
Qed.

Lemma delimited_closed q pv w rest :
  no_char q w ->
  delimited q (pv, String q (w ++ String q rest)) = Some (w, (Some q, rest)).
Proof.
  intros H. unfold delimited, mbind, chr, many. simpl. rewrite Ascii.eqb_refl. simpl.
  destruct (many_from_stop q w rest (Some q) H) as [pv' ->]. simpl.
  rewrite Ascii.eqb_refl. reflexivity.
Qed.



Lemma string_length_app a b : String.length (a ++ b) = String.length a + String.length b.
Proof. induction a; simpl; auto. Qed.




(** *** Bare identifiers *)





(** ** Safety validator *)

Lemma last_char_nonempty c w : last_char (String c w) <> None.
Proof.
  revert c. induction w as [|y w IH]; intros c; simpl; [discriminate | apply IH].
Qed.

Lemma prev_after_cons pv c w : prev_after pv (String c w) = prev_after (Some c) w.
Proof.
  unfold prev_after. destruct w as [|a w]; [reflexivity|].
  change (last_char (String c (String a w))) with (last_char (String a w)).
  pose proof (last_char_nonempty a w). destruct (last_char (String a w)); congruence.
Qed.

Lemma lit_with_elim eq w pv s u cur' :
  lit_with eq w (pv, s) = Some (u, cur') ->
  exists w' rest, s = w' ++ rest /\ reads eq w w' /\ cur' = (prev_after pv w', rest).
Proof.
  revert pv s. induction w as [|x w IH]; intros pv s; simpl.
  - unfold mret. intros H. inversion H. exists EmptyString, s. auto.
  - unfold mbind, chr. simpl. destruct s as [|c r]; [discriminate|].
    destruct (eq x c) eqn:E; [|discriminate].
    intros H. destruct (IH _ _ H) as [w' [rest [-> [Hr ->]]]].
    exists (String c w'), rest. rewrite prev_after_cons. auto.
Qed.

Lemma lit_with_intro eq w w' pv rest :
  reads eq w w' -> lit_with eq w (pv, w' ++ rest) = Some (tt, (prev_after pv w', rest)).
Proof.
  revert pv w'. induction w as [|x w IH]; intros pv [|c w']; simpl; try tauto.
  intros [E Hr]. unfold mbind, chr. simpl. rewrite E.
  rewrite prev_after_cons. now apply IH.
Qed.

Lemma reads_exact w w' : reads Ascii.eqb w w' <-> w' = w.
Proof.
  revert w'. induction w as [|x w IH]; intros [|c w']; simpl; try (split; [tauto | discriminate]).
  - tauto.
  - rewrite IH. split.
    + intros [E ->]. apply Ascii.eqb_eq in E. now subst.
    + intros H. inversion H. split; [apply Ascii.eqb_refl | reflexivity].
Qed.

Lemma reads_ci w w' : reads ci_char w w' <-> lower w' = lower w.
Proof.
  revert w'. induction w as [|x w IH]; intros [|c w']; simpl; try (split; [tauto | discriminate]).
  - tauto.
  - rewrite IH. unfold ci_char. split.
    + intros [E ->]. apply Ascii.eqb_eq in E. now rewrite E.
    + intros H. inversion H as [[Hc Hw]]. split; [rewrite Hc; apply Ascii.eqb_refl | reflexivity].
Qed.

Lemma lit_matches w pv s : matches (lit w) (pv, s) <-> exists rest, s = w ++ rest.
Proof.
  unfold matches, lit. split.
  - destruct (lit_with Ascii.eqb w (pv, s)) as [[u cur']|] eqn:E; [|congruence].
    intros _. destruct (lit_with_elim _ _ _ _ _ _ E) as [w' [rest [-> [Hr _]]]].
    apply reads_exact in Hr. subst. eauto.
  - intros [rest ->]. rewrite (lit_with_intro Ascii.eqb w w); [discriminate|].
    now apply reads_exact.
Qed.

Lemma string_app_assoc (a b c : string) : (a ++ b) ++ c = a ++ b ++ c.
Proof. induction a; simpl; [reflexivity | now f_equal]. Qed.

Lemma prev_after_snoc pv pre c : prev_after pv (pre ++ String c EmptyString) = Some c.
Proof.
  unfold prev_after. replace (last_char (pre ++ String c "")) with (Some c); [reflexivity|].
  induction pre as [|x pre IH]; simpl; [reflexivity|].
  destruct (pre ++ String c "") eqn:E; [destruct pre; discriminate | exact IH].
Qed.

(** [search]: the pattern matches at some position of the text. *)
Lemma search_from_spec {A} (m : matcher A) pv s :
  search_from m pv s = true <->
  exists pre post, s = pre ++ post /\ matches m (prev_after pv pre, post).
Proof.
  unfold matches. revert pv. induction s as [|c r IH]; intros pv; simpl.
  - destruct (m (pv, EmptyString)) eqn:E.
    + split; [|reflexivity]. intros _. exists EmptyString, EmptyString.
      split; [reflexivity|]. unfold prev_after. simpl. congruence.
    + split; [discriminate|]. intros [pre [post [Hs Hm]]].
      destruct pre; [|discriminate]. simpl in Hs. subst post.
      unfold prev_after in Hm. simpl in Hm. congruence.
  - destruct (m (pv, String c r)) eqn:E.
    + split; [|reflexivity]. intros _. exists EmptyString, (String c r).
      split; [reflexivity|]. unfold prev_after. simpl. congruence.
    + rewrite IH. split.
      * intros [pre [post [-> Hm]]]. exists (String c pre), post.
        split; [reflexivity|]. now rewrite prev_after_cons.
      * intros [pre [post [Hs Hm]]]. destruct pre as [|x pre].
        -- simpl in Hs. subst post. unfold prev_after in Hm. simpl in Hm. congruence.
        -- simpl in Hs. inversion Hs; subst. exists pre, post.
           split; [reflexivity|]. now rewrite prev_after_cons in Hm.
Qed.

Lemma prev_after_none pre : prev_after None pre = last_char pre.
Proof. unfold prev_after. destruct (last_char pre); reflexivity. Qed.

Lemma alt_matches {A} (ms : list (matcher A)) cur :
  matches (alt ms) cur <-> exists m, In m ms /\ matches m cur.
Proof.
  unfold matches. induction ms as [|m ms IH]; simpl.
  - split; [congruence | intros [m [[] _]]].
  - destruct (m cur) eqn:E.
    + split; [|discriminate]. intros _. exists m. split; [now left | congruence].
    + rewrite IH. split.
      * intros [m' [Hin Hm]]. exists m'. split; [now right | exact Hm].
      * intros [m' [[<- | Hin] Hm]]; [congruence|]. exists m'. auto.
Qed.

Lemma lower_word_string kw w : word_string kw -> lower w = lower kw -> word_string w.
Proof.
  intros [Hne Hall] Hl. split.
  - intros ->. destruct kw; [congruence | discriminate].
  - clear Hne. revert kw Hall Hl. induction w as [|c w IH]; intros [|k kw] Hall Hl;
      simpl in Hl; try discriminate; simpl; [tauto|].
    inversion Hl as [[Hc Hw]]. intros x [<- | Hin].
    + rewrite (is_word_blind c k Hc). apply Hall. now left.
    + apply (IH kw); auto. intros y Hy. apply Hall. now right.
Qed.

Lemma word_string_ends w :
  word_string w -> word_opt (head_char w) = true /\ forall pv, word_opt (prev_after pv w) = true.
Proof.
  intros [Hne Hall]. split.
  - destruct w; [congruence|]. simpl. apply Hall. now left.
  - intros pv. unfold prev_after. destruct (last_char w) as [c|] eqn:E.
    + simpl. apply Hall. now apply last_char_in.
    + destruct w as [|x w]; [congruence|]. exfalso. now apply (last_char_nonempty x w).
Qed.

Lemma head_char_app w rest : w <> EmptyString -> head_char (w ++ rest) = head_char w.
Proof. destruct w; [congruence | reflexivity]. Qed.

Lemma word_ci_matches kw pv s :
  word_string kw ->
  matches (word_ci kw) (pv, s) <->
  exists w rest, s = w ++ rest /\ lower w = lower kw
                 /\ word_opt pv = false /\ word_opt (head_char rest) = false.
Proof.
  intros Hkw. unfold matches, word_ci, mbind, bnd. simpl. split.
  - destruct (xorb (word_opt pv) (word_opt (head_char s))) eqn:Hx; [|congruence].
    destruct (lit_ci kw (pv, s)) as [[u cur']|] eqn:E; [|congruence].
    destruct (lit_with_elim _ _ _ _ _ _ E) as [w [rest [-> [Hr ->]]]].
    apply reads_ci in Hr. simpl.
    destruct (word_string_ends w (lower_word_string _ _ Hkw Hr)) as [Hh Hl].
    rewrite head_char_app in Hx by (apply (lower_word_string _ _ Hkw Hr)).
    rewrite Hh in Hx. rewrite (Hl pv).
    destruct (word_opt (head_char rest)) eqn:Hrest; simpl; [congruence|].
    intros _. exists w, rest. repeat split; auto.
    destruct (word_opt pv); [discriminate | reflexivity].
  - intros [w [rest [-> [Hr [Hpv Hrest]]]]].
    destruct (word_string_ends w (lower_word_string _ _ Hkw Hr)) as [Hh Hl].
    rewrite head_char_app by (apply (lower_word_string _ _ Hkw Hr)).
    rewrite Hpv, Hh. simpl.
    unfold lit_ci. rewrite (lit_with_intro ci_char kw w) by (now apply reads_ci).
    simpl. rewrite (Hl pv), Hrest. simpl. discriminate.
Qed.

Lemma forbidden_keywords_words kw : In kw forbidden_keywords -> word_string kw.
Proof.
  assert (H : Forall word_string forbidden_keywords).
  { unfold forbidden_keywords.
    repeat constructor; try discriminate; intros c Hc; simpl in Hc;
      repeat (destruct Hc as [<- | Hc]; [reflexivity|]); destruct Hc. }
  rewrite Forall_forall in H. apply H.
Qed.

Lemma forbidden_search_spec sql :
  search _FORBIDDEN_RE sql = true <->
  occurs ";" sql \/ occurs "--" sql
  \/ exists kw, In kw forbidden_keywords /\ occurs_as_word_ci kw sql.
Proof.
  unfold search. rewrite search_from_spec. unfold _FORBIDDEN_RE. split.
  - intros [pre [post [-> Hm]]]. apply alt_matches in Hm.
    destruct Hm as [m [[<- | [<- | Hin]] Hm]].
    + apply lit_matches in Hm. destruct Hm as [rest ->]. left. now exists pre, rest.
    + apply lit_matches in Hm. destruct Hm as [rest ->]. right. left. now exists pre, rest.
    + apply in_map_iff in Hin. destruct Hin as [kw [<- Hkw]].
      apply word_ci_matches in Hm; [|now apply forbidden_keywords_words].
      destruct Hm as [w [rest [-> [Hl [Hp Hr]]]]].
      right. right. exists kw. split; [exact Hkw|].
      exists pre, w, rest. rewrite prev_after_none in Hp. auto.
  - intros [[pre [post ->]] | [[pre [post ->]] | [kw [Hkw [pre [w [post [-> [Hl [Hp Hr]]]]]]]]]].
    + exists pre, (";" ++ post). split; [reflexivity|]. apply alt_matches.
      exists (lit ";"). split; [now left|]. apply lit_matches. eauto.
    + exists pre, ("--" ++ post). split; [reflexivity|]. apply alt_matches.
      exists (lit "--"). split; [right; now left|]. apply lit_matches. eauto.
    + exists pre, (w ++ post). split; [reflexivity|]. apply alt_matches.
      exists (word_ci kw). split; [right; right; now apply in_map|].
      apply word_ci_matches; [now apply forbidden_keywords_words|].
      exists w, post. rewrite prev_after_none. auto.
Qed.

Lemma forbidden_search_false sql :
  search _FORBIDDEN_RE sql = false <-> no_forbidden_construct sql.
Proof.
  unfold no_forbidden_construct. split.
  - intros H. repeat split.
    + intros Ho. assert (E : search _FORBIDDEN_RE sql = true)
        by (apply forbidden_search_spec; auto). congruence.
    + intros Ho. assert (E : search _FORBIDDEN_RE sql = true)
        by (apply forbidden_search_spec; auto). congruence.
    + intros kw Hkw Ho. assert (E : search _FORBIDDEN_RE sql = true)
        by (apply forbidden_search_spec; eauto). congruence.
  - intros [H1 [H2 H3]]. destruct (search _FORBIDDEN_RE sql) eqn:E; [|reflexivity].
    apply forbidden_search_spec in E.
    destruct E as [E | [E | [kw [Hkw E]]]]; [tauto | tauto | exfalso; now apply (H3 kw)].
Qed.

Lemma many_from_split p pv s :
  s = fst (many_from p pv s) ++ snd (snd (many_from p pv s))
  /\ (forall c, In c (chars (fst (many_from p pv s))) -> p c = true)
  /\ fst (snd (many_from p pv s)) = prev_after pv (fst (many_from p pv s)).
Proof.
  revert pv. induction s as [|c r IH]; intros pv; simpl.
  - repeat split. intros c [].
  - destruct (p c) eqn:E.
    + specialize (IH (Some c)). destruct (many_from p (Some c) r) as [w [pv' rest]].
      simpl in *. destruct IH as [Hs [Hall Hpv]]. repeat split.
      * now f_equal.
      * intros x [<- | Hx]; auto.
      * now rewrite prev_after_cons.
    + simpl. repeat split. intros x [].
Qed.

Lemma many_from_unique p pv ws rest :
  (forall c, In c (chars ws) -> p c = true) ->
  match head_char rest with Some c => p c = false | None => True end ->
  many_from p pv (ws ++ rest) = (ws, (prev_after pv ws, rest)).
Proof.
  revert pv. induction ws as [|c ws IH]; intros pv Hall Hrest; simpl.
  - destruct rest as [|x rest]; [reflexivity|]. simpl in *. now rewrite Hrest.
  - rewrite (Hall c (or_introl eq_refl)).
    rewrite IH; [now rewrite prev_after_cons | intros x Hx; apply Hall; now right | exact Hrest].
Qed.

Lemma select_only_spec sql :
  matches _SELECT_ONLY_RE (None, sql) <-> begins_with_select_space sql.
Proof.
  unfold matches, _SELECT_ONLY_RE, begins_with_select_space, mbind, many. simpl. split.
  - pose proof (many_from_split is_space None sql) as [Hs [Hall _]].
    destruct (many_from is_space None sql) as [ws [pv1 r1]]. simpl in *.
    destruct (lit_ci "SELECT" (pv1, r1)) as [[u cur2]|] eqn:E; [|congruence].
    destruct (lit_with_elim _ _ _ _ _ _ E) as [w [r2 [-> [Hr ->]]]].
    apply reads_ci in Hr. unfold chr. simpl.
    destruct r2 as [|c rest]; [congruence|].
    destruct (is_space c) eqn:Hc; [|congruence].
    intros _. exists ws, w, c, rest. auto.
  - intros [ws [w [c [rest [-> [Hall [Hl Hc]]]]]]].
    rewrite (many_from_unique is_space None ws (w ++ String c rest) Hall).
    + unfold lit_ci. rewrite (lit_with_intro ci_char "SELECT" w) by (now apply reads_ci).
      unfold chr. simpl. rewrite Hc. discriminate.
    + destruct w as [|x w]; [discriminate|]. simpl. simpl in Hl.
      injection Hl as Hx _.
      now rewrite (is_space_blind x "s"%char Hx).
Qed.

Lemma validate_sql_true sql :
  validate_sql sql = true <->
  matches _SELECT_ONLY_RE (None, sql) /\ search _FORBIDDEN_RE sql = false.
Proof.
  unfold validate_sql, matches.
  destruct (_SELECT_ONLY_RE (None, sql)); simpl.
  - destruct (search _FORBIDDEN_RE sql); split; try tauto; try discriminate.
    + intros [_ H]. discriminate.
    + intros _. split; [discriminate | reflexivity].
  - split; [discriminate | tauto].
Qed.

Lemma safety_failure_short_circuits W question v raw_sql schema :
  ask_llm_for_sql W 0 question = Ok v ->
  candidate_of v = Ok raw_sql ->
  contains "Gagal generate SQL yang valid" raw_sql = false ->
  contains "Data tidak tersedia" raw_sql = false ->
  build_schema_summary W (Some (search_relevant_tables W question)) = Ok schema ->
  validate_sql raw_sql = false ->
  run_query_pipeline W question
  = Ok (ErrorResponse "Generated SQL failed final validation." raw_sql None None).
Proof.
  intros Hg Hc Hs1 Hs2 Hb Hv. unfold run_query_pipeline.
  rewrite Hg. cbv [rbind]. rewrite Hc, Hs1, Hs2. cbv [orb]. rewrite Hb, Hv. reflexivity.
Qed.

(** C2 (as amended).  [validate_sql] accepts a statement exactly when, after
    leading whitespace, it begins with SELECT in any letter case followed by a
    whitespace character, and it has no semicolon, no [--] and none of the
    seven keywords as a whole word in any letter case; the statement with
    [; DROP TABLE] is rejected; and in [run_query_pipeline] a statement
    failing this check is answered with the safety error whatever the schema
    context is. *)
Theorem validate_sql_safety_gate :
  (forall sql,
     validate_sql sql = true <-> begins_with_select_space sql /\ no_forbidden_construct sql)
  /\ validate_sql "SELECT * FROM cooperatives; DROP TABLE cooperatives" = false
  /\ (forall W question v raw_sql schema,
        ask_llm_for_sql W 0 question = Ok v ->
        candidate_of v = Ok raw_sql ->
        contains "Gagal generate SQL yang valid" raw_sql = false ->
        contains "Data tidak tersedia" raw_sql = false ->
        build_schema_summary W (Some (search_relevant_tables W question)) = Ok schema ->
        validate_sql raw_sql = false ->
        run_query_pipeline W question
        = Ok (ErrorResponse "Generated SQL failed final validation." raw_sql None None)).
Proof.
  split; [|split].
  - intros sql. rewrite validate_sql_true, select_only_spec, forbidden_search_false.
    reflexivity.
  - reflexivity.
  - exact safety_failure_short_circuits.
Qed.

Lemma validate_sql_safety_gate_witness :
  run_query_pipeline
    (sample_services (sql_completion "SELECT * FROM cooperatives; DROP TABLE cooperatives"))
    "hapus semua koperasi"
  = Ok (ErrorResponse "Generated SQL failed final validation."
          "SELECT * FROM cooperatives; DROP TABLE cooperatives" None None).
Proof.
  eapply (proj2 (proj2 validate_sql_safety_gate)); reflexivity.
Defined.

(** A statement that begins with SELECT and has no forbidden construct, yet is
    rejected: no whitespace follows the keyword. *)
Lemma select_without_space_rejected : ~ claimed_safety_gate "SELECT* FROM cooperatives".
Proof.
  unfold claimed_safety_gate. intros [_ H].
  assert (E : validate_sql "SELECT* FROM cooperatives" = true).
  { apply H. split.
    - exists EmptyString, "SELECT", "* FROM cooperatives".
      split; [reflexivity|]. split; [intros c []| reflexivity].
    - apply forbidden_search_false. reflexivity. }
  vm_compute in E. discriminate.
Qed.




(** ** The step budget of [findall] and [sub_empty] is never exhausted *)

Lemma consumes_keeps {A} (m : matcher A) : consumes m -> keeps m.
Proof. intros H cur a cur' E. specialize (H cur a cur' E). lia. Qed.

Lemma keeps_ret {A} (a : A) : keeps (mret a).
Proof. intros cur x cur' E. inversion E. lia. Qed.

Lemma keeps_bnd : keeps bnd.
Proof.
  intros cur x cur' E. unfold bnd in E.
  destruct (xorb _ _); inversion E. lia.
Qed.

Lemma consumes_chr p : consumes (chr p).
Proof.
  intros [pv s] x cur' E. unfold chr in E. simpl in *.
  destruct s as [|c r]; [discriminate|]. destruct (p c); inversion E. simpl. lia.
Qed.

Lemma keeps_many p : keeps (many p).
Proof.
  intros [pv s] w cur' E. unfold many in E. simpl in *. inversion E as [E'].
  pose proof (many_from_split p pv s) as [Hs _]. rewrite E' in Hs. simpl in Hs.
  assert (Hl : String.length s = String.length (w ++ snd cur')) by (now rewrite <- Hs).
  rewrite string_length_app in Hl. lia.
Qed.

Lemma keeps_bind {A B} (m : matcher A) (k : A -> matcher B) :
  keeps m -> (forall a, keeps (k a)) -> keeps (mbind m k).
Proof.
  intros Hm Hk cur b cur' E. unfold mbind in E.
  destruct (m cur) as [[a c]|] eqn:Em; [|discriminate].
  specialize (Hm _ _ _ Em). specialize (Hk a _ _ _ E). lia.
Qed.

Lemma consumes_first {A B} (m : matcher A) (k : A -> matcher B) :
  consumes m -> (forall a, keeps (k a)) -> consumes (mbind m k).
Proof.
  intros Hm Hk cur b cur' E. unfold mbind in E.
  destruct (m cur) as [[a c]|] eqn:Em; [|discriminate].
  specialize (Hm _ _ _ Em). specialize (Hk a _ _ _ E). lia.
Qed.

Lemma consumes_later {A B} (m : matcher A) (k : A -> matcher B) :
  keeps m -> (forall a, consumes (k a)) -> consumes (mbind m k).
Proof.
  intros Hm Hk cur b cur' E. unfold mbind in E.
  destruct (m cur) as [[a c]|] eqn:Em; [|discriminate].
  specialize (Hm _ _ _ Em). specialize (Hk a _ _ _ E). lia.
Qed.

Lemma keeps_lit_with eq w : keeps (lit_with eq w).
Proof.
  induction w as [|x w IH]; simpl; [apply keeps_ret|].
  apply keeps_bind; [apply consumes_keeps, consumes_chr | intros _; exact IH].
Qed.

Lemma keeps_alt {A} (ms : list (matcher A)) : Forall keeps ms -> keeps (alt ms).
Proof.
  induction 1 as [|m ms Hm _ IH]; intros cur a cur' E; simpl in E; [discriminate|].
  destruct (m cur) as [r|] eqn:Em; [|now apply (IH cur a cur')].
  inversion E; subst. now apply (Hm cur a cur').
Qed.

Ltac keeps_tac :=
  repeat first
    [ apply keeps_ret | apply keeps_bnd | apply keeps_many | apply keeps_lit_with
    | apply consumes_keeps, consumes_chr
    | apply keeps_alt; repeat constructor
    | apply keeps_bind; [|intros ?] ].

Lemma consumes_ident : consumes ident.
Proof. unfold ident. apply consumes_first; [apply consumes_chr | intros c; keeps_tac]. Qed.

Lemma consumes_many1 p : consumes (many1 p).
Proof. unfold many1. apply consumes_first; [apply consumes_chr | intros c; keeps_tac]. Qed.

Lemma consumes_delimited q : consumes (delimited q).
Proof.
  unfold delimited. apply consumes_first; [apply consumes_chr | intros c; keeps_tac].
Qed.

Lemma consumes_bare_re : consumes bare_re.
Proof.
  unfold bare_re. apply consumes_later; [apply keeps_bnd | intros _].
  apply consumes_first; [apply consumes_ident | intros w; keeps_tac].
Qed.

Lemma consumes_table_pattern kw : consumes (table_pattern kw).
Proof.
  unfold table_pattern. apply consumes_later; [apply keeps_bnd | intros _].
  apply consumes_later; [apply keeps_lit_with | intros _].
  apply consumes_later; [apply consumes_keeps, consumes_many1 | intros _].
  apply consumes_ident.
Qed.

Lemma consumes_alias_pattern kw : consumes (alias_pattern kw).
Proof.
  unfold alias_pattern. apply consumes_later; [apply keeps_bnd | intros _].
  apply consumes_later; [apply keeps_lit_with | intros _].
  apply consumes_first; [apply consumes_many1 | intros _].
  apply keeps_bind; [apply consumes_keeps, consumes_ident | intros t].
  apply keeps_bind; [apply consumes_keeps, consumes_many1 | intros _].
  apply keeps_bind; [apply consumes_keeps, consumes_ident | intros a]. apply keeps_ret.
Qed.

Lemma consumes_as_pattern : consumes as_pattern.
Proof.
  unfold as_pattern. apply consumes_later; [apply keeps_bnd | intros _].
  apply consumes_later; [apply keeps_alt; repeat constructor; apply keeps_lit_with | intros _].
  apply consumes_first; [apply consumes_many1 | intros _].
  apply keeps_bind; [apply consumes_keeps, consumes_ident | intros t].
  apply keeps_bind; [apply consumes_keeps, consumes_many1 | intros _].
  apply keeps_bind; [apply keeps_lit_with | intros _].
  apply keeps_bind; [apply consumes_keeps, consumes_many1 | intros _].
  apply keeps_bind; [apply consumes_keeps, consumes_ident | intros a]. apply keeps_ret.
Qed.

(** More steps than the text has characters change nothing. *)
Lemma findall_fuel {A} (m : matcher A) :
  consumes m ->
  forall fuel fuel' cur,
    String.length (snd cur) < fuel -> String.length (snd cur) < fuel' ->
    findall_from m fuel cur = findall_from m fuel' cur.
Proof.
  intros Hm. induction fuel as [|fuel IH]; intros fuel' cur Hf Hf'; [lia|].
  destruct fuel' as [|fuel']; [lia|]. simpl.
  destruct (m cur) as [[a c]|] eqn:Em.
  - specialize (Hm _ _ _ Em). f_equal. apply IH; lia.
  - destruct cur as [pv s]. unfold advance. simpl in *.
    destruct s as [|x r]; [reflexivity|]. simpl in *. apply IH; simpl; lia.
Qed.

Lemma sub_empty_fuel {A} (m : matcher A) :
  consumes m ->
  forall fuel fuel' cur,
    String.length (snd cur) < fuel -> String.length (snd cur) < fuel' ->
    sub_empty_from m fuel cur = sub_empty_from m fuel' cur.
Proof.
  intros Hm. induction fuel as [|fuel IH]; intros fuel' cur Hf Hf'; [lia|].
  destruct fuel' as [|fuel']; [lia|]. simpl.
  destruct (m cur) as [[a c]|] eqn:Em.
  - specialize (Hm _ _ _ Em). apply IH; lia.
  - destruct cur as [pv s]. simpl in *.
    destruct s as [|x r]; [reflexivity|]. simpl in *. f_equal. apply IH; simpl; lia.
Qed.

(** The quoted identifiers of a statement, span by span. *)
Lemma delimited_prev q pv pv' s : delimited q (pv, s) = delimited q (pv', s).
Proof. unfold delimited, mbind, chr. simpl. destruct s; reflexivity. Qed.

Lemma findall_delimited_prev q fuel pv pv' s :
  findall_from (delimited q) fuel (pv, s) = findall_from (delimited q) fuel (pv', s).
Proof.
  destruct fuel as [|fuel]; [reflexivity|]. simpl.
  rewrite (delimited_prev q pv pv'). destruct (delimited q (pv', s)); [reflexivity|].
  unfold advance. simpl. reflexivity.
Qed.

Lemma findall_from_step {A} (m : matcher A) fuel cur :
  findall_from m (S fuel) cur =
  match m cur with
  | Some (a, cur') => a :: findall_from m fuel cur'
  | None =>
      match advance cur with
      | Some cur' => findall_from m fuel cur'
      | None => []
      end
  end.
Proof. reflexivity. Qed.

Lemma quoted_identifiers_cons c s :
  c <> dquote -> quoted_identifiers (String c s) = quoted_identifiers s.
Proof.
  intros Hc. unfold quoted_identifiers, findall, quoted_re.
  cbn [String.length]. rewrite findall_from_step, delimited_other by exact Hc.
  cbn [advance snd]. apply findall_delimited_prev.
Qed.

Lemma quoted_identifiers_span q s :
  no_char dquote q -> quoted_identifiers (quoted q ++ s) = q :: quoted_identifiers s.
Proof.
  intros Hq. unfold quoted_identifiers, findall, quoted_re, quoted.
  replace (dq ++ q ++ dq) with (String dquote (q ++ dq)) by reflexivity.
  cbn [String.append String.length]. rewrite findall_from_step.
  replace ((q ++ dq) ++ s) with (q ++ String dquote s)
    by (rewrite string_app_assoc; reflexivity).
  rewrite delimited_closed by exact Hq. f_equal.
  rewrite (findall_delimited_prev dquote _ (Some dquote) None).
  apply findall_fuel; [apply consumes_delimited | |]; simpl; rewrite ?string_length_app; simpl; lia.
Qed.

Lemma quoted_identifiers_first pre q post :
  no_char dquote pre -> no_char dquote q ->
  quoted_identifiers (pre ++ quoted q ++ post) = q :: quoted_identifiers post.
Proof.
  unfold no_char. induction pre as [|c pre IH]; intros Hpre Hq; simpl.
  - now apply quoted_identifiers_span.
  - rewrite quoted_identifiers_cons by (intros ->; apply Hpre; now left).
    apply IH; [|exact Hq]. intros H. apply Hpre. now right.
Qed.

(** The first double-quoted span of a statement is its first quoted
    identifier: when it matches no column exactly, it is the one reported. *)
Lemma first_quoted_identifier_reported schema pre q post :
  no_char dquote pre -> no_char dquote q -> ~ exact_column schema q ->
  enforce_schema_strictly (pre ++ quoted q ++ post) schema = (false, quoted_report q).
Proof.
  intros Hpre Hq Hbad. unfold enforce_schema_strictly.
  rewrite (quoted_identifiers_first pre q post Hpre Hq). simpl.
  destruct (is_valid_column schema q) eqn:E; [|reflexivity].
  exfalso. apply Hbad. now apply is_valid_column_spec.
Qed.

(** * Further properties *)

(** ** Substrings *)

Lemma starts_with_spec p s : starts_with p s = true <-> exists post, s = p ++ post.
Proof.
  revert s. induction p as [|a p IH]; intros s; simpl.
  - split; [intros _; now exists s | reflexivity].
  - destruct s as [|b s].
    + split; [discriminate | intros [post H]; discriminate].
    + rewrite andb_true_iff, IH. split.
      * intros [E [post ->]]. apply Ascii.eqb_eq in E. subst. now exists post.
      * intros [post H]. inversion H; subst. split; [apply Ascii.eqb_refl | now exists post].
Qed.

Lemma contains_occurs needle hay : contains needle hay = true <-> occurs needle hay.
Proof.
  unfold occurs. induction hay as [|c r IH]; simpl.
  - rewrite orb_false_r, starts_with_spec. split.
    + intros [post H]. now exists EmptyString, post.
    + intros [pre [post H]]. destruct pre; [now exists post | discriminate].
  - rewrite orb_true_iff, starts_with_spec, IH. split.
    + intros [[post H] | [pre [post H]]].
      * now exists EmptyString, post.
      * exists (String c pre), post. simpl. now f_equal.
    + intros [pre [post H]]. destruct pre as [|x pre].
      * left. now exists post.
      * right. simpl in H. inversion H; subst. now exists pre, post.
Qed.

Lemma contains_suffix a b hay : contains (a ++ b) hay = true -> contains b hay = true.
Proof.
  rewrite !contains_occurs. intros [pre [post ->]].
  exists (pre ++ a), post. now rewrite !string_app_assoc.
Qed.

(** ** Table selection *)

Lemma append_missing_in extra found t :
  In t (append_missing extra found) <-> In t found \/ In t extra.
Proof.
  revert found. induction extra as [|g rest IH]; intros found; simpl; [tauto|].
  rewrite IH. destruct (str_mem g found) eqn:E.
  - apply str_mem_in in E. split; [tauto|]. intros [H | [<- | H]]; auto.
  - rewrite in_app_iff. simpl. tauto.
Qed.

Lemma append_missing_nodup extra found :
  NoDup found -> NoDup (append_missing extra found).
Proof.
  revert found. induction extra as [|g rest IH]; intros found Hnd; simpl; [exact Hnd|].
  apply IH. destruct (str_mem g found) eqn:E; [exact Hnd|].
  apply NoDup_app; [exact Hnd | repeat constructor; simpl; tauto |].
  intros x Hx [<- | []]. apply str_mem_in in Hx. congruence.
Qed.

Lemma distinctb_nodup l : distinctb l = true -> NoDup l.
Proof.
  induction l as [|x r IH]; simpl; [constructor|].
  rewrite andb_true_iff, negb_true_iff. intros [Hx Hr].
  constructor; [|now apply IH]. intros Hin. apply str_mem_in in Hin. congruence.
Qed.

Lemma common_tables_nodup : NoDup common_tables.
Proof. apply distinctb_nodup. reflexivity. Qed.

Lemma geographical_common t : In t geographical_tables -> In t common_tables.
Proof.
  assert (H : forallb (fun g => str_mem g common_tables) geographical_tables = true)
    by reflexivity.
  rewrite forallb_forall in H. intros Ht. apply str_mem_in. now apply H.
Qed.

Lemma geo_trigger_spec r :
  existsb (fun g => str_mem g (filter (fun t => contains t (lower r)) common_tables))
          ["villages"; "village_potentials"] = true
  <-> geo_triggered r.
Proof.
  unfold geo_triggered. cbn [existsb]. rewrite orb_false_r, orb_true_iff.
  rewrite !str_mem_in, !filter_In.
  assert (H1 : In "villages" common_tables) by (apply str_mem_in; reflexivity).
  assert (H2 : In "village_potentials" common_tables) by (apply str_mem_in; reflexivity).
  tauto.
Qed.

Lemma extract_table_names_nodup response_content :
  NoDup (extract_table_names response_content).
Proof.
  unfold extract_table_names. destruct (existsb _ _).
  - apply append_missing_nodup. apply NoDup_filter, common_tables_nodup.
  - apply NoDup_filter, common_tables_nodup.
Qed.

(** X1.  Whatever the assistant answers, [extract_table_names] returns names of
    the twelve tables it looks for, none of them twice: the geographical
    chain is appended only where it is missing, so the list never has more
    than twelve entries. *)
Theorem extract_table_names_distinct_known (response_content : string) :
  NoDup (extract_table_names response_content)
  /\ (forall t, In t (extract_table_names response_content) -> In t common_tables)
  /\ List.length (extract_table_names response_content) <= 12.
Proof.
  pose proof (extract_table_names_nodup response_content) as Hnd.
  assert (Hin : forall t, In t (extract_table_names response_content) -> In t common_tables).
  { intros t. unfold extract_table_names. destruct (existsb _ _).
    - rewrite append_missing_in, filter_In. intros [[H _] | H]; [exact H|].
      now apply geographical_common.
    - rewrite filter_In. tauto. }
  split; [exact Hnd|]. split; [exact Hin|].
  change 12 with (List.length common_tables).
  apply NoDup_incl_length; [exact Hnd | exact Hin].
Qed.

Lemma extract_table_names_in response_content u :
  In u (extract_table_names response_content) <->
     (In u common_tables /\ contains u (lower response_content) = true)
     \/ (geo_triggered response_content /\ In u geographical_tables).
Proof.
  unfold extract_table_names.
  destruct (existsb _ _) eqn:E.
  - apply geo_trigger_spec in E. rewrite append_missing_in, filter_In. tauto.
  - rewrite filter_In. split; [tauto|]. intros [H | [H _]]; [exact H|].
    apply geo_trigger_spec in H. congruence.
Qed.

(** X2.  A table is in the list [extract_table_names] returns exactly when the
    lower-cased answer contains its name, or the answer contains one of the
    two village tables and the table belongs to the geographical chain.  The
    test is containment, not a word match: an answer naming [subdistricts]
    always yields [districts] as well. *)
Theorem extract_table_names_membership (response_content t : string) :
  (In t (extract_table_names response_content) <->
     (In t common_tables /\ contains t (lower response_content) = true)
     \/ (geo_triggered response_content /\ In t geographical_tables))
  /\ (In "subdistricts" (extract_table_names response_content) ->
      In "districts" (extract_table_names response_content)).
Proof.
  split; [apply extract_table_names_in|].
  rewrite !extract_table_names_in. intros [[_ H] | [H _]].
  - left. split; [apply str_mem_in; reflexivity|].
    now apply (contains_suffix "sub" "districts").
  - right. split; [exact H | apply str_mem_in; reflexivity].
Qed.

Lemma any_in_spec words text :
  any_in words text = true <-> exists w, In w words /\ contains w text = true.
Proof. unfold any_in. apply existsb_exists. Qed.

Lemma koperasi_rule text :
  any_in ["koperasi"; "cooperative"; "berapa koperasi"; "jumlah koperasi"] text = true
  <-> contains "koperasi" text = true \/ contains "cooperative" text = true.
Proof.
  rewrite any_in_spec. split.
  - intros [w [[<- | [<- | [<- | [<- | []]]]] H]].
    + now left.
    + now right.
    + left. now apply (contains_suffix "berapa " "koperasi").
    + left. now apply (contains_suffix "jumlah " "koperasi").
  - intros [H | H]; [exists "koperasi" | exists "cooperative"];
      (split; [apply str_mem_in; reflexivity | exact H]).
Qed.

Lemma get_fallback_tables_cases question :
  In (get_fallback_tables question)
     [["cooperatives"; "provinces"]; ["provinces"; "districts"; "cooperatives"];
      ["users"; "user_roles"]; ["news"]; ["cooperatives"; "provinces"; "users"]].
Proof.
  unfold get_fallback_tables.
  destruct (any_in ["koperasi"; "cooperative"; "berapa koperasi"; "jumlah koperasi"] _);
    [|destruct (any_in ["provinsi"; "daerah"; "wilayah"] _);
      [|destruct (any_in ["user"; "pengguna"; "anggota"] _);
        [|destruct (any_in ["berita"; "news"] _)]]]; cbn [In]; auto 10.
Qed.

Lemma get_fallback_tables_small question :
  get_fallback_tables question <> [] /\ NoDup (get_fallback_tables question)
  /\ List.length (get_fallback_tables question) <= 3.
Proof.
  pose proof (get_fallback_tables_cases question) as H. cbn [In] in H.
  destruct H as [<- | [<- | [<- | [<- | [<- | []]]]]];
    (split; [discriminate|]; split; [apply distinctb_nodup; reflexivity | simpl; lia]).
Qed.

(** X3.  [get_fallback_tables] never returns the empty list: it returns one to
    three distinct names.  The first rule wins and is decided by its first two
    keywords alone: the result is cooperatives and provinces exactly when the
    lower-cased question contains koperasi or cooperative (the two longer
    keywords of that rule both contain koperasi). *)
Theorem get_fallback_tables_never_empty (question : string) :
  get_fallback_tables question <> []
  /\ NoDup (get_fallback_tables question)
  /\ List.length (get_fallback_tables question) <= 3
  /\ (get_fallback_tables question = ["cooperatives"; "provinces"] <->
      contains "koperasi" (lower question) = true
      \/ contains "cooperative" (lower question) = true).
Proof.
  rewrite <- koperasi_rule. unfold get_fallback_tables.
  destruct (any_in ["koperasi"; "cooperative"; "berapa koperasi"; "jumlah koperasi"] _);
    [|destruct (any_in ["provinsi"; "daerah"; "wilayah"] _);
      [|destruct (any_in ["user"; "pengguna"; "anggota"] _);
        [|destruct (any_in ["berita"; "news"] _)]]].
  all: split; [discriminate|]; split; [apply distinctb_nodup; reflexivity|];
    split; [simpl; lia|]; split; intros H; try reflexivity; discriminate H.
Qed.

(** ** The selector *)

Lemma poll_run_mono A fuel fuel' n status r :
  poll_run A fuel n status = Some r -> fuel <= fuel' ->
  poll_run A fuel' n status = Some r.
Proof.
  revert fuel' n status. induction fuel as [|fuel IH]; intros fuel' n status H Hle.
  - destruct fuel'; simpl in *; destruct (is_pending status); congruence.
  - destruct fuel' as [|fuel']; [lia|]. simpl in *.
    destruct (is_pending status); [|exact H].
    destruct (runs_retrieve A n); [|exact H]. apply IH; [exact H | lia].
Qed.

Lemma vector_store_lookup_mono A question m fuel fuel' r :
  vector_store_lookup A question m fuel = Some r -> fuel <= fuel' ->
  vector_store_lookup A question m fuel' = Some r.
Proof.
  unfold vector_store_lookup. intros H Hle.
  destruct (threads_create A); [|exact H].
  destruct (messages_create A question); [|exact H].
  destruct (String.eqb (SCHEMA_ASSISTANT_ID A) ""); [exact H|].
  destruct (runs_create A) as [status0|]; [|exact H].
  destruct (poll_run A fuel 0 status0) as [p|] eqn:E; [|discriminate].
  now rewrite (poll_run_mono A fuel fuel' 0 status0 p E Hle).
Qed.

Lemma firstn_in {A} n (l : list A) x : In x (firstn n l) -> In x l.
Proof.
  revert n. induction l as [|y l IH]; intros n; destruct n; simpl; try tauto.
  intros [H | H]; [now left | right; now apply (IH n)].
Qed.

Lemma firstn_nodup {A} n (l : list A) : NoDup l -> NoDup (firstn n l).
Proof.
  revert n. induction l as [|x l IH]; intros n Hnd; destruct n; simpl; try constructor.
  - inversion Hnd; subst. intros Hin. apply firstn_in in Hin. contradiction.
  - inversion Hnd; subst. now apply IH.
Qed.

Lemma slice_to_nodup {A} (m : Z) (l : list A) : NoDup l -> NoDup (slice_to m l).
Proof. intros H. unfold slice_to. destruct (0 <=? m)%Z; now apply firstn_nodup. Qed.

Lemma slice_to_length {A} (m : Z) (l : list A) :
  (0 <= m)%Z -> (Z.of_nat (List.length (slice_to m l)) <= m)%Z.
Proof. intros H. rewrite slice_to_nonneg by exact H. rewrite length_firstn. lia. Qed.

(** What the lookup returns when it returns a list. *)
Lemma vector_store_lookup_ok A question m fuel tables :
  vector_store_lookup A question m fuel = Some (Ok tables) ->
  tables = get_fallback_tables question
  \/ exists answer, first_message_text A = Ok answer
                    /\ tables = slice_to m (extract_table_names answer).
Proof.
  unfold vector_store_lookup.
  destruct (threads_create A); [|discriminate].
  destruct (messages_create A question); [|discriminate].
  destruct (String.eqb (SCHEMA_ASSISTANT_ID A) ""); [discriminate|].
  destruct (runs_create A) as [status0|]; [|discriminate].
  destruct (poll_run A fuel 0 status0) as [[status|]|]; try discriminate.
  destruct (String.eqb status "completed").
  - destruct (first_message_text A) as [answer|]; [|discriminate].
    intros H. inversion H. right. now exists answer.
  - intros H. inversion H. now left.
Qed.

Lemma search_relevant_tables_via_cases A question m fuel tables :
  search_relevant_tables_via A question m fuel = Some tables ->
  tables = get_fallback_tables question
  \/ exists answer, first_message_text A = Ok answer
                    /\ tables = slice_to m (extract_table_names answer).
Proof.
  unfold search_relevant_tables_via.
  destruct (vector_store_lookup A question m fuel) as [[l|e]|] eqn:E; try discriminate.
  - intros H. inversion H; subst. now apply (vector_store_lookup_ok A question m fuel).
  - intros H. inversion H. now left.
Qed.

(** X4.  With a cap of at least three tables, a call of
    [search_relevant_tables] that returns gives distinct names, no more than
    the cap, whichever branch produced them (the assistant's answer or the
    keyword fallback); and once the run has left the pending states within
    some number of polls, allowing more polls gives the same list. *)
Theorem search_relevant_tables_bounded (A : assistant_api) (question : string)
  (max_tables : Z) (fuel : nat) (tables : list string) :
  (3 <= max_tables)%Z ->
  search_relevant_tables_via A question max_tables fuel = Some tables ->
  NoDup tables
  /\ (Z.of_nat (List.length tables) <= max_tables)%Z
  /\ (forall fuel', fuel <= fuel' ->
        search_relevant_tables_via A question max_tables fuel' = Some tables).
Proof.
  intros Hm H. split; [|split].
  - destruct (search_relevant_tables_via_cases _ _ _ _ _ H) as [-> | [answer [_ ->]]].
    + apply get_fallback_tables_small.
    + apply slice_to_nodup, extract_table_names_nodup.
  - destruct (search_relevant_tables_via_cases _ _ _ _ _ H) as [-> | [answer [_ ->]]].
    + pose proof (get_fallback_tables_small question) as [_ [_ Hl]]. lia.
    + apply slice_to_length. lia.
  - intros fuel' Hle. unfold search_relevant_tables_via in *.
    destruct (vector_store_lookup A question max_tables fuel) as [r|] eqn:E; [|discriminate].
    now rewrite (vector_store_lookup_mono _ _ _ _ _ _ E Hle).
Qed.

Lemma search_relevant_tables_bounded_witness :
  search_relevant_tables_via (sample_assistant "Tabel: villages dan cooperatives") "q" 5 7
  = Some ["cooperatives"; "villages"; "provinces"; "districts"; "subdistricts"].
Proof.
  apply (proj2 (proj2 (search_relevant_tables_bounded
           (sample_assistant "Tabel: villages dan cooperatives") "q" 5 2
           ["cooperatives"; "villages"; "provinces"; "districts"; "subdistricts"]
           ltac:(lia) eq_refl))).
  lia.
Defined.

Lemma poll_run_final A fuel n status :
  is_pending status = false -> poll_run A fuel n status = Some (Ok status).
Proof. intros H. destruct fuel; simpl; now rewrite H. Qed.

Lemma poll_run_settles A d :
  forall fuel n status r,
    is_pending status = true ->
    (forall i, i < d -> exists s, runs_retrieve A (n + i) = Ok s /\ is_pending s = true) ->
    runs_retrieve A (n + d) = r ->
    (forall s, r = Ok s -> is_pending s = false) ->
    d < fuel ->
    poll_run A fuel n status = Some r.
Proof.
  induction d as [|d IH]; intros fuel n status r Hp Hpre Hr Hfin Hlt.
  - destruct fuel as [|fuel]; [lia|]. simpl. rewrite Hp.
    rewrite Nat.add_0_r in Hr. rewrite Hr.
    destruct r as [s|e]; [|reflexivity]. apply poll_run_final. now apply Hfin.
  - destruct fuel as [|fuel]; [lia|]. simpl. rewrite Hp.
    destruct (Hpre 0) as [s [Hs Hsp]]; [lia|]. rewrite Nat.add_0_r in Hs. rewrite Hs.
    apply IH; [exact Hsp | | | exact Hfin | lia].
    + intros i Hi. destruct (Hpre (S i)) as [s' Hs']; [lia|].
      exists s'. now replace (S n + i) with (n + S i) by lia.
    + now replace (S n + d) with (n + S d) by lia.
Qed.

Lemma settles_poll_run A polls r fuel :
  settles A polls r -> polls <= fuel ->
  match runs_create A with
  | Raise e => r = Raise e
  | Ok status0 => poll_run A fuel 0 status0 = Some r
  end.
Proof.
  intros [Hpre [Hr Hfin]] Hle. destruct polls as [|p].
  - simpl in Hr. rewrite Hr. destruct r as [s|e]; [|reflexivity].
    apply poll_run_final. now apply Hfin.
  - destruct (Hpre 0) as [s0 [Hs0 Hp0]]; [lia|]. simpl in Hs0. rewrite Hs0.
    apply (poll_run_settles A p); [exact Hp0 | | exact Hr | exact Hfin | lia].
    intros i Hi. apply (Hpre (S i)). lia.
Qed.

Lemma lookup_settled A question m polls r fuel :
  threads_create A = Ok tt -> messages_create A question = Ok tt ->
  SCHEMA_ASSISTANT_ID A <> EmptyString ->
  settles A polls r -> polls <= fuel ->
  vector_store_lookup A question m fuel
  = Some match r with
         | Raise e => Raise e
         | Ok status =>
             if String.eqb status "completed" then
               match first_message_text A with
               | Raise e => Raise e
               | Ok response_content =>
                   Ok (slice_to m (extract_table_names response_content))
               end
             else Ok (get_fallback_tables question)
         end.
Proof.
  intros Ht Hm Hid Hs Hle. unfold vector_store_lookup. rewrite Ht, Hm.
  destruct (String.eqb_spec (SCHEMA_ASSISTANT_ID A) "") as [E|_]; [contradiction|].
  pose proof (settles_poll_run A polls r fuel Hs Hle) as H.
  destruct (runs_create A) as [status0|e0].
  - rewrite H. destruct r as [status|e]; [|reflexivity].
    destruct (String.eqb status "completed"); [|reflexivity].
    destruct (first_message_text A); reflexivity.
  - now subst r.
Qed.

(** X5.  [search_relevant_tables] lets no failure of the assistant service
    out.  With no assistant id configured, with a raising thread or message
    creation, with a run creation or a poll that raises, with a run that ends,
    after any number of polls, in a status other than completed, or with a
    completed run whose messages cannot be read, the result is the keyword
    fallback for the question, whatever the cap, as soon as the polls allowed
    reach the failure.  And whenever the wait ends at all, by a final status
    or by an exception, the call returns a list. *)
Theorem search_relevant_tables_falls_back (A : assistant_api) (question : string)
  (polls : nat) (max_tables : Z) (fuel : nat) :
  polls <= fuel ->
  (assistant_fails A question polls ->
   search_relevant_tables_via A question max_tables fuel
   = Some (get_fallback_tables question))
  /\ (forall r, settles A polls r ->
      exists tables, search_relevant_tables_via A question max_tables fuel = Some tables).
Proof.
  intros Hle.
  assert (Hearly :
    (SCHEMA_ASSISTANT_ID A = EmptyString
     \/ (exists e, threads_create A = Raise e)
     \/ (exists e, messages_create A question = Raise e)) ->
    search_relevant_tables_via A question max_tables fuel
    = Some (get_fallback_tables question)).
  { intros H. unfold search_relevant_tables_via, vector_store_lookup.
    destruct (threads_create A) as [[]|e0]; [|reflexivity].
    destruct (messages_create A question) as [[]|e1]; [|reflexivity].
    destruct (String.eqb_spec (SCHEMA_ASSISTANT_ID A) "") as [Hid|Hid]; [reflexivity|].
    destruct H as [H | [[e H] | [e H]]]; [contradiction | discriminate | discriminate]. }
  assert (Hlate : forall r, settles A polls r ->
    threads_create A = Ok tt -> messages_create A question = Ok tt ->
    SCHEMA_ASSISTANT_ID A <> EmptyString ->
    search_relevant_tables_via A question max_tables fuel
    = Some match r with
           | Raise _ => get_fallback_tables question
           | Ok status =>
               if String.eqb status "completed" then
                 match first_message_text A with
                 | Raise _ => get_fallback_tables question
                 | Ok response_content =>
                     slice_to max_tables (extract_table_names response_content)
                 end
               else get_fallback_tables question
           end).
  { intros r Hs Ht Hm Hid. unfold search_relevant_tables_via.
    rewrite (lookup_settled A question max_tables polls r fuel Ht Hm Hid Hs Hle).
    destruct r as [status|e]; [|reflexivity].
    destruct (String.eqb status "completed"); [|reflexivity].
    destruct (first_message_text A); reflexivity. }
  assert (Hsplit :
    (SCHEMA_ASSISTANT_ID A = EmptyString
     \/ (exists e, threads_create A = Raise e)
     \/ (exists e, messages_create A question = Raise e))
    \/ (threads_create A = Ok tt /\ messages_create A question = Ok tt
        /\ SCHEMA_ASSISTANT_ID A <> EmptyString)).
  { destruct (threads_create A) as [[]|e0]; [|left; right; left; now exists e0].
    destruct (messages_create A question) as [[]|e1];
      [|left; right; right; now exists e1].
    destruct (String.eqb_spec (SCHEMA_ASSISTANT_ID A) "") as [Hid|Hid];
      [left; now left | right; auto]. }
  split.
  - intros H. destruct Hsplit as [He | [Ht [Hm Hid]]]; [now apply Hearly|].
    destruct H as [H | [[e H] | [[e H] | [[e H] | [[status [H Hc]] | [H [e He]]]]]]];
      try congruence.
    + now rewrite (Hlate _ H Ht Hm Hid).
    + now rewrite (Hlate _ H Ht Hm Hid), Hc.
    + rewrite (Hlate _ H Ht Hm Hid). simpl. now rewrite He.
  - intros r Hs. destruct Hsplit as [He | [Ht [Hm Hid]]].
    + eexists. now apply Hearly.
    + eexists. now apply (Hlate r Hs).
Qed.

Lemma search_relevant_tables_falls_back_witness :
  search_relevant_tables_via failing_assistant "daftar berita" 5 2 = Some ["news"].
Proof.
  apply (proj1 (search_relevant_tables_falls_back failing_assistant "daftar berita"
                  2 5 2 (le_n 2))).
  right. right. right. right. left. exists "failed". split; [|reflexivity].
  split; [|split].
  - intros i Hi. destruct i as [|[|i]]; [| |lia].
    + exists "queued". split; reflexivity.
    + exists "in_progress". split; reflexivity.
  - reflexivity.
  - intros s H. inversion H. reflexivity.
Defined.

Lemma firstn_nil_inv {A} n (l : list A) : firstn (S n) l = [] -> l = [].
Proof. destruct l; [reflexivity | discriminate]. Qed.

(** X6.  With a cap of at least one table, [search_relevant_tables] returns
    the empty list only when the run completed and the assistant's answer
    contains none of the twelve table names: the keyword fallback never
    yields it. *)
Theorem search_relevant_tables_empty_selection (A : assistant_api) (question : string)
  (max_tables : Z) (fuel : nat) :
  (1 <= max_tables)%Z ->
  search_relevant_tables_via A question max_tables fuel = Some [] ->
  exists answer,
    first_message_text A = Ok answer
    /\ forall t, In t common_tables -> contains t (lower answer) = false.
Proof.
  intros Hm H.
  destruct (search_relevant_tables_via_cases _ _ _ _ _ H) as [E | [answer [Ha E]]].
  - exfalso. now apply (get_fallback_tables_small question).
  - exists answer. split; [exact Ha|]. symmetry in E.
    unfold slice_to in E. destruct (Z.leb_spec 0 max_tables) as [_|Hneg]; [|lia].
    destruct (Z.to_nat max_tables) as [|k] eqn:Hk; [lia|].
    apply firstn_nil_inv in E.
    intros t Ht. destruct (contains t (lower answer)) eqn:C; [|reflexivity].
    exfalso. assert (Hin : In t (extract_table_names answer))
      by (apply extract_table_names_in; auto).
    rewrite E in Hin. destruct Hin.
Qed.

Lemma search_relevant_tables_empty_selection_witness :
  exists answer,
    first_message_text (sample_assistant "Tidak ada tabel yang cocok.") = Ok answer
    /\ forall t, In t common_tables -> contains t (lower answer) = false.
Proof.
  apply (search_relevant_tables_empty_selection
           (sample_assistant "Tidak ada tabel yang cocok.") "apa kabar" 5 3).
  - lia.
  - reflexivity.
Defined.

(** ** What the enforcer accepts *)

Lemma check_quoted_none schema ids :
  check_quoted schema ids = None <-> Forall (exact_column schema) ids.
Proof.
  induction ids as [|i ids IH]; simpl.
  - split; [constructor | reflexivity].
  - destruct (is_valid_column schema i) eqn:E.
    + rewrite IH. apply is_valid_column_spec in E. split.
      * intros H. now constructor.
      * intros H. now inversion H.
    + split; [discriminate|]. intros H. inversion H; subst.
      apply is_valid_column_spec in H2. congruence.
Qed.

Lemma check_bare_none al vt vc ids :
  check_bare al vt vc ids = None <-> Forall (fun i => bare_ok al vt vc i = true) ids.
Proof.
  induction ids as [|i ids IH]; simpl.
  - split; [constructor | reflexivity].
  - destruct (bare_ok al vt vc i) eqn:E.
    + rewrite IH. split; [intros H; now constructor | intros H; now inversion H].
    + split; [discriminate|]. intros H. inversion H; subst. congruence.
Qed.

Lemma check_tables_none vt ts :
  check_tables vt ts = None <-> Forall (fun t => In (lower t) vt) ts.
Proof.
  induction ts as [|t ts IH]; simpl.
  - split; [constructor | reflexivity].
  - destruct (str_mem (lower t) vt) eqn:E.
    + rewrite IH. apply str_mem_in in E. split;
        [intros H; now constructor | intros H; now inversion H].
    + split; [discriminate|]. intros H. inversion H; subst.
      apply str_mem_in in H2. congruence.
Qed.

Lemma bare_ok_spec schema sql i :
  bare_ok (extract_table_aliases sql (valid_tables schema)) (valid_tables schema)
          (valid_columns schema) i = true
  <-> bare_allowed schema sql i.
Proof.
  unfold bare_ok, bare_allowed. cbv zeta.
  rewrite <- !str_mem_in.
  destruct (str_mem (lower i) sql_keywords); [tauto|].
  destruct (str_mem (lower i) sql_functions); [tauto|].
  destruct (str_mem (lower i) (extract_table_aliases sql (valid_tables schema))); [tauto|].
  rewrite orb_true_iff. intuition discriminate.
Qed.

Lemma Forall_iff {A} (P Q : A -> Prop) l :
  (forall x, P x <-> Q x) -> Forall P l <-> Forall Q l.
Proof.
  intros H. split; intros HF; eapply Forall_impl; try exact HF; intros x; apply H.
Qed.

Lemma enforce_accepted schema sql :
  fst (enforce_schema_strictly sql schema) = true <->
  Forall (exact_column schema) (quoted_identifiers sql)
  /\ Forall (bare_allowed schema sql) (potential_identifiers sql)
  /\ Forall (known_table schema) (table_operands sql).
Proof.
  rewrite <- check_quoted_none.
  rewrite <- (Forall_iff _ _ _ (bare_ok_spec schema sql)), <- check_bare_none.
  unfold known_table, table_operands. rewrite <- check_tables_none.
  unfold enforce_schema_strictly.
  destruct (check_quoted schema (quoted_identifiers sql)); simpl;
    [split; [discriminate | intros [H _]; discriminate]|].
  destruct (check_bare _ _ _ (potential_identifiers sql)); simpl;
    [split; [discriminate | intros [_ [H _]]; discriminate]|].
  destruct (check_tables _ _); simpl;
    [split; [discriminate | intros [_ [_ H]]; discriminate] | tauto].
Qed.

Lemma enforce_report schema sql :
  (fst (enforce_schema_strictly sql schema) = true ->
   enforce_schema_strictly sql schema = (true, None))
  /\ (fst (enforce_schema_strictly sql schema) = false ->
      exists name, enforce_schema_strictly sql schema = (false, Some name)).
Proof.
  unfold enforce_schema_strictly.
  destruct (check_quoted schema (quoted_identifiers sql)); simpl;
    [split; [discriminate | eauto]|].
  destruct (check_bare _ _ _ (potential_identifiers sql)); simpl;
    [split; [discriminate | eauto]|].
  destruct (check_tables _ _); simpl; [split; [discriminate | eauto]|].
  split; [reflexivity | discriminate].
Qed.

(** X7.  [enforce_schema_strictly] accepts a statement exactly when every
    double-quoted identifier is a column name of the context by exact case,
    every unquoted identifier-like token outside the quoted spans is, in lower
    case, a keyword, a function, an alias of the statement, a table or a
    column, and every operand of FROM or JOIN is, in lower case, a table of
    the context.  An accepted statement comes with no name, a rejected one
    always names an offending token. *)
Theorem enforce_schema_strictly_accepts_iff (schema : schema_summary) (sql : string) :
  (fst (enforce_schema_strictly sql schema) = true <->
     Forall (exact_column schema) (quoted_identifiers sql)
     /\ Forall (bare_allowed schema sql) (potential_identifiers sql)
     /\ Forall (known_table schema) (table_operands sql))
  /\ (fst (enforce_schema_strictly sql schema) = true ->
      enforce_schema_strictly sql schema = (true, None))
  /\ (fst (enforce_schema_strictly sql schema) = false ->
      exists name, enforce_schema_strictly sql schema = (false, Some name)).
Proof.
  split; [apply enforce_accepted | apply enforce_report].
Qed.

(** *** A larger context accepts more *)

Lemma valid_tables_incl schema schema' x :
  schema_incl schema schema' -> In x (valid_tables schema) -> In x (valid_tables schema').
Proof.
  unfold valid_tables. intros Hi Hx. apply in_map_iff in Hx. destruct Hx as [t [<- Ht]].
  apply (in_map (fun t => lower (table t))). now apply Hi.
Qed.

Lemma valid_columns_incl schema schema' x :
  schema_incl schema schema' -> In x (valid_columns schema) -> In x (valid_columns schema').
Proof.
  unfold valid_columns. intros Hi Hx. apply in_flat_map in Hx.
  destruct Hx as [t [Ht Hx]]. apply in_flat_map. exists t. split; [now apply Hi | exact Hx].
Qed.

Lemma aliases_of_in vt ms a :
  In a (aliases_of vt ms) <->
  exists m, In m ms /\ In (lower (fst m)) vt /\ a = lower (snd m).
Proof.
  unfold aliases_of. rewrite in_map_iff. split.
  - intros [m [<- Hm]]. apply filter_In in Hm. destruct Hm as [Hm Hv].
    exists m. rewrite <- str_mem_in. auto.
  - intros [m [Hm [Hv ->]]]. exists m. split; [reflexivity|].
    apply filter_In. rewrite str_mem_in. auto.
Qed.

Lemma aliases_incl sql vt vt' a :
  (forall x, In x vt -> In x vt') ->
  In a (extract_table_aliases sql vt) -> In a (extract_table_aliases sql vt').
Proof.
  intros Hi. unfold extract_table_aliases. rewrite !in_app_iff, !aliases_of_in.
  intros [[m H] | [[m H] | [m H]]]; [left | right; left | right; right];
    exists m; intuition auto.
Qed.

Lemma exact_column_incl schema schema' q :
  schema_incl schema schema' -> exact_column schema q -> exact_column schema' q.
Proof. intros Hi [t [col [Ht H]]]. exists t, col. split; [now apply Hi | exact H]. Qed.

Lemma enforce_larger_context (schema schema' : schema_summary) (sql : string) :
  schema_incl schema schema' ->
  fst (enforce_schema_strictly sql schema) = true ->
  enforce_schema_strictly sql schema' = (true, None).
Proof.
  intros Hi H. apply enforce_report. apply enforce_accepted.
  apply enforce_accepted in H. destruct H as [Hq [Hb Ht]]. split; [|split].
  - eapply Forall_impl; [|exact Hq]. intros q. now apply exact_column_incl.
  - eapply Forall_impl; [|exact Hb]. intros i. unfold bare_allowed. cbv zeta.
    intros [H | [H | [H | [H | H]]]]; auto.
    + right; right; left. eapply aliases_incl; [|exact H].
      intros x. now apply valid_tables_incl.
    + right; right; right; left. now apply (valid_tables_incl schema).
    + right; right; right; right. now apply (valid_columns_incl schema).
  - eapply Forall_impl; [|exact Ht]. intros t. unfold known_table.
    now apply valid_tables_incl.
Qed.

(** X8.  Acceptance by [enforce_schema_strictly] is monotone in the context:
    a statement accepted for a context is accepted for every context that
    has at least the same table descriptors. *)
Theorem enforce_schema_strictly_monotone (schema schema' : schema_summary) (sql : string) :
  schema_incl schema schema' ->
  fst (enforce_schema_strictly sql schema) = true ->
  enforce_schema_strictly sql schema' = (true, None).
Proof. exact (enforce_larger_context schema schema' sql). Qed.

Lemma enforce_schema_strictly_monotone_witness :
  enforce_schema_strictly "SELECT c.name FROM cooperatives c"
    (sample_schema ++ [{| table := "provinces"; description := None;
                          columns := ["province_id (bigint): "];
                          sample_rows := [] |}])%list
  = (true, None).
Proof.
  apply (enforce_schema_strictly_monotone sample_schema).
  - intros t Ht. apply in_or_app. now left.
  - reflexivity.
Defined.

(** *** Quoted identifiers that can never match *)

Lemma split_first_no_sep sep s : no_char sep (split_first sep s).
Proof.
  unfold no_char. induction s as [|c r IH]; simpl; [tauto|].
  destruct (Ascii.eqb_spec c sep) as [->|Hne]; simpl; [tauto|].
  intros [H | H]; [congruence | now apply IH].
Qed.

Lemma split_first_keeps_no_char sep x s : no_char x s -> no_char x (split_first sep s).
Proof.
  unfold no_char. induction s as [|c r IH]; simpl; [tauto|].
  destruct (Ascii.eqb c sep); simpl; [tauto|].
  intros Hn [H | H]; [apply Hn; now left | apply IH; [|exact H]].
  intros Hr. apply Hn. now right.
Qed.

Lemma col_name_plain col : plain_name (col_name col).
Proof.
  unfold plain_name, col_name. split.
  - apply split_first_keeps_no_char, split_first_no_sep.
  - apply split_first_no_sep.
Qed.

(** X9.  A double-quoted identifier that contains a space or an opening
    parenthesis is rejected for every context: the column names the enforcer
    compares with are cut at the first space and then at the first opening
    parenthesis, so none of them can equal it. *)
Theorem quoted_identifier_with_space_rejected (schema : schema_summary) (sql q : string) :
  In q (quoted_identifiers sql) ->
  In " "%char (chars q) \/ In "("%char (chars q) ->
  fst (enforce_schema_strictly sql schema) = false.
Proof.
  intros Hin Hbad.
  destruct (fst (enforce_schema_strictly sql schema)) eqn:E; [|reflexivity].
  exfalso. apply enforce_accepted in E. destruct E as [Hq _].
  rewrite Forall_forall in Hq. destruct (Hq q Hin) as [t [col [_ [_ Hc]]]].
  pose proof (col_name_plain col) as [H1 H2]. rewrite Hc in H1, H2.
  destruct Hbad; [now apply H1 | now apply H2].
Qed.

Lemma quoted_identifier_with_space_rejected_witness :
  fst (enforce_schema_strictly
         ("SELECT COUNT(*) AS " ++ quoted "Total Koperasi" ++ " FROM cooperatives")
         sample_schema) = false.
Proof.
  apply (quoted_identifier_with_space_rejected sample_schema _ "Total Koperasi").
  - vm_compute. auto.
  - left. vm_compute. auto 10.
Defined.

(** ** The safety validator and letter case *)

Lemma eqb_semicolon_blind : case_blind (Ascii.eqb ";").
Proof. apply case_blindb_sound. vm_compute. reflexivity. Qed.

Lemma eqb_dash_blind : case_blind (Ascii.eqb "-").
Proof. apply case_blindb_sound. vm_compute. reflexivity. Qed.

Lemma related_search {A} (R : A -> A -> Prop) m :
  related R m m ->
  forall s s' pv pv', ci_opt pv pv' -> lower s = lower s' ->
    search_from m pv s = search_from m pv' s'.
Proof.
  intros Hm. induction s as [|c r IH]; intros [|c' r'] pv pv' Hpv Hs;
    simpl in Hs; try discriminate; simpl.
  - specialize (Hm (pv, EmptyString) (pv', EmptyString) (conj Hpv eq_refl)).
    destruct (m (pv, EmptyString)) as [[? ?]|], (m (pv', EmptyString)) as [[? ?]|];
      tauto.
  - inversion Hs as [[Hc Hr]].
    assert (Hcur : ci_cursor (pv, String c r) (pv', String c' r'))
      by (split; simpl; [exact Hpv | now rewrite Hc, Hr]).
    specialize (Hm _ _ Hcur).
    destruct (m (pv, String c r)) as [[? ?]|], (m (pv', String c' r')) as [[? ?]|];
      try tauto.
    now apply IH.
Qed.

Lemma related_word_ci kw : related (fun _ _ => True) (word_ci kw) (word_ci kw).
Proof.
  unfold word_ci.
  eapply related_bind; [apply related_bnd|]. intros _ _ _.
  eapply related_bind; [apply related_lit_ci|]. intros _ _ _.
  apply related_bnd.
Qed.

Lemma related_forbidden : related (fun _ _ => True) _FORBIDDEN_RE _FORBIDDEN_RE.
Proof.
  unfold _FORBIDDEN_RE. apply related_alt. constructor; [|constructor].
  - apply related_lit_with. intros x [<- | []]. apply eqb_semicolon_blind.
  - apply related_lit_with. intros x [<- | [<- | []]]; apply eqb_dash_blind.
  - apply Forall_forall. intros m Hm. apply in_map_iff in Hm.
    destruct Hm as [kw [<- _]]. apply related_word_ci.
Qed.

Lemma related_select_only : related (fun _ _ => True) _SELECT_ONLY_RE _SELECT_ONLY_RE.
Proof.
  unfold _SELECT_ONLY_RE.
  eapply related_bind; [apply related_many, is_space_blind|]. intros _ _ _.
  eapply related_bind; [apply related_lit_ci|]. intros _ _ _.
  eapply related_bind; [apply related_chr, is_space_blind|]. intros _ _ _.
  now apply related_ret.
Qed.

(** X10.  On text over the code points 0 to 255, which is the text of this
    development, [validate_sql] looks at letters up to case only: two
    statements with the same lower-cased text get the same verdict.  (Beyond
    that range a character can lower-case to several, and the property is
    not claimed.) *)
Theorem validate_sql_ignores_case (sql sql' : string) :
  lower sql = lower sql' -> validate_sql sql = validate_sql sql'.
Proof.
  intros H. unfold validate_sql.
  pose proof (related_select_only (None, sql) (None, sql') (conj I H)) as Hs.
  unfold search. rewrite (related_search _ _ related_forbidden sql sql' None None I H).
  destruct (_SELECT_ONLY_RE (None, sql)) as [[? ?]|],
           (_SELECT_ONLY_RE (None, sql')) as [[? ?]|]; try tauto; reflexivity.
Qed.

Lemma validate_sql_ignores_case_witness :
  validate_sql "select name from cooperatives where name = 'Update'"
  = validate_sql "SELECT name FROM cooperatives WHERE name = 'UPDATE'".
Proof. apply validate_sql_ignores_case. reflexivity. Defined.

(** ** The pipeline, stage by stage *)

(** Every run that returns ended in one of the five stages. *)
Lemma run_query_pipeline_stages W question resp :
  run_query_pipeline W question = Ok resp ->
  exists v raw_sql,
    ask_llm_for_sql W 0 question = Ok v /\ candidate_of v = Ok raw_sql
    /\ pipeline_stage W question raw_sql resp.
Proof.
  unfold run_query_pipeline, rbind. intros H.
  destruct (ask_llm_for_sql W 0 question) as [v|] eqn:Ha; [|discriminate].
  destruct (candidate_of v) as [raw_sql|] eqn:Hc; [|discriminate].
  exists v, raw_sql. split; [reflexivity|]. split; [exact Hc|].
  destruct (contains "Gagal generate SQL yang valid" raw_sql
            || contains "Data tidak tersedia" raw_sql) eqn:Hs.
  { inversion H. now apply stage_error_reply. }
  destruct (build_schema_summary W (Some (search_relevant_tables W question)))
    as [schema|] eqn:Hb; [|discriminate].
  destruct (validate_sql raw_sql) eqn:Hv; simpl in H.
  2:{ inversion H. now apply (stage_unsafe W question raw_sql schema). }
  pose proof (enforce_report schema raw_sql) as [Hyes Hno].
  destruct (enforce_schema_strictly raw_sql schema) as [[|] name] eqn:He.
  - specialize (Hyes eq_refl). inversion Hyes; subst name.
    unfold execute_read_query in H.
    destruct (db_execute W raw_sql) as [[columns fetched]|e] eqn:Hd.
    + simpl in H.
      change (map serialize_row (map (row_of columns) (slice_to (MAX_ROWS W) fetched)))
        with (shaped_rows columns fetched (MAX_ROWS W)) in H.
      destruct (summarize_for_minister W question _) as [text|] eqn:Hsum; [|discriminate].
      inversion H. now apply (stage_success W question raw_sql schema).
    + inversion H. now apply (stage_execution_failed W question raw_sql schema).
  - destruct (Hno eq_refl) as [n Hn]. inversion Hn; subst name.
    inversion H. now apply (stage_unknown_name W question raw_sql schema).
Qed.

(** X11.  [run_query_pipeline] sends a statement to the database only after
    both validators passed: a response that comes after execution (the
    success response, or the error Query execution failed) carries a statement
    that [validate_sql] accepts, that is not one of the two error replies, and
    that [enforce_schema_strictly] accepts for the context built for the
    tables selected for the question. *)
Theorem run_query_pipeline_executes_only_validated (W : services) (question : string)
  (resp : response) :
  run_query_pipeline W question = Ok resp ->
  after_execution resp ->
  validate_sql (generated_sql_of resp) = true
  /\ is_error_reply (generated_sql_of resp) = false
  /\ exists schema,
       build_schema_summary W (Some (search_relevant_tables W question)) = Ok schema
       /\ enforce_schema_strictly (generated_sql_of resp) schema = (true, None).
Proof.
  intros H Hex.
  destruct (run_query_pipeline_stages W question resp H) as [v [raw_sql [_ [_ Hst]]]].
  destruct Hst; simpl in Hex; try discriminate Hex; simpl; eauto.
Qed.

Lemma run_query_pipeline_executes_only_validated_witness :
  validate_sql "SELECT id, name FROM cooperatives" = true
  /\ is_error_reply "SELECT id, name FROM cooperatives" = false
  /\ exists schema,
       build_schema_summary (sample_services (sql_completion "SELECT id, name FROM cooperatives;"))
         (Some ["cooperatives"; "users"]) = Ok schema
       /\ enforce_schema_strictly "SELECT id, name FROM cooperatives" schema = (true, None).
Proof.
  exact (run_query_pipeline_executes_only_validated
           (sample_services (sql_completion "SELECT id, name FROM cooperatives;"))
           "daftar koperasi"
           (SuccessResponse "Terdapat tiga koperasi." ["id"; "name"]
              [[PyStr "1"; PyStr "Maju"]; [PyStr "2"; PyStr "Jaya"];
               [PyStr "3"; PyStr "Makmur"]] 3 "SELECT id, name FROM cooperatives")
           eq_refl I).
Defined.

Lemma safe_serialize_serialized v : serialized (safe_serialize v).
Proof. destruct v; simpl; unfold serialized; eauto. Qed.

Lemma serialize_row_values r : Forall serialized (dict_values (serialize_row r)).
Proof.
  unfold dict_values, serialize_row. rewrite map_map. simpl.
  induction r as [|kv r IH]; simpl; constructor; [apply safe_serialize_serialized | exact IH].
Qed.

Lemma serialize_row_aligned columns (r : list pyval) :
  NoDup columns -> List.length r = List.length columns ->
  dict_values (serialize_row (row_of columns r)) = map safe_serialize r.
Proof.
  intros Hnd Hlen. destruct (row_of_aligned columns r Hnd Hlen) as [_ Hv].
  unfold dict_values, serialize_row in *. rewrite map_map. simpl.
  rewrite <- Hv at 2. now rewrite map_map.
Qed.

(** X12.  In a success response of [run_query_pipeline] the statement was
    executed, [row_count] is the number of rows returned, which is the number
    of fetched rows after the cap [MAX_ROWS] (so at most [MAX_ROWS] when that
    is not negative), and every value is a string or a float as
    [safe_serialize] leaves it; when the column names are distinct and every
    fetched row has one value per column, the rows are the capped fetched
    rows with [safe_serialize] applied to every value. *)
Theorem run_query_pipeline_success_payload (W : services) (question text sql : string)
  (columns : list string) (rows : list (list pyval)) (row_count : nat) :
  run_query_pipeline W question = Ok (SuccessResponse text columns rows row_count sql) ->
  exists fetched,
    db_execute W sql = Ok (columns, fetched)
    /\ row_count = List.length rows
    /\ List.length rows = List.length (slice_to (MAX_ROWS W) fetched)
    /\ ((0 <= MAX_ROWS W)%Z -> (Z.of_nat row_count <= MAX_ROWS W)%Z)
    /\ Forall (Forall serialized) rows
    /\ (NoDup columns ->
        Forall (fun r => List.length r = List.length columns) fetched ->
        rows = map (map safe_serialize) (slice_to (MAX_ROWS W) fetched)).
Proof.
  intros H.
  destruct (run_query_pipeline_stages W question _ H) as [v [raw_sql [_ [_ Hst]]]].
  inversion Hst; subst. exists fetched. unfold shaped_rows.
  split; [assumption|]. split; [now rewrite !length_map|].
  split; [now rewrite !length_map|]. split; [|split].
  - intros Hcap. rewrite !length_map. now apply slice_to_length.
  - rewrite map_map. apply Forall_forall. intros r Hr. apply in_map_iff in Hr.
    destruct Hr as [x [<- _]]. apply serialize_row_values.
  - intros Hnd Hall. rewrite !map_map. apply map_ext_in. intros r Hr.
    apply serialize_row_aligned; [exact Hnd|].
    rewrite Forall_forall in Hall. apply Hall.
    unfold slice_to in Hr. destruct (0 <=? MAX_ROWS W)%Z; now apply firstn_in in Hr.
Qed.

Lemma run_query_pipeline_success_payload_witness :
  exists fetched,
    db_execute (sample_services (sql_completion "SELECT id, name FROM cooperatives;"))
      "SELECT id, name FROM cooperatives" = Ok (["id"; "name"], fetched)
    /\ 3 = List.length [[PyStr "1"; PyStr "Maju"]; [PyStr "2"; PyStr "Jaya"];
                        [PyStr "3"; PyStr "Makmur"]].
Proof.
  destruct (run_query_pipeline_success_payload
              (sample_services (sql_completion "SELECT id, name FROM cooperatives;"))
              "daftar koperasi" "Terdapat tiga koperasi." "SELECT id, name FROM cooperatives"
              ["id"; "name"]
              [[PyStr "1"; PyStr "Maju"]; [PyStr "2"; PyStr "Jaya"];
               [PyStr "3"; PyStr "Makmur"]] 3 eq_refl)
    as [fetched [H1 [H2 _]]].
  exists fetched. split; [exact H1 | exact H2].
Defined.

(** X13.  An exception escapes [run_query_pipeline] only from the statement
    generation, from normalising a completion whose sql member is not a
    string, from building the schema context, or from the summarizer; a
    failure of the database while executing the statement never does. *)
Theorem run_query_pipeline_raise_sources (W : services) (question : string) (e : exn) :
  run_query_pipeline W question = Raise e ->
  ask_llm_for_sql W 0 question = Raise e
  \/ (exists v, ask_llm_for_sql W 0 question = Ok v /\ candidate_of v = Raise e)
  \/ build_schema_summary W (Some (search_relevant_tables W question)) = Raise e
  \/ (exists rows, summarize_for_minister W question rows = Raise e).
Proof.
  unfold run_query_pipeline, rbind. intros H.
  destruct (ask_llm_for_sql W 0 question) as [v|e0]; [|left; now inversion H].
  destruct (candidate_of v) as [raw_sql|e1] eqn:Hc;
    [|right; left; exists v; split; [reflexivity | inversion H; subst; exact Hc]].
  destruct (contains "Gagal generate SQL yang valid" raw_sql
            || contains "Data tidak tersedia" raw_sql); [discriminate|].
  destruct (build_schema_summary W (Some (search_relevant_tables W question)))
    as [schema|e2]; [|right; right; left; now inversion H].
  destruct (negb (validate_sql raw_sql)); [discriminate|].
  destruct (enforce_schema_strictly raw_sql schema) as [[|] name]; [|discriminate].
  destruct (execute_read_query W raw_sql (MAX_ROWS W)) as [result|e3]; [|discriminate].
  destruct (summarize_for_minister W question _) as [text|e4] eqn:Hs; [discriminate|].
  right; right; right. inversion H; subst. eauto.
Qed.

Lemma run_query_pipeline_raise_sources_witness :
  exists v,
    ask_llm_for_sql (sample_services (sql_completion_raw "42")) 0 "q" = Ok v
    /\ candidate_of v = Raise (AttributeError "object has no attribute 'strip'").
Proof.
  destruct (run_query_pipeline_raise_sources (sample_services (sql_completion_raw "42"))
              "q" (AttributeError "object has no attribute 'strip'") eq_refl)
    as [H | [H | [H | [rows H]]]]; try (vm_compute in H; discriminate).
  exact H.
Defined.

(** X14.  Every response [run_query_pipeline] returns carries, as
    [generated_sql], the candidate obtained from its single generation
    call; and when that candidate contains one of the
    two error replies, the response is the error Tidak dapat membuat query
    yang valid untuk pertanyaan ini with a suggestion, whatever the
    validators would have said. *)
Theorem run_query_pipeline_reports_candidate (W : services) (question : string)
  (resp : response) :
  run_query_pipeline W question = Ok resp ->
  exists v,
    ask_llm_for_sql W 0 question = Ok v
    /\ candidate_of v = Ok (generated_sql_of resp)
    /\ (is_error_reply (generated_sql_of resp) = true ->
        exists suggestion, resp = ErrorResponse
          "Tidak dapat membuat query yang valid untuk pertanyaan ini"
          (generated_sql_of resp) (Some suggestion) None).
Proof.
  intros H.
  destruct (run_query_pipeline_stages W question resp H) as [v [raw_sql [Hv [Hc Hst]]]].
  exists v. split; [exact Hv|].
  destruct Hst; simpl; (split; [exact Hc|]); intros Hs; try congruence. eauto.
Qed.

Lemma run_query_pipeline_reports_candidate_witness :
  exists v,
    ask_llm_for_sql
      (sample_services (sql_completion "SELECT 'Data tidak tersedia'::text as message"))
      0 "berapa harga emas" = Ok v
    /\ candidate_of v = Ok "SELECT 'Data tidak tersedia'::text as message".
Proof.
  destruct (run_query_pipeline_reports_candidate
              (sample_services (sql_completion "SELECT 'Data tidak tersedia'::text as message"))
              "berapa harga emas"
              (ErrorResponse "Tidak dapat membuat query yang valid untuk pertanyaan ini"
                 "SELECT 'Data tidak tersedia'::text as message"
                 (Some "Coba perbaiki pertanyaan atau pastikan data yang dicari tersedia dalam sistem")
                 None) eq_refl) as [v [H1 [H2 _]]].
  exists v. split; [exact H1 | exact H2].
Defined.

(** ** What the retry loop hands back *)

Lemma attempt_once_accepted W question schema attempt last_error sql :
  attempt_once W question schema attempt last_error = Accepted sql ->
  generate W question schema attempt last_error = Ok sql
  /\ validate_sql sql = true /\ enforce_schema_strictly sql schema = (true, None).
Proof.
  unfold attempt_once.
  destruct (generate W question schema attempt last_error) as [s|]; [|discriminate].
  destruct (validate_sql s) eqn:Hv; simpl; [|discriminate].
  pose proof (enforce_report schema s) as [Hyes _].
  destruct (enforce_schema_strictly s schema) as [[|] name] eqn:He; [|discriminate].
  intros H. inversion H; subst. split; [reflexivity|]. split; [exact Hv|].
  rewrite He. exact (Hyes eq_refl).
Qed.

Lemma retry_loop_outcome W question schema remaining :
  forall attempt last_error sql n,
    retry_loop W question schema remaining attempt last_error = (sql, n) ->
    (sql = fallback_sql /\ n = attempt + remaining)
    \/ (validate_sql sql = true /\ enforce_schema_strictly sql schema = (true, None)
        /\ attempt < n <= attempt + remaining).
Proof.
  induction remaining as [|remaining IH]; intros attempt last_error sql n; simpl.
  - intros H. inversion H. left. split; [reflexivity | lia].
  - destruct (attempt_once W question schema attempt last_error) as [s|e] eqn:E.
    + intros H. inversion H; subst.
      apply attempt_once_accepted in E. destruct E as [_ [Hv He]].
      right. split; [exact Hv|]. split; [exact He | lia].
    + intros H. apply IH in H. destruct H as [[-> ->] | [Hv [He Hn]]].
      * left. split; [reflexivity | lia].
      * right. split; [exact Hv|]. split; [exact He | lia].
Qed.

(** X15.  What [ask_llm_for_sql_with_retry] returns is either the fallback
    statement, together with all [max_retries + 1] attempts used, or a
    statement that [validate_sql] and [enforce_schema_strictly] (for the
    whole-schema context) both accept, found at an attempt between 1 and
    [max_retries + 1]; with a negative [max_retries] the loop body never runs
    and the fallback is returned with no attempt made. *)
Theorem ask_llm_for_sql_with_retry_returns_validated (W : services) (question : string)
  (max_retries : Z) (sql : string) (attempts : nat) :
  ask_llm_for_sql_with_retry W question max_retries = Ok (sql, attempts) ->
  exists schema,
    build_schema_summary W None = Ok schema
    /\ ((sql = fallback_sql /\ attempts = Z.to_nat (max_retries + 1))
        \/ (validate_sql sql = true /\ enforce_schema_strictly sql schema = (true, None)
            /\ 1 <= attempts <= Z.to_nat (max_retries + 1)))
    /\ ((max_retries < 0)%Z -> sql = fallback_sql /\ attempts = 0).
Proof.
  unfold ask_llm_for_sql_with_retry, rbind.
  destruct (build_schema_summary W None) as [schema|]; [|discriminate].
  intros H. inversion H as [Hloop]. exists schema. split; [reflexivity|]. split.
  - destruct (retry_loop_outcome _ _ _ _ _ _ _ _ Hloop) as [[-> ->] | [Hv [He Hn]]].
    + left. split; [reflexivity | lia].
    + right. split; [exact Hv|]. split; [exact He | lia].
  - intros Hneg. replace (Z.to_nat (max_retries + 1)) with 0 in Hloop by lia.
    simpl in Hloop. inversion Hloop. auto.
Qed.

Lemma ask_llm_for_sql_with_retry_returns_validated_witness :
  exists schema,
    build_schema_summary (sample_services (sql_completion "SELECT name FROM cooperatives;"))
      None = Ok schema
    /\ enforce_schema_strictly "SELECT name FROM cooperatives" schema = (true, None).
Proof.
  destruct (ask_llm_for_sql_with_retry_returns_validated
              (sample_services (sql_completion "SELECT name FROM cooperatives;"))
              "daftar koperasi" 2 "SELECT name FROM cooperatives" 1 eq_refl)
    as [schema [Hb [[[Hf _] | [_ [He _]]] _]]].
  - vm_compute in Hf. discriminate.
  - exists schema. split; [exact Hb | exact He].
Defined.

(** ** The candidate statement *)

Lemma rev_string_twice s acc acc' :
  rev_string (rev_string s acc) acc' = rev_string acc (s ++ acc').
Proof.
  revert acc. induction s as [|c r IH]; intros acc; simpl; [reflexivity|].
  now rewrite IH.
Qed.

Lemma rev_string_app a b acc :
  rev_string (a ++ b) acc = rev_string b (rev_string a acc).
Proof. revert acc. induction a as [|c a IH]; intros acc; simpl; [reflexivity | apply IH]. Qed.

Lemma rstrip_ends_nonspace t c :
  is_space c = false -> rstrip (t ++ String c EmptyString) = t ++ String c EmptyString.
Proof.
  intros Hc. unfold rstrip. rewrite rev_string_app. simpl. rewrite Hc.
  change (String c (rev_string t "")) with (rev_string (String c EmptyString) (rev_string t "")).
  simpl. rewrite rev_string_twice. reflexivity.
Qed.

Lemma lstrip_app_nonspace s c rest :
  is_space c = false -> lstrip (s ++ String c rest) = lstrip s ++ String c rest.
Proof.
  intros Hc. induction s as [|x s IH]; simpl.
  - now rewrite Hc.
  - destruct (is_space x); [exact IH | reflexivity].
Qed.

Lemma drop_last_semicolon_cons c x r :
  drop_last_semicolon (String c (String x r)) = String c (drop_last_semicolon (String x r)).
Proof. reflexivity. Qed.

Lemma drop_last_semicolon_app s :
  drop_last_semicolon (s ++ ";") = s.
Proof.
  induction s as [|c s IH]; [reflexivity|].
  change (String c s ++ ";") with (String c (s ++ ";")).
  destruct (s ++ ";") as [|x r] eqn:E; [destruct s; discriminate|].
  rewrite drop_last_semicolon_cons. now rewrite IH.
Qed.

(** X16.  Normalising the completion's sql member strips surrounding
    whitespace and then exactly one trailing semicolon: from [s;] it gives [s]
    without its leading whitespace (trailing whitespace before the semicolon
    stays), from a text ending in two semicolons it gives a candidate that
    still ends in one and that [validate_sql] rejects, and a member that is
    not a string raises. *)
Theorem candidate_drops_one_semicolon (s : string) :
  candidate_of (JStr (s ++ ";")) = Ok (lstrip s)
  /\ (exists c, candidate_of (JStr (s ++ ";;")) = Ok c /\ validate_sql c = false)
  /\ (forall v, (forall w, v <> JStr w) -> exists e, candidate_of v = Raise e).
Proof.
  split; [|split].
  - unfold candidate_of, strip. f_equal.
    rewrite (lstrip_app_nonspace s ";" EmptyString) by reflexivity.
    rewrite rstrip_ends_nonspace by reflexivity. apply drop_last_semicolon_app.
  - exists (lstrip s ++ ";"). split.
    + unfold candidate_of, strip. f_equal.
      rewrite (lstrip_app_nonspace s ";" ";") by reflexivity.
      change (lstrip s ++ ";;") with (lstrip s ++ String ";" (EmptyString ++ ";")).
      replace (lstrip s ++ String ";" (EmptyString ++ ";"))
        with ((lstrip s ++ ";") ++ ";") by (now rewrite string_app_assoc).
      rewrite rstrip_ends_nonspace by reflexivity. apply drop_last_semicolon_app.
    + destruct (validate_sql (lstrip s ++ ";")) eqn:E; [|reflexivity].
      apply validate_sql_true in E. destruct E as [_ E].
      apply forbidden_search_false in E. destruct E as [E _].
      exfalso. apply E. now exists (lstrip s), EmptyString.
  - intros v Hv. destruct v; simpl; eauto. exfalso. now apply (Hv s0).
Qed.

(** ** Descriptors of the JSON path *)

Lemma summarize_tables_in W tables req summary :
  summarize_tables W tables req = Ok summary ->
  forall d, In d summary <->
    exists t meta col_desc,
      In t req /\ dict_get t tables = Some meta
      /\ describe_columns (t_columns meta) = Ok col_desc
      /\ d = json_descriptor W t meta col_desc.
Proof.
  revert summary. induction req as [|t req IH]; intros summary H d; simpl in H.
  - inversion H. split; [intros [] | intros [? [? [? [[] _]]]]].
  - destruct (dict_get t tables) as [meta|] eqn:Hget.
    + destruct (describe_columns (t_columns meta)) as [col_desc|] eqn:Hd;
        simpl in H; [|discriminate].
      destruct (summarize_tables W tables req) as [rest|]; simpl in H; [|discriminate].
      inversion H; subst. simpl. rewrite (IH rest eq_refl d). split.
      * intros [<- | [u [m [cd [Hin Hrest]]]]].
        -- exists t, meta, col_desc. simpl. auto.
        -- exists u, m, cd. simpl. intuition.
      * intros [u [m [cd [[<- | Hin] [Hg [Hdc ->]]]]]].
        -- left. rewrite Hget in Hg. inversion Hg; subst m.
           rewrite Hd in Hdc. now inversion Hdc.
        -- right. now exists u, m, cd.
    + rewrite (IH summary H d). split.
      * intros [u [m [cd [Hin Hrest]]]]. exists u, m, cd. simpl. intuition.
      * intros [u [m [cd [[<- | Hin] [Hg Hrest]]]]]; [congruence|].
        now exists u, m, cd.
Qed.

Lemma safe_samples_bound W fetched :
  (0 <= SAMPLE_ROWS W)%Z ->
  (Z.of_nat (List.length (safe_samples_of W fetched)) <= SAMPLE_ROWS W)%Z.
Proof.
  intros H. unfold safe_samples_of. rewrite length_map. now apply slice_to_length.
Qed.

Lemma safe_samples_serialized W fetched :
  Forall (fun r => Forall serialized (dict_values r)) (safe_samples_of W fetched).
Proof.
  unfold safe_samples_of. apply Forall_forall. intros r Hr.
  apply in_map_iff in Hr. destruct Hr as [x [<- _]]. apply serialize_row_values.
Qed.

(** X17.  When the metadata file is loaded and its columns are well formed,
    [build_schema_summary] returns a context whose tables are the requested
    names known to the file, in the order of the request and with its
    repetitions (all tables of the file, when nothing is requested).  A
    failure to fetch sample rows leaves the table in with no samples; no
    table has more than [SAMPLE_ROWS] samples, and the sample values are
    serialized. *)
Theorem build_schema_summary_json_path (W : services) (tables : dict table_meta)
  (relevant_tables : option (list string)) :
  kdmp_tables W = FileLoaded tables -> well_formed_tables tables ->
  exists summary,
    build_schema_summary W relevant_tables = Ok summary
    /\ map table summary
       = filter (fun t => dict_has t tables)
                (tables_to_process_of relevant_tables (dict_keys tables))
    /\ forall d, In d summary ->
         ((exists e, fetch_sample_rows W (table d) (SAMPLE_ROWS W) = Raise e) ->
          sample_rows d = [])
         /\ ((0 <= SAMPLE_ROWS W)%Z ->
             (Z.of_nat (List.length (sample_rows d)) <= SAMPLE_ROWS W)%Z)
         /\ Forall (fun r => Forall serialized (dict_values r)) (sample_rows d).
Proof.
  intros Hfile Hwf. unfold build_schema_summary. rewrite Hfile.
  destruct (summarize_tables_total W tables
              (tables_to_process_of relevant_tables (dict_keys tables)) Hwf)
    as [summary Hs].
  rewrite Hs. exists summary. split; [reflexivity|].
  split; [exact (summarize_tables_names W _ _ _ Hs)|].
  intros d Hd. apply (summarize_tables_in _ _ _ _ Hs) in Hd.
  destruct Hd as [t [meta [cd [_ [_ [_ ->]]]]]]. simpl. unfold fetch_samples.
  destruct (fetch_sample_rows W t (SAMPLE_ROWS W)) as [[cols rows]|e].
  - split; [intros [e He]; discriminate|].
    split; [apply safe_samples_bound | apply safe_samples_serialized].
  - split; [reflexivity|]. split; [simpl; lia | constructor].
Qed.

Lemma build_schema_summary_json_path_witness :
  exists summary,
    build_schema_summary (sample_services "") (Some ["provinces"; "klus"; "provinces"])
    = Ok summary
    /\ map table summary = ["provinces"; "provinces"].
Proof.
  destruct (build_schema_summary_json_path (sample_services "")
              [("cooperatives", cooperatives_meta); ("provinces", provinces_meta)]
              (Some ["provinces"; "klus"; "provinces"]) eq_refl) as [summary [H1 [H2 _]]].
  - intros n meta c Hin Hc. unfold well_formed_column.
    simpl in Hin. destruct Hin as [Hin | [Hin | []]]; inversion Hin; subst meta;
      simpl in Hc; intuition (subst; simpl in *; discriminate).
  - exists summary. split; [exact H1 | exact H2].
Defined.

(** ** The database path *)

Lemma describe_db_table_ok W t :
  (exists info, describe_db_table W t = Ok info) <->
  (exists cols, db_list_columns W t = Ok cols)
  /\ (exists fetched, fetch_sample_rows W t (SAMPLE_ROWS W) = Ok fetched).
Proof.
  unfold describe_db_table, fetch_samples, rbind.
  destruct (db_list_columns W t) as [cols|].
  - destruct (fetch_sample_rows W t (SAMPLE_ROWS W)) as [[c r]|].
    + split; eauto.
    + split; [intros [i H]; discriminate | intros [_ [f H]]; discriminate].
  - split; [intros [i H]; discriminate | intros [[c H] _]; discriminate].
Qed.

Lemma describe_db_tables_names W ts n :
  In n (map table (describe_db_tables W ts)) <->
  In n ts /\ exists info, describe_db_table W n = Ok info.
Proof.
  induction ts as [|t ts IH]; simpl.
  - split; [tauto | intros [[] _]].
  - destruct IH as [IH1 IH2].
    destruct (describe_db_table W t) as [info|e] eqn:Hd; simpl.
    + pose proof (describe_db_table_name W t info Hd) as Hname. split.
      * intros [E | Hin].
        -- rewrite Hname in E. subst n. split; [now left | eauto].
        -- destruct (IH1 Hin) as [Hts Hok]. split; [now right | exact Hok].
      * intros [[E | Hin] Hok]; [left; now rewrite Hname | right; apply IH2; now split].
    + split.
      * intros Hin. destruct (IH1 Hin) as [Hts Hok]. split; [now right | exact Hok].
      * intros [[E | Hin] [info Hok]]; [subst; congruence | apply IH2; split; eauto].
Qed.

(** X18.  On the database path, when the table listing and the reconnect
    succeed, [_build_schema_from_db] returns, and a table is in the context
    exactly when it is requested, listed by the database, its columns can be
    read and its sample rows can be fetched: a table whose inspection fails is
    left out, without failing the whole call. *)
Theorem build_schema_from_db_omits_unreadable (W : services)
  (relevant_tables : option (list string)) (all_tables : list string) :
  db_list_tables W = Ok all_tables -> db_reconnect W = Ok tt ->
  exists summary,
    _build_schema_from_db W relevant_tables = Ok summary
    /\ forall n, In n (map table summary) <->
         In n (tables_to_process_of relevant_tables all_tables) /\ In n all_tables
         /\ (exists cols, db_list_columns W n = Ok cols)
         /\ (exists fetched, fetch_sample_rows W n (SAMPLE_ROWS W) = Ok fetched).
Proof.
  intros Hl Hr. unfold _build_schema_from_db, rbind. rewrite Hl, Hr.
  eexists. split; [reflexivity|]. intros n.
  rewrite describe_db_tables_names, filter_In, str_mem_in, describe_db_table_ok. tauto.
Qed.

Lemma build_schema_from_db_omits_unreadable_witness :
  exists summary,
    _build_schema_from_db (sample_services "") (Some ["provinces"; "klus"]) = Ok summary
    /\ (In "klus" (map table summary) <->
        In "klus" ["provinces"; "klus"] /\ In "klus" ["cooperatives"; "provinces"]
        /\ (exists cols, db_list_columns (sample_services "") "klus" = Ok cols)
        /\ (exists fetched, fetch_sample_rows (sample_services "") "klus" 2 = Ok fetched)).
Proof.
  destruct (build_schema_from_db_omits_unreadable (sample_services "")
              (Some ["provinces"; "klus"]) ["cooperatives"; "provinces"] eq_refl eq_refl)
    as [summary [H1 H2]].
  exists summary. split; [exact H1 | exact (H2 "klus")].
Defined.

Lemma describe_columns_raises cols :
  (exists c, In c cols /\ ~ well_formed_column c) ->
  exists e, describe_columns cols = Raise e.
Proof.
  induction cols as [|c cols IH]; intros [x [Hin Hbad]]; [destruct Hin|]. simpl.
  unfold describe_column.
  destruct (c_name c) as [n|] eqn:Hn; [|simpl; eauto].
  destruct (c_type c) as [t|] eqn:Ht; [|simpl; eauto].
  simpl. destruct Hin as [-> | Hin].
  - exfalso. apply Hbad. unfold well_formed_column. rewrite Hn, Ht. split; discriminate.
  - destruct IH as [e ->]; [now exists x|]. simpl. eauto.
Qed.

Lemma summarize_tables_raises W tables req :
  malformed_request tables req -> exists e, summarize_tables W tables req = Raise e.
Proof.
  intros [t [meta [c [Hin [Hget [Hc Hbad]]]]]].
  induction req as [|u req IH]; [destruct Hin|]. simpl.
  destruct (dict_get u tables) as [m|] eqn:Hu.
  - destruct (describe_columns (t_columns m)) as [cd|e] eqn:Hd; simpl; [|eauto].
    destruct Hin as [-> | Hin].
    + rewrite Hget in Hu. inversion Hu; subst m.
      destruct (describe_columns_raises (t_columns meta)) as [e He]; [now exists c|].
      congruence.
    + destruct (IH Hin) as [e ->]. simpl. eauto.
  - destruct Hin as [-> | Hin]; [congruence | now apply IH].
Qed.

(** X19.  [build_schema_summary] abandons the metadata file as a whole: when
    the file is missing or unreadable, or when a column of some processed
    table lacks a name or a type, the result is exactly that of
    [_build_schema_from_db] for the same request, and an exception raised by
    the database's table listing is then raised by [build_schema_summary]. *)
Theorem build_schema_summary_abandons_file (W : services)
  (relevant_tables : option (list string)) :
  (kdmp_tables W = FileMissing \/ kdmp_tables W = FileUnreadable
   \/ exists tables,
        kdmp_tables W = FileLoaded tables
        /\ malformed_request tables
             (tables_to_process_of relevant_tables (dict_keys tables))) ->
  build_schema_summary W relevant_tables = _build_schema_from_db W relevant_tables
  /\ (forall e, db_list_tables W = Raise e ->
        build_schema_summary W relevant_tables = Raise e).
Proof.
  intros H.
  assert (E : build_schema_summary W relevant_tables
              = _build_schema_from_db W relevant_tables).
  { unfold build_schema_summary.
    destruct H as [-> | [-> | [tables [-> Hbad]]]]; try reflexivity.
    destruct (summarize_tables_raises W tables _ Hbad) as [e ->]. reflexivity. }
  split; [exact E|]. intros e He. rewrite E.
  unfold _build_schema_from_db. now rewrite He.
Qed.

Lemma build_schema_summary_abandons_file_witness :
  build_schema_summary malformed_services None
  = _build_schema_from_db malformed_services None.
Proof.
  apply (build_schema_summary_abandons_file malformed_services None).
  right; right. eexists. split; [reflexivity|].
  eexists "users", _, _. simpl. repeat split; try (left; reflexivity).
  intros [Hn _]. now apply Hn.
Defined.

(** ** From the metadata file to the quoted-identifier check *)

Lemma split_first_app_sep sep n rest :
  split_first sep (n ++ String sep rest) = split_first sep n.
Proof.
  induction n as [|c n IH]; simpl.
  - now rewrite Ascii.eqb_refl.
  - destruct (Ascii.eqb c sep); [reflexivity | now rewrite IH].
Qed.

Lemma split_first_plain sep n : no_char sep n -> split_first sep n = n.
Proof.
  unfold no_char. induction n as [|c n IH]; simpl; [reflexivity|].
  intros Hn. destruct (Ascii.eqb_spec c sep) as [->|Hne].
  - exfalso. apply Hn. now left.
  - f_equal. apply IH. intros H. apply Hn. now right.
Qed.

Lemma col_name_of_descriptor n rest : col_name (n ++ String " " rest) = col_name n.
Proof. unfold col_name. now rewrite split_first_app_sep. Qed.

Lemma col_name_fixed n : col_name n = n <-> plain_name n.
Proof.
  split.
  - intros H. rewrite <- H. apply col_name_plain.
  - intros [H1 H2]. unfold col_name. rewrite (split_first_plain " " n H1).
    now apply split_first_plain.
Qed.

(** X20.  The name the enforcer reads off a column descriptor built from
    the metadata file is the name read off the declared column name itself;
    it is the declared name exactly when that name contains neither a space
    nor an opening parenthesis.  The same holds for the descriptors of the
    database path, name followed by the type in parentheses. *)
Theorem col_name_round_trip (c : column_meta) (d n : string) :
  describe_column c = Ok d -> c_name c = Some n ->
  col_name d = col_name n
  /\ (col_name d = n <-> plain_name n)
  /\ (forall type, col_name (n ++ " (" ++ type ++ ")") = col_name n).
Proof.
  intros Hd Hn. unfold describe_column in Hd. rewrite Hn in Hd.
  destruct (c_type c) as [t|]; [|discriminate]. inversion Hd; subst d.
  change (n ++ " (" ++ t ++ "): " ++ or_empty (c_description c))
    with (n ++ String " " ("(" ++ t ++ "): " ++ or_empty (c_description c))).
  rewrite col_name_of_descriptor. split; [reflexivity|].
  split; [apply col_name_fixed|].
  intros type. change (n ++ " (" ++ type ++ ")") with (n ++ String " " ("(" ++ type ++ ")")).
  apply col_name_of_descriptor.
Qed.

Lemma col_name_round_trip_witness :
  col_name "villageId (bigint): " = "villageId" <-> plain_name "villageId".
Proof.
  exact (proj1 (proj2 (col_name_round_trip (column "villageId" "bigint")
                         "villageId (bigint): " "villageId" eq_refl eq_refl))).
Defined.

Lemma describe_columns_in cols ds :
  describe_columns cols = Ok ds ->
  forall d, In d ds <-> exists c, In c cols /\ describe_column c = Ok d.
Proof.
  revert ds. induction cols as [|c cols IH]; intros ds H d; simpl in H.
  - inversion H. split; [intros [] | intros [? [[] _]]].
  - destruct (describe_column c) as [x|] eqn:Hc; simpl in H; [|discriminate].
    destruct (describe_columns cols) as [xs|]; simpl in H; [|discriminate].
    inversion H; subst. simpl. rewrite (IH xs eq_refl d). split.
    + intros [<- | [c' [Hin Hd]]]; [exists c; auto | exists c'; auto].
    + intros [c' [[<- | Hin] Hd]]; [left; congruence | right; eauto].
Qed.

Lemma describe_column_named c d :
  describe_column c = Ok d -> exists n, c_name c = Some n.
Proof.
  unfold describe_column. destruct (c_name c) as [n|]; [eauto | discriminate].
Qed.

Lemma exact_columns_of_summary (W : services) (tables : dict table_meta)
  (req : list string) (summary : schema_summary) (q : string) :
  plain_tables tables ->
  summarize_tables W tables req = Ok summary ->
  (exact_column summary q <-> exists t, In t req /\ declared_column tables t q).
Proof.
  intros Hplain Hs. unfold exact_column, declared_column. split.
  - intros [d [col [Hd [Hcol Hq]]]].
    apply (summarize_tables_in _ _ _ _ Hs) in Hd.
    destruct Hd as [t [meta [cd [Hin [Hget [Hdc ->]]]]]]. simpl in Hcol.
    apply (describe_columns_in _ _ Hdc) in Hcol. destruct Hcol as [c [Hc Hdesc]].
    destruct (describe_column_named c col Hdesc) as [n Hn].
    destruct (col_name_round_trip c col n Hdesc Hn) as [_ [Hfix _]].
    assert (Hp : plain_name n)
      by (apply (Hplain t meta c n); [now apply dict_get_in | exact Hc | exact Hn]).
    apply Hfix in Hp. rewrite Hp in Hq. subst q.
    exists t. split; [exact Hin|]. now exists meta, c.
  - intros [t [Hin [meta [c [Hget [Hc Hn]]]]]].
    destruct (describe_columns (t_columns meta)) as [cd|e] eqn:Hdc.
    + assert (Hdesc : exists d, describe_column c = Ok d).
      { clear - Hc Hdc. revert cd Hdc. induction (t_columns meta) as [|x xs IH];
          intros cd Hdc; [destruct Hc|]. simpl in Hdc.
        destruct (describe_column x) as [dx|] eqn:Hx; simpl in Hdc; [|discriminate].
        destruct (describe_columns xs) as [dxs|]; simpl in Hdc; [|discriminate].
        destruct Hc as [<- | Hc]; [eauto | now apply (IH Hc dxs)]. }
      destruct Hdesc as [d Hd].
      exists (json_descriptor W t meta cd), d. split; [|split].
      * apply (summarize_tables_in _ _ _ _ Hs). now exists t, meta, cd.
      * simpl. apply (describe_columns_in _ _ Hdc). now exists c.
      * apply (col_name_round_trip c d q Hd Hn).
        apply (Hplain t meta c q); [now apply dict_get_in | exact Hc | exact Hn].
    + exfalso. clear - Hs Hin Hget Hdc.
      revert summary Hs.
      induction req as [|u us IH]; intros summary Hs; [destruct Hin|]. simpl in Hs.
      destruct (dict_get u tables) as [m|] eqn:Hu.
      * destruct (describe_columns (t_columns m)) as [x|] eqn:Hx; simpl in Hs;
          [|discriminate].
        destruct (summarize_tables W tables us) as [rest|]; simpl in Hs; [|discriminate].
        destruct Hin as [-> | Hin]; [congruence | now apply (IH Hin rest)].
      * destruct Hin as [-> | Hin]; [congruence | now apply (IH Hin summary)].
Qed.

Lemma json_path_summary W tables relevant_tables summary :
  kdmp_tables W = FileLoaded tables -> well_formed_tables tables ->
  build_schema_summary W relevant_tables = Ok summary ->
  summarize_tables W tables (tables_to_process_of relevant_tables (dict_keys tables))
  = Ok summary.
Proof.
  intros Hfile Hwf Hb. unfold build_schema_summary in Hb. rewrite Hfile in Hb.
  destruct (summarize_tables_total W tables
              (tables_to_process_of relevant_tables (dict_keys tables)) Hwf) as [s Hs].
  rewrite Hs in Hb. now rewrite <- Hb.
Qed.

(** X21.  For a loaded, well-formed metadata file whose column names contain
    no space and no opening parenthesis, the quoted identifiers the enforcer
    accepts for the context [build_schema_summary] returns are exactly the
    column names declared in the file for the tables processed. *)
Theorem exact_columns_of_json_context (W : services) (tables : dict table_meta)
  (relevant_tables : option (list string)) (summary : schema_summary) (q : string) :
  kdmp_tables W = FileLoaded tables -> well_formed_tables tables ->
  plain_tables tables ->
  build_schema_summary W relevant_tables = Ok summary ->
  (exact_column summary q <->
   exists t, In t (tables_to_process_of relevant_tables (dict_keys tables))
             /\ declared_column tables t q).
Proof.
  intros Hfile Hwf Hplain Hb.
  apply (exact_columns_of_summary W); [exact Hplain|].
  now apply json_path_summary.
Qed.

Lemma sample_tables_well_formed :
  well_formed_tables [("cooperatives", cooperatives_meta); ("provinces", provinces_meta)].
Proof.
  intros n meta c Hin Hc. unfold well_formed_column.
  simpl in Hin. destruct Hin as [Hin | [Hin | []]]; inversion Hin; subst meta;
    simpl in Hc; intuition (subst; simpl in *; discriminate).
Qed.

Lemma sample_tables_plain :
  plain_tables [("cooperatives", cooperatives_meta); ("provinces", provinces_meta)].
Proof.
  intros n meta c name Hin Hc Hn. apply col_name_fixed.
  simpl in Hin. destruct Hin as [Hin | [Hin | []]]; inversion Hin; subst meta;
    simpl in Hc;
    repeat (destruct Hc as [<- | Hc]; [simpl in Hn; inversion Hn; reflexivity|]);
    destruct Hc.
Qed.

Lemma exact_columns_of_json_context_witness :
  exact_column
    [json_descriptor (sample_services "") "cooperatives" cooperatives_meta
       ["id (bigint): "; "name (varchar): "; "villageId (bigint): "]] "villageId"
  <-> exists t, In t ["cooperatives"; "users"]
                /\ declared_column [("cooperatives", cooperatives_meta);
                                    ("provinces", provinces_meta)] t "villageId".
Proof.
  exact (exact_columns_of_json_context (sample_services "")
           [("cooperatives", cooperatives_meta); ("provinces", provinces_meta)]
           (Some ["cooperatives"; "users"]) _ "villageId" eq_refl
           sample_tables_well_formed sample_tables_plain eq_refl).
Defined.

(** ** The filtered context against the whole one *)

Lemma dict_get_key {V} k (d : dict V) v : dict_get k d = Some v -> In k (dict_keys d).
Proof. intros H. apply dict_has_keys. unfold dict_has. now rewrite H. Qed.

Lemma filtered_within_whole W tables req s1 s2 :
  summarize_tables W tables req = Ok s1 ->
  summarize_tables W tables (dict_keys tables) = Ok s2 ->
  schema_incl s1 s2.
Proof.
  intros H1 H2 d Hd. apply (summarize_tables_in _ _ _ _ H1) in Hd.
  destruct Hd as [t [meta [cd [_ [Hget [Hdc ->]]]]]].
  apply (summarize_tables_in _ _ _ _ H2). exists t, meta, cd.
  split; [now apply (dict_get_key t tables meta)|]. auto.
Qed.

(** X22.  With the metadata file loaded, the context built for a list of
    requested tables is within the context built for the whole schema, so a
    statement that [enforce_schema_strictly] accepts for the filtered context
    (as the pipeline checks it) is accepted for the whole one (as the retry
    loop checks it). *)
Theorem filtered_context_within_whole (W : services) (tables : dict table_meta)
  (relevant_tables : list string) (filtered whole : schema_summary) (sql : string) :
  kdmp_tables W = FileLoaded tables -> well_formed_tables tables ->
  build_schema_summary W (Some relevant_tables) = Ok filtered ->
  build_schema_summary W None = Ok whole ->
  schema_incl filtered whole
  /\ (fst (enforce_schema_strictly sql filtered) = true ->
      enforce_schema_strictly sql whole = (true, None)).
Proof.
  intros Hfile Hwf H1 H2.
  apply (json_path_summary W tables _ _ Hfile Hwf) in H1.
  apply (json_path_summary W tables _ _ Hfile Hwf) in H2. simpl in H2.
  assert (Hi : schema_incl filtered whole)
    by (exact (filtered_within_whole W tables _ _ _ H1 H2)).
  split; [exact Hi | now apply enforce_larger_context].
Qed.

Lemma filtered_context_within_whole_witness :
  enforce_schema_strictly "SELECT name FROM cooperatives"
    [json_descriptor (sample_services "") "cooperatives" cooperatives_meta
       ["id (bigint): "; "name (varchar): "; "villageId (bigint): "];
     json_descriptor (sample_services "") "provinces" provinces_meta
       ["province_id (bigint): "; "name (varchar): "]]
  = (true, None).
Proof.
  apply (proj2 (filtered_context_within_whole (sample_services "")
                  [("cooperatives", cooperatives_meta); ("provinces", provinces_meta)]
                  ["cooperatives"] _ _ "SELECT name FROM cooperatives"
                  eq_refl sample_tables_well_formed eq_refl eq_refl)).
  reflexivity.
Defined.

(** ** Rows and column names *)

Lemma dict_set_keys {V} k (v : V) d x :
  In x (dict_keys (dict_set k v d)) <-> x = k \/ In x (dict_keys d).
Proof.
  unfold dict_keys. induction d as [|[k' v'] d IH]; simpl.
  - intuition.
  - destruct (String.eqb_spec k k') as [->|Hne]; simpl; [intuition|].
    rewrite IH. intuition.
Qed.

Lemma dict_set_nodup {V} k (v : V) d :
  NoDup (dict_keys d) -> NoDup (dict_keys (dict_set k v d)).
Proof.
  unfold dict_keys. induction d as [|[k' v'] d IH]; simpl; intros Hnd.
  - repeat constructor. simpl. tauto.
  - inversion Hnd; subst. destruct (String.eqb_spec k k') as [->|Hne]; simpl.
    + now constructor.
    + constructor; [|now apply IH].
      intros Hin. apply (dict_set_keys k v d k') in Hin.
      destruct Hin as [E | Hin]; [congruence | contradiction].
Qed.

Lemma dict_of_pairs_keys {V} (ps acc : list (string * V)) :
  NoDup (dict_keys acc) ->
  NoDup (dict_keys (fold_left (fun d kv => dict_set (fst kv) (snd kv) d) ps acc))
  /\ forall x,
       In x (dict_keys (fold_left (fun d kv => dict_set (fst kv) (snd kv) d) ps acc))
       <-> In x (dict_keys acc) \/ In x (map fst ps).
Proof.
  revert acc. induction ps as [|[k v] ps IH]; intros acc Hnd; simpl.
  - split; [exact Hnd | tauto].
  - destruct (IH (dict_set k v acc) (dict_set_nodup k v acc Hnd)) as [H1 H2].
    split; [exact H1|]. intros x. rewrite H2, dict_set_keys. intuition.
Qed.

Lemma row_of_keys columns (r : list pyval) :
  NoDup (dict_keys (row_of columns r))
  /\ forall x, In x (dict_keys (row_of columns r)) -> In x columns.
Proof.
  unfold row_of, dict_of_pairs.
  destruct (dict_of_pairs_keys (combine columns r) []) as [H1 H2]; [constructor|].
  split; [exact H1|]. intros x Hx. apply H2 in Hx. destruct Hx as [[] | Hx].
  apply in_map_iff in Hx. destruct Hx as [[k v] [<- Hin]].
  now apply in_combine_l in Hin.
Qed.

(** X23.  When the engine's column names are distinct and every fetched row
    has one value per column, each row [execute_read_query] returns has
    the columns as its keys, in the engine's order, and the fetched values as
    its values, in the same order. *)
Theorem execute_read_query_rows_aligned (W : services) (sql : string) (max_rows : Z)
  (columns : list string) (fetched : list (list pyval)) :
  db_execute W sql = Ok (columns, fetched) ->
  NoDup columns ->
  Forall (fun r => List.length r = List.length columns) fetched ->
  exists res,
    execute_read_query W sql max_rows = Ok res
    /\ map (@dict_keys pyval) (qr_rows res)
       = map (fun _ => columns) (slice_to max_rows fetched)
    /\ map (@dict_values pyval) (qr_rows res) = slice_to max_rows fetched.
Proof.
  intros Hdb Hnd Hall. unfold execute_read_query. rewrite Hdb.
  eexists. split; [reflexivity|]. simpl. rewrite !map_map.
  assert (Hin : forall r, In r (slice_to max_rows fetched) ->
                          List.length r = List.length columns).
  { rewrite Forall_forall in Hall. intros r Hr. apply Hall.
    unfold slice_to in Hr. destruct (0 <=? max_rows)%Z; now apply firstn_in in Hr. }
  split.
  - apply map_ext_in. intros r Hr. now apply row_of_aligned; [|apply Hin].
  - rewrite <- (map_id (slice_to max_rows fetched)) at 2.
    apply map_ext_in. intros r Hr. now apply row_of_aligned; [|apply Hin].
Qed.

Lemma execute_read_query_rows_aligned_witness :
  exists res,
    execute_read_query (sample_services "") "SELECT id, name FROM cooperatives" 2 = Ok res
    /\ map (@dict_values pyval) (qr_rows res)
       = [[PyInt 1; PyStr "Maju"]; [PyInt 2; PyStr "Jaya"]].
Proof.
  destruct (execute_read_query_rows_aligned (sample_services "")
              "SELECT id, name FROM cooperatives" 2 ["id"; "name"]
              [[PyInt 1; PyStr "Maju"]; [PyInt 2; PyStr "Jaya"]; [PyInt 3; PyStr "Makmur"]]
              eq_refl) as [res [H1 [_ H3]]].
  - apply distinctb_nodup. reflexivity.
  - repeat constructor.
  - exists res. split; [exact H1 | exact H3].
Defined.

(** X24.  When two columns of the result share a name (as with two joined
    tables that both have a [name] column), every row dict
    [execute_read_query] returns has fewer entries than the column sequence
    returned beside it: the later value overwrites the earlier one. *)
Theorem duplicate_columns_collapse (W : services) (sql : string) (max_rows : Z)
  (columns : list string) (fetched : list (list pyval)) :
  db_execute W sql = Ok (columns, fetched) ->
  ~ NoDup columns ->
  exists res,
    execute_read_query W sql max_rows = Ok res
    /\ qr_columns res = columns
    /\ Forall (fun r => List.length r < List.length columns) (qr_rows res).
Proof.
  intros Hdb Hdup. unfold execute_read_query. rewrite Hdb.
  eexists. split; [reflexivity|]. split; [reflexivity|]. simpl.
  apply Forall_forall. intros row Hrow. apply in_map_iff in Hrow.
  destruct Hrow as [r [<- _]].
  destruct (row_of_keys columns r) as [Hnd Hin].
  assert (Hlen : List.length (row_of columns r) = List.length (dict_keys (row_of columns r)))
    by (unfold dict_keys; now rewrite length_map).
  rewrite Hlen.
  destruct (Nat.lt_ge_cases (List.length (dict_keys (row_of columns r)))
                            (List.length columns)) as [Hlt | Hge]; [exact Hlt|].
  exfalso. apply Hdup. now apply (NoDup_incl_NoDup Hnd Hge).
Qed.

Lemma duplicate_columns_collapse_witness :
  exists res,
    execute_read_query
      {| MAX_ROWS := 5000; SAMPLE_ROWS := 2; search_relevant_tables := fun _ => [];
         kdmp_tables := FileMissing; db_list_tables := Ok []; db_reconnect := Ok tt;
         db_list_columns := fun _ => Ok [];
         fetch_sample_rows := fun _ _ => Ok ([], []);
         db_execute := fun _ => Ok (["name"; "name"], [[PyStr "Maju"; PyStr "Aceh"]]);
         llm_invoke := fun _ _ => Ok EmptyString; json_loads := json_loads_ref;
         summarize_for_minister := fun _ _ => Ok EmptyString |}
      "SELECT c.name, p.name FROM cooperatives c JOIN provinces p ON c.id = p.id" 5000
    = Ok res
    /\ qr_rows res = [[("name", PyStr "Aceh")]].
Proof.
  destruct (duplicate_columns_collapse
      {| MAX_ROWS := 5000; SAMPLE_ROWS := 2; search_relevant_tables := fun _ => [];
         kdmp_tables := FileMissing; db_list_tables := Ok []; db_reconnect := Ok tt;
         db_list_columns := fun _ => Ok [];
         fetch_sample_rows := fun _ _ => Ok ([], []);
         db_execute := fun _ => Ok (["name"; "name"], [[PyStr "Maju"; PyStr "Aceh"]]);
         llm_invoke := fun _ _ => Ok EmptyString; json_loads := json_loads_ref;
         summarize_for_minister := fun _ _ => Ok EmptyString |}
      "SELECT c.name, p.name FROM cooperatives c JOIN provinces p ON c.id = p.id" 5000
      ["name"; "name"] [[PyStr "Maju"; PyStr "Aceh"]] eq_refl) as [res [H1 _]].
  - intros H. inversion H as [|x l Hx _]; subst. apply Hx. now left.
  - exists res. split; [exact H1|]. vm_compute in H1. now inversion H1.
Defined.

(** ** The span the extractor falls back on *)

Lemma upto_last_some c s : In c (chars s) -> upto_last c s <> None.
Proof.
  intros Hin H. now apply (upto_last_none c s H).
Qed.

Lemma last_char_split s c :
  last_char s = Some c -> exists mid, s = mid ++ String c EmptyString.
Proof.
  induction s as [|x r IH]; [discriminate|].
  destruct r as [|y r'].
  - simpl. intros H. inversion H; subst. now exists EmptyString.
  - intros H. destruct (IH H) as [mid Hm]. exists (String x mid).
    simpl. now rewrite <- Hm.
Qed.

Lemma brace_span_none text :
  brace_span text = None <->
  ~ exists pre mid post, text = pre ++ "{" ++ mid ++ "}" ++ post.
Proof.
  split.
  - intros H [pre [mid [post ->]]]. revert H.
    induction pre as [|x pre IH]; simpl.
    + destruct (upto_last "}" (mid ++ String "}" post)) eqn:E; [discriminate|].
      intros _. apply (upto_last_some "}" (mid ++ String "}" post)); [|exact E].
      rewrite chars_app. apply in_or_app. right. now left.
    + destruct (Ascii.eqb x "{"); [|exact IH].
      destruct (upto_last "}" (pre ++ String "{" (mid ++ String "}" post))) eqn:E;
        [discriminate | exact IH].
  - intros H. destruct (brace_span text) as [span|] eqn:E; [|reflexivity].
    exfalso. apply H. destruct (brace_span_shape text span E)
      as [pre [post [-> [_ [Hh [Hl _]]]]]].
    destruct (last_char_split span "}" Hl) as [mid Hmid].
    destruct mid as [|m mid].
    + rewrite Hmid in Hh. discriminate.
    + rewrite Hmid in Hh. simpl in Hh. inversion Hh; subst m.
      exists pre, mid, post. rewrite Hmid. simpl. f_equal.
      now rewrite !string_app_assoc.
Qed.

(** X25.  The brace span the extractor falls back on, when there is one,
    runs from the first opening brace of the text to its last closing brace;
    there is none exactly when the text has no opening brace followed,
    anywhere later, by a closing brace. *)
Theorem brace_span_first_to_last (text : string) :
  (forall span, brace_span text = Some span ->
     exists pre post,
       text = pre ++ span ++ post
       /\ no_char "{" pre /\ head_char span = Some "{"%char
       /\ last_char span = Some "}"%char /\ no_char "}" post)
  /\ (brace_span text = None <->
      ~ exists pre mid post, text = pre ++ "{" ++ mid ++ "}" ++ post).
Proof.
  split; [intros span; apply brace_span_shape | apply brace_span_none].
Qed.
